(** * ektubeshi-cdn: the KV indexing and query core ([src/kv.ts]) and the
    router over it ([src/index.ts])

    A shallow embedding of the worker: the front-matter extractor, the key
    scheme, the write path ([storeMarkdown] with its two index updates), the
    read paths ([getPost], [searchPosts], [getRecentPosts], and the two
    listings the router builds inline), and the router itself ([fetch],
    [handleSync], [handleAPIEndpoints], [handleLegacyEndpoints]).

    Modelling decisions, fixed once for the whole file:
    - a JavaScript string is a [string] (a sequence of 8-bit code units);
      [toLowerCase] and [trim] act on the ASCII range and leave every other
      code unit alone;
    - the KV namespace is a finite map from keys to values; every [get] and
      [put] is also appended to a log, so that "is never read or written" is
      a statement about that log;
    - a thrown exception ends the computation; the store and the log reached
      so far are kept (nothing is rolled back);
    - [JSON.stringify]/[JSON.parse] and [Date] belong to the runtime, not to
      the repository: they are interfaces ([Json], [DateParser]) with the laws
      the code relies on. Every theorem holds for every implementation; Part
      II gives one of each, on which the claims are run on concrete inputs;
    - a request is what the router looks at: the method, the path and the
      query parameters of the URL, and what [request.json()] yields, typed as
      the code types it; a response is its status, its headers and its body
      before serialisation (the time stamp of the health check is left out).

    Part I is the embedding, function by function; Part II the runtime; Part
    III the vocabulary the properties are stated in; Part IV the proofs; Part
    V the laws of the runtime; Parts VI and VII the concrete runs. *)

(** * Part I: the program *)

From Stdlib Require Import ZArith Ascii String.
From stdpp Require Import gmap strings list fin_maps sorting.

Open Scope string_scope.
Open Scope list_scope.

(** ** JavaScript string primitives *)

Module Js.

Definition nl : string := String "010"%char "".

(** [s.startsWith(p)] *)
Fixpoint startsWith (s p : string) {struct p} : bool :=
  match p, s with
  | "", _ => true
  | String _ _, "" => false
  | String a p', String b s' => if Ascii.eqb a b then startsWith s' p' else false
  end.

(** [s.includes(sub)] *)
Fixpoint includes (s sub : string) : bool :=
  startsWith s sub ||
  match s with
  | "" => false
  | String _ s' => includes s' sub
  end.

(** [s.slice(n)] for [0 <= n]. *)
Fixpoint drop (n : nat) (s : string) : string :=
  match n, s with
  | O, _ => s
  | S _, "" => ""
  | S n', String _ s' => drop n' s'
  end.

(** [s.replace(pat, rep)] with a string pattern: the first occurrence only. *)
Fixpoint replace (s pat rep : string) : string :=
  if startsWith s pat then rep +:+ drop (String.length pat) s
  else match s with
       | "" => ""
       | String c s' => String c (replace s' pat rep)
       end.

(** [s.split(sep)] for a one-character separator; never the empty array. *)
Fixpoint split (sep : ascii) (s : string) : list string :=
  match s with
  | "" => [""]
  | String c s' =>
      if Ascii.eqb c sep then "" :: split sep s'
      else match split sep s' with
           | [] => [String c ""]
           | p :: ps => String c p :: ps
           end
  end.

(** [parts.join(sep)] *)
Fixpoint join (sep : string) (parts : list string) : string :=
  match parts with
  | [] => ""
  | [p] => p
  | p :: ps => p +:+ sep +:+ join sep ps
  end.

(** White space of the ASCII range: TAB, LF, VT, FF, CR, SP. *)
Definition isSpace (c : ascii) : bool :=
  let n := nat_of_ascii c in
  ((9 <=? n)%nat && (n <=? 13)%nat) || (n =? 32)%nat.

Fixpoint trimStart (s : string) : string :=
  match s with
  | "" => ""
  | String c s' => if isSpace c then trimStart s' else s
  end.

Fixpoint trimEnd (s : string) : string :=
  match s with
  | "" => ""
  | String c s' =>
      match trimEnd s' with
      | "" => if isSpace c then "" else String c ""
      | t => String c t
      end
  end.

(** [s.trim()] *)
Definition trim (s : string) : string := trimEnd (trimStart s).

Definition lowerChar (c : ascii) : ascii :=
  let n := nat_of_ascii c in
  if (65 <=? n)%nat && (n <=? 90)%nat then ascii_of_nat (n + 32) else c.

(** [s.toLowerCase()] *)
Fixpoint toLowerCase (s : string) : string :=
  match s with
  | "" => ""
  | String c s' => String (lowerChar c) (toLowerCase s')
  end.

(** Truthiness of a string: every string but the empty one. *)
Definition truthy (s : string) : bool :=
  match s with "" => false | _ => true end.

(** Truthiness of a value that may be [null]/[undefined]. *)
Definition truthyOpt (o : option string) : bool :=
  match o with Some s => truthy s | None => false end.

(** The regular expression [/^---\n([\s\S]*?)\n---/]: after the literal
    opening, the lazy group is the shortest text followed by [pat]. *)
Fixpoint lazyUntil (pat s : string) : option string :=
  if startsWith s pat then Some ""
  else match s with
       | "" => None
       | String c s' => String c <$> lazyUntil pat s'
       end.

End Js.

(** ** Data model ([src/types.ts]) *)

(** The two storage slots; the type of the [status] argument everywhere. *)
Inductive Status := Draft | Published.

Definition statusString (st : Status) : string :=
  match st with Draft => "draft" | Published => "published" end.

Global Instance Status_eq_dec : EqDecision Status.
Proof. solve_decision. Defined.

(** [PostMetadata]. The extractor builds a [Partial<PostMetadata>] and casts
    it, and an explicit payload is not checked at run time, so every property
    may be missing; [status] holds whatever string was written. *)
Record PostMetadata := mkMeta {
  title : option string;
  date : option string;
  author : option string;
  status : option string;
  category : option string;
  excerpt : option string;
  tags : option (list string);
  language : option string
}.

Definition emptyMetadata : PostMetadata :=
  mkMeta None None None None None None None None.

(** [SyncPayload]; its fields are prefixed, [Post] has a [content] and a
    [metadata] of its own. *)
Record SyncPayload := mkPayload {
  payload_key : string;
  payload_content : string;
  payload_metadata : option PostMetadata
}.

Record Post := mkPost {
  slug : string;
  metadata : PostMetadata;
  content : string
}.

Record CategoryInfo := mkInfo {
  name : string;
  postCount : nat;
  posts : list string
}.

(** ** The runtime: JSON and dates *)

(** [JSON.stringify] and [JSON.parse] at the two shapes the store holds: a
    metadata object and an array of strings. [JSON_parse_*] is [None] where
    the call throws (or yields a value the next statement throws on);
    [JSON_parse_metadata] is [Some None] for a falsy JSON value ([null],
    [false], [0], the empty string), which every caller tests with [!]. The
    order of an object's properties is not represented. *)
Class Json := {
  JSON_stringify_metadata : PostMetadata → string;
  JSON_parse_metadata : string → option (option PostMetadata);
  JSON_stringify_array : list string → string;
  JSON_parse_array : string → option (list string);
  JSON_parse_stringify_metadata m :
    JSON_parse_metadata (JSON_stringify_metadata m) = Some (Some m);
  JSON_parse_stringify_array l :
    JSON_parse_array (JSON_stringify_array l) = Some l;
  JSON_stringify_metadata_truthy m : Js.truthy (JSON_stringify_metadata m) = true;
  JSON_stringify_array_truthy l : Js.truthy (JSON_stringify_array l) = true
}.

(** [new Date(s).getTime()]: milliseconds since the epoch, [None] for [NaN]
    (an invalid date). *)
Class DateParser := Date_getTime : string → option Z.

(** ** The KV namespace as a logged state with exceptions *)

Inductive KVOp :=
  | KVGet (k : string)
  | KVPut (k v : string).

Definition opKey (o : KVOp) : string :=
  match o with KVGet k => k | KVPut k _ => k end.

Inductive Error :=
  | InvalidMarkdown   (* Error('Invalid markdown: missing required frontmatter') *)
  | SyntaxError       (* JSON.parse on a text it does not accept *)
  | TypeError.        (* a method call on undefined *)

Record Run (A : Type) := mkRun {
  kv : gmap string string;
  log : list KVOp;
  outcome : Error + A
}.
Arguments mkRun {A} _ _ _.
Arguments kv {A} _.
Arguments log {A} _.
Arguments outcome {A} _.

Definition KV (A : Type) : Type := gmap string string → Run A.

Definition kv_ret {A} (a : A) : KV A := λ s, mkRun s [] (inr a).

Definition kv_bind {A B} (f : A → KV B) (m : KV A) : KV B := λ s,
  let r := m s in
  match outcome r with
  | inl e => mkRun (kv r) (log r) (inl e)
  | inr a => let r' := f a (kv r) in mkRun (kv r') (log r ++ log r') (outcome r')
  end.

Global Instance KV_ret : MRet KV := @kv_ret.
Global Instance KV_bind : MBind KV := @kv_bind.

Definition throw {A} (e : Error) : KV A := λ s, mkRun s [] (inl e).

(** [env.EKTUBESHI_CDN_KV.get(key)] *)
Definition kv_get (k : string) : KV (option string) := λ s,
  mkRun s [KVGet k] (inr (s !! k)).

(** [env.EKTUBESHI_CDN_KV.put(key, value)] *)
Definition kv_put (k v : string) : KV unit := λ s,
  mkRun (<[k:=v]> s) [KVPut k v] (inr tt).

(** [for (const x of xs) { acc = body(acc, x) }] *)
Fixpoint forOf {A B} (xs : list A) (acc : B) (body : B → A → KV B) : KV B :=
  match xs with
  | [] => mret acc
  | x :: xs' => acc' ← body acc x; forOf xs' acc' body
  end.

(** ** Metadata Extractor *)

(** One front-matter line: [None] when the guard [key && valueParts.length > 0]
    fails, else the switch key and the trimmed value. *)
Definition parseLine (line : string) : option (string * string) :=
  match Js.split ":" line with
  | key :: valueParts =>
      if Js.truthy key && (0 <? length valueParts)%nat
      then Some (Js.toLowerCase (Js.trim key), Js.trim (Js.join ":" valueParts))
      else None
  | [] => None
  end.

(** The [switch] of the loop body. *)
Definition assignField (m : PostMetadata) (key value : string) : PostMetadata :=
  let '(mkMeta t d a s c e g l) := m in
  if String.eqb key "title" then mkMeta (Some value) d a s c e g l
  else if String.eqb key "date" then mkMeta t (Some value) a s c e g l
  else if String.eqb key "author" then mkMeta t d (Some value) s c e g l
  else if String.eqb key "status" then mkMeta t d a (Some (Js.toLowerCase value)) c e g l
  else if String.eqb key "category" then mkMeta t d a s (Some value) e g l
  else if String.eqb key "excerpt" then mkMeta t d a s c (Some value) g l
  else if String.eqb key "tags" then mkMeta t d a s c e (Some (Js.trim <$> Js.split "," value)) l
  else if String.eqb key "language" then mkMeta t d a s c e g (Some value)
  else m.

Definition applyLine (m : PostMetadata) (line : string) : PostMetadata :=
  match parseLine line with
  | Some (key, value) => assignField m key value
  | None => m
  end.

Definition frontmatterMatch (content : string) : option string :=
  if Js.startsWith content ("---" +:+ Js.nl)
  then Js.lazyUntil (Js.nl +:+ "---") (Js.drop 4 content)
  else None.

(** The check [!metadata.title || !metadata.date || !metadata.author ||
    !metadata.category]. *)
Definition missingRequired (m : PostMetadata) : bool :=
  negb (Js.truthyOpt (title m)) || negb (Js.truthyOpt (date m)) ||
  negb (Js.truthyOpt (author m)) || negb (Js.truthyOpt (category m)).

Definition extractMetadata (content : string) : option PostMetadata :=
  match frontmatterMatch content with
  | None => None
  | Some frontmatter =>
      let lines := Js.split "010" frontmatter in
      let metadata := fold_left applyLine lines emptyMetadata in
      if missingRequired metadata then None else Some metadata
  end.

(** ** Key Space Scheme *)

Definition contentKey (st : Status) (key : string) : string :=
  statusString st +:+ ":" +:+ key.

Definition metadataKey (st : Status) (key : string) : string :=
  "metadata:" +:+ statusString st +:+ ":" +:+ key.

Definition indexKey (category : string) : string := "index:" +:+ category.

Definition categoriesKey : string := "index:categories".

(** [pathParts[i]]; out of range is [undefined], which a template literal
    prints as such (never reached: every use is behind a length test). *)
Definition part (pathParts : list string) (i : nat) : string :=
  default "undefined" (pathParts !! i).

(** ** Index Maintainer and Query Engine ([src/kv.ts]) *)

Section Operations.
Context `{Json}.

(** [raw ? JSON.parse(raw) : []] *)
Definition parseArrayOrEmpty (raw : option string) : KV (list string) :=
  match raw with
  | Some r =>
      if Js.truthy r then
        match JSON_parse_array r with
        | Some l => mret l
        | None => throw SyntaxError
        end
      else mret []
  | None => mret []
  end.

(** [catIndex.includes(slug)] *)
Definition arrayIncludes (l : list string) (x : string) : bool :=
  bool_decide (x ∈ l).

Definition updateCategoryIndex (category slug : string) : KV unit :=
  let catIndexKey := indexKey category in
  catIndexRaw ← kv_get catIndexKey;
  catIndex ← parseArrayOrEmpty catIndexRaw;
  if arrayIncludes catIndex slug then mret tt
  else kv_put catIndexKey (JSON_stringify_array (catIndex ++ [slug])).

Definition updateCategoriesList (category : string) : KV unit :=
  categoriesRaw ← kv_get categoriesKey;
  categories ← parseArrayOrEmpty categoriesRaw;
  if arrayIncludes categories category then mret tt
  else kv_put categoriesKey (JSON_stringify_array (categories ++ [category])).

(** The metadata a write uses: the payload's, else the extractor's. *)
Definition resolveMetadata (payload : SyncPayload) : option PostMetadata :=
  match payload_metadata payload with
  | Some m => Some m
  | None => extractMetadata (payload_content payload)
  end.

Definition storeMarkdown (payload : SyncPayload) (st : Status) : KV unit :=
  let storageKey := contentKey st (payload_key payload) in
  metadata ← match resolveMetadata payload with
              | Some m => mret m
              | None => throw InvalidMarkdown
              end;
  kv_put storageKey (payload_content payload);;
  kv_put (metadataKey st (payload_key payload)) (JSON_stringify_metadata metadata);;
  let pathParts := Js.split "/" (payload_key payload) in
  if (length pathParts <? 3)%nat || negb (bool_decide (st = Published)) then mret tt
  else
    let language := part pathParts 0 in
    let category := part pathParts 1 in
    let slug := part pathParts 2 in
    let fullCategoryKey := language +:+ "/" +:+ category in
    updateCategoryIndex fullCategoryKey slug;;
    updateCategoriesList fullCategoryKey.

Definition getMarkdown (key : string) (st : Status) : KV (option string) :=
  kv_get (contentKey st key).

(** [raw ? JSON.parse(raw) : null]; a falsy parsed value is returned as
    [None] too (both callers only test it with [!]). *)
Definition getPostMetadata (key : string) (st : Status) : KV (option PostMetadata) :=
  raw ← kv_get (metadataKey st key);
  match raw with
  | Some r =>
      if Js.truthy r then
        match JSON_parse_metadata r with
        | Some m => mret m
        | None => throw SyntaxError
        end
      else mret None
  | None => mret None
  end.

Definition getPost (key : string) (st : Status) : KV (option Post) :=
  let pathParts := Js.split "/" key in
  if (length pathParts <? 3)%nat then mret None
  else
    let slug := part pathParts (length pathParts - 1) in
    content ← getMarkdown key st;
    metadata ← getPostMetadata key st;
    match content, metadata with
    | Some c, Some m => if Js.truthy c then mret (Some (mkPost slug m c)) else mret None
    | _, _ => mret None
    end.

Definition getCategorySlugs (category : string) : KV (list string) :=
  raw ← kv_get (indexKey category);
  parseArrayOrEmpty raw.

Definition getCategories : KV (list string) :=
  raw ← kv_get categoriesKey;
  parseArrayOrEmpty raw.

Definition getCategoryInfo (category : string) : KV (option CategoryInfo) :=
  slugs ← getCategorySlugs category;
  if (length slugs =? 0)%nat then mret None
  else mret (Some (mkInfo category (length slugs) slugs)).

(** The filter of [searchPosts]; [title.toLowerCase()] throws on a missing
    title, [tags?.some(...)] is falsy on missing tags. *)
Definition matchesQuery (post : Post) (query : string) : KV bool :=
  let q := Js.toLowerCase query in
  match title (metadata post) with
  | None => throw TypeError
  | Some t =>
      mret (Js.includes (Js.toLowerCase t) q ||
            Js.includes (Js.toLowerCase (content post)) q ||
            match tags (metadata post) with
            | Some ts => existsb (λ tag, Js.includes (Js.toLowerCase tag) q) ts
            | None => false
            end)
  end.

Definition searchPosts (query : string) (st : Status) (language : string) : KV (list Post) :=
  categories ← getCategories;
  forOf categories [] (λ results category,
    if Js.startsWith category (language +:+ "/") then
      slugs ← getCategorySlugs category;
      forOf slugs results (λ results slug,
        let key := category +:+ "/" +:+ slug in
        post ← getPost key st;
        match post with
        | Some p => hit ← matchesQuery p query;
                    mret (if hit : bool then results ++ [p] else results)
        | None => mret results
        end)
    else mret results).

(** The loop of [getRecentPosts] (and of the category listing): every post
    found behind the indexes, in catalog order then index order. *)
Definition collectPosts (st : Status) (language : string) : KV (list Post) :=
  categories ← getCategories;
  forOf categories [] (λ allPosts category,
    if Js.startsWith category (language +:+ "/") then
      slugs ← getCategorySlugs category;
      forOf slugs allPosts (λ allPosts slug,
        let key := category +:+ "/" +:+ slug in
        post ← getPost key st;
        match post with
        | Some p => mret (allPosts ++ [p])
        | None => mret allPosts
        end)
    else mret allPosts).

(** [Array.prototype.sort(compareFn)]: a comparator result of [NaN] counts as
    [+0]; the sort is stable. The model is the stable insertion sort; on a
    comparator that is a consistent ordering every stable sort returns the
    same array. *)
Definition sortCompare {A} (compareFn : A → A → option Z) (a b : A) : Z :=
  default 0%Z (compareFn a b).

Fixpoint sortInsert {A} (compareFn : A → A → option Z) (x : A) (l : list A) : list A :=
  match l with
  | [] => [x]
  | y :: l' =>
      if (0 <? sortCompare compareFn x y)%Z then y :: sortInsert compareFn x l'
      else x :: l
  end.

Definition sort {A} (compareFn : A → A → option Z) (l : list A) : list A :=
  foldr (sortInsert compareFn) [] l.

(** [arr.slice(0, limit)] for an integer [limit]: a negative [limit] counts
    from the end. *)
Definition slice0 {A} (l : list A) (limit : Z) : list A :=
  let len := Z.of_nat (length l) in
  let stop := if (limit <? 0)%Z then Z.max (len + limit) 0 else Z.min limit len in
  take (Z.to_nat stop) l.

Context `{DateParser}.

(** [new Date(p.metadata.date).getTime()]; a missing date is an invalid one. *)
Definition postTime (p : Post) : option Z :=
  match date (metadata p) with
  | Some d => Date_getTime d
  | None => None
  end.

(** [(a, b) => new Date(b.metadata.date).getTime() - new Date(a.metadata.date).getTime()];
    [None] is [NaN]. *)
Definition byDateDesc (a b : Post) : option Z :=
  match postTime b, postTime a with
  | Some tb, Some ta => Some (tb - ta)%Z
  | _, _ => None
  end.

Definition getRecentPosts (limit : Z) (st : Status) (language : string) : KV (list Post) :=
  allPosts ← collectPosts st language;
  mret (slice0 (sort byDateDesc allPosts) limit).

(** ** The two listings of the router ([src/index.ts], [handleAPIEndpoints]) *)

(** [GET /api/posts/:category] *)
Definition listCategory (language category : string) (st : Status) : KV (list Post) :=
  slugs ← getCategorySlugs (language +:+ "/" +:+ category);
  forOf slugs [] (λ posts slug,
    let key := language +:+ "/" +:+ category +:+ "/" +:+ slug in
    post ← getPost key st;
    match post with
    | Some p => mret (posts ++ [p])
    | None => mret posts
    end).

(** [GET /api/categories] *)
Definition listCategories (language : string) : KV (list CategoryInfo) :=
  categories ← getCategories;
  forOf categories [] (λ categoryInfos category,
    if Js.startsWith category (language +:+ "/") then
      let categoryName := Js.replace category (language +:+ "/") "" in
      info ← getCategoryInfo category;
      match info with
      | Some i => mret (categoryInfos ++ [mkInfo categoryName (postCount i) (posts i)])
      | None => mret categoryInfos
      end
    else mret categoryInfos).

(** ** The operations of the system *)

Inductive Operation :=
  | StoreMarkdown (payload : SyncPayload) (st : Status)
  | GetMarkdown (key : string) (st : Status)
  | GetPostMetadata (key : string) (st : Status)
  | GetPost (key : string) (st : Status)
  | GetCategorySlugs (category : string)
  | GetCategories
  | GetCategoryInfo (category : string)
  | SearchPosts (query : string) (st : Status) (language : string)
  | GetRecentPosts (limit : Z) (st : Status) (language : string)
  | ListCategory (language category : string) (st : Status)
  | ListCategories (language : string).

(** The store an operation leaves, whether it returned or threw. *)
Definition execute (op : Operation) (s : gmap string string) : gmap string string :=
  match op with
  | StoreMarkdown payload st => kv (storeMarkdown payload st s)
  | GetMarkdown key st => kv (getMarkdown key st s)
  | GetPostMetadata key st => kv (getPostMetadata key st s)
  | GetPost key st => kv (getPost key st s)
  | GetCategorySlugs category => kv (getCategorySlugs category s)
  | GetCategories => kv (getCategories s)
  | GetCategoryInfo category => kv (getCategoryInfo category s)
  | SearchPosts query st language => kv (searchPosts query st language s)
  | GetRecentPosts limit st language => kv (getRecentPosts limit st language s)
  | ListCategory language category st => kv (listCategory language category st s)
  | ListCategories language => kv (listCategories language s)
  end.

Definition executeAll (ops : list Operation) (s : gmap string string) : gmap string string :=
  foldl (λ s op, execute op s) s ops.

End Operations.

(** ** The router ([src/index.ts]) *)

(** [parseInt(s)] with no radix (ECMA-262 19.2.5): leading white space, a
    sign, a [0x] prefix, then the longest run of digits; [None] is [NaN].
    The result is the exact integer (the engine rounds one that does not fit
    a double; where the router uses it, as the end of a [slice], that makes
    no difference). *)
Module JsNumber.

Definition digitValue (radix : Z) (c : ascii) : option Z :=
  let n := Z.of_nat (nat_of_ascii c) in
  let v := if ((48 <=? n) && (n <=? 57))%Z then Some (n - 48)%Z
           else if ((97 <=? n) && (n <=? 122))%Z then Some (n - 87)%Z
           else if ((65 <=? n) && (n <=? 90))%Z then Some (n - 55)%Z
           else None in
  match v with
  | Some d => if (d <? radix)%Z then Some d else None
  | None => None
  end.

(** The digits read so far are worth [acc]; [seen] tells whether there was
    one. *)
Fixpoint readDigits (radix : Z) (s : string) (acc : Z) (seen : bool) : option Z :=
  match s with
  | "" => if seen then Some acc else None
  | String c s' =>
      match digitValue radix c with
      | Some d => readDigits radix s' (acc * radix + d)%Z true
      | None => if seen then Some acc else None
      end
  end.

Definition parseInt (s : string) : option Z :=
  let str := Js.trimStart s in
  let '(sign, str) :=
    match str with
    | String c rest =>
        if Ascii.eqb c "-" then ((-1)%Z, rest)
        else if Ascii.eqb c "+" then (1%Z, rest)
        else (1%Z, str)
    | "" => (1%Z, str)
    end in
  let '(radix, str) :=
    if Js.startsWith str "0x" || Js.startsWith str "0X" then (16%Z, Js.drop 2 str)
    else (10%Z, str) in
  (λ n, (sign * n)%Z) <$> readDigits radix str 0%Z false.

End JsNumber.

(** What [createResponse] wraps. The health report carries the time of the
    request, which is not modelled. *)
Inductive Data :=
  | DHealth
  | DMessage (message : string)
  | DPost (p : Post)
  | DPosts (l : list Post)
  | DCategoryInfos (l : list CategoryInfo)
  | DCategoryInfo (i : CategoryInfo)
  | DMetadata (m : PostMetadata).

(** The body of a response, before serialisation. *)
Inductive Body :=
  | BNull
  | BJson (success : bool) (data : Data)   (* { success, data } *)
  | BError (error : string)                (* { success: false, error } *)
  | BText (text : string)
  | BArray (l : list string).              (* JSON.stringify of an array of strings *)

Record Response := mkResponse {
  res_status : nat;
  res_headers : list (string * string);
  res_body : Body
}.

Definition corsHeaders : list (string * string) :=
  [("Access-Control-Allow-Origin", "*");
   ("Access-Control-Allow-Methods", "GET, POST, OPTIONS");
   ("Access-Control-Allow-Headers", "Content-Type")].

Definition createResponse (data : Data) (code : nat) : Response :=
  mkResponse code
    (("Content-Type", "application/json") :: ("Cache-Control", "public, max-age=3600")
       :: corsHeaders)
    (BJson (code <? 400)%nat data).

Definition createErrorResponse (message : string) (code : nat) : Response :=
  mkResponse code (("Content-Type", "application/json") :: corsHeaders) (BError message).

(** The JSON body of a sync request, after [request.json()]; a property that
    is missing (or falsy) is [None]. *)
Record SyncBody := mkBody {
  body_key : option string;
  body_content : option string;
  body_metadata : option PostMetadata;
  body_status : option string
}.

(** A request: its method, the path and the query of its URL, and what
    [request.json()] yields ([None] when it rejects, or yields no object). *)
Record Request := mkRequest {
  req_method : string;
  req_pathname : string;
  req_query : list (string * string);
  req_json : option SyncBody
}.

(** [url.searchParams.get(name)]: the first value of that name. *)
Fixpoint searchParam (query : list (string * string)) (name : string) : option string :=
  match query with
  | [] => None
  | (n, v) :: query' => if String.eqb n name then Some v else searchParam query' name
  end.

(** [x || fallback] on a string that may be [null]. *)
Definition orElse (x : option string) (fallback : string) : string :=
  match x with
  | Some v => if Js.truthy v then v else fallback
  | None => fallback
  end.

(** [pathname.match(/^PREFIX([^/]+)$/)] *)
Definition matchOne (prefix pathname : string) : option string :=
  if Js.startsWith pathname prefix then
    match Js.split "/" (Js.drop (String.length prefix) pathname) with
    | [a] => if Js.truthy a then Some a else None
    | _ => None
    end
  else None.

(** [pathname.match(/^PREFIX([^/]+)\/([^/]+)$/)] *)
Definition matchTwo (prefix pathname : string) : option (string * string) :=
  if Js.startsWith pathname prefix then
    match Js.split "/" (Js.drop (String.length prefix) pathname) with
    | [a; b] => if Js.truthy a && Js.truthy b then Some (a, b) else None
    | _ => None
    end
  else None.

(** The message of the search route: [Query parameter "q" is required]. *)
Definition queryRequired : string :=
  "Query parameter " +:+ String "034" ("q" +:+ String "034" " is required").

(** [try { body } catch (error) { handler }] *)
Definition tryCatch {A} (body : KV A) (handler : Error → KV A) : KV A := λ s,
  let r := body s in
  match outcome r with
  | inl e => let r' := handler e (kv r) in mkRun (kv r') (log r ++ log r') (outcome r')
  | inr _ => r
  end.

Section Router.
Context `{Json} `{DateParser}.

(** [statusParam === 'draft' ? 'draft' : 'published'] *)
Definition readStatus (query : list (string * string)) : Status :=
  match searchParam query "status" with
  | Some v => if String.eqb v "draft" then Draft else Published
  | None => Published
  end.

(** [body.status === 'published' ? 'published' : 'draft'] *)
Definition syncStatus (body : SyncBody) : Status :=
  match body_status body with
  | Some v => if String.eqb v "published" then Published else Draft
  | None => Draft
  end.

Definition language_of (query : list (string * string)) : string :=
  orElse (searchParam query "lang") "en".

Definition handleSync (request : Request) : KV Response :=
  tryCatch
    (match req_json request with
     | None => throw SyntaxError
     | Some body =>
         if Js.truthyOpt (body_key body) && Js.truthyOpt (body_content body) then
           let payload := mkPayload (default "" (body_key body)) (default "" (body_content body))
                                    (body_metadata body) in
           storeMarkdown payload (syncStatus body);;
           mret (createResponse (DMessage "Content synced successfully") 200)
         else mret (createErrorResponse "Missing key or content" 400)
     end)
    (λ _, mret (createErrorResponse "Invalid JSON payload" 400)).

Definition handleAPIEndpoints (pathname : string) (query : list (string * string))
    : KV Response :=
  let language := language_of query in
  let st := readStatus query in
  match matchTwo "/api/posts/" pathname with
  | Some (category, slug) =>
      let key := language +:+ "/" +:+ category +:+ "/" +:+ slug in
      post ← getPost key st;
      match post with
      | Some p => mret (createResponse (DPost p) 200)
      | None => mret (createErrorResponse "Post not found" 404)
      end
  | None =>
  match matchOne "/api/posts/" pathname with
  | Some category =>
      posts ← listCategory language category st;
      mret (createResponse (DPosts posts) 200)
  | None =>
  if String.eqb pathname "/api/categories" then
    categoryInfos ← listCategories language;
    mret (createResponse (DCategoryInfos categoryInfos) 200)
  else
  match matchOne "/api/categories/" pathname with
  | Some category =>
      let fullCategoryKey := language +:+ "/" +:+ category in
      info ← getCategoryInfo fullCategoryKey;
      match info with
      | Some i => mret (createResponse (DCategoryInfo (mkInfo category (postCount i) (posts i))) 200)
      | None => mret (createErrorResponse "Category not found" 404)
      end
  | None =>
  if String.eqb pathname "/api/search" then
    match searchParam query "q" with
    | Some q =>
        if Js.truthy q then
          results ← searchPosts q st language;
          mret (createResponse (DPosts results) 200)
        else mret (createErrorResponse queryRequired 400)
    | None => mret (createErrorResponse queryRequired 400)
    end
  else
  if String.eqb pathname "/api/recent" then
    (* a limit of NaN ends the slice at 0 *)
    let limit := default 0%Z (JsNumber.parseInt (orElse (searchParam query "limit") "10")) in
    posts ← getRecentPosts limit st language;
    mret (createResponse (DPosts posts) 200)
  else
  match matchTwo "/api/metadata/" pathname with
  | Some (category, slug) =>
      let key := language +:+ "/" +:+ category +:+ "/" +:+ slug in
      metadata ← getPostMetadata key st;
      match metadata with
      | Some m => mret (createResponse (DMetadata m) 200)
      | None => mret (createErrorResponse "Post metadata not found" 404)
      end
  | None => mret (createErrorResponse "API endpoint not found" 404)
  end end end end.

Definition handleLegacyEndpoints (pathname : string) (query : list (string * string))
    : KV Response :=
  let language := language_of query in
  match matchTwo "/posts/" pathname with
  | Some (category, slug) =>
      let key := language +:+ "/" +:+ category +:+ "/" +:+ slug in
      content ← getMarkdown key (readStatus query);
      match content with
      | Some c =>
          if Js.truthy c then
            mret (mkResponse 200 [("Content-Type", "text/markdown");
                                  ("Cache-Control", "public, max-age=3600")] (BText c))
          else mret (mkResponse 404 [] (BText "Not found"))
      | None => mret (mkResponse 404 [] (BText "Not found"))
      end
  | None =>
  match matchOne "/posts/" pathname with
  | Some category =>
      slugs ← getCategorySlugs (language +:+ "/" +:+ category);
      mret (mkResponse 200 [("Content-Type", "application/json")] (BArray slugs))
  | None =>
  if String.eqb pathname "/categories" then
    categories ← getCategories;
    let languageCategories :=
      (λ cat, Js.replace cat (language +:+ "/") "") <$>
        filter (λ cat, Js.startsWith cat (language +:+ "/") = true) categories in
    mret (mkResponse 200 [("Content-Type", "application/json")] (BArray languageCategories))
  else mret (createErrorResponse "Endpoint not found" 404)
  end end.

(** The worker's [fetch]. *)
Definition fetch (request : Request) : KV Response :=
  if String.eqb (req_method request) "OPTIONS" then mret (mkResponse 200 corsHeaders BNull)
  else
    let pathname := req_pathname request in
    tryCatch
      (if String.eqb pathname "/health" then mret (createResponse DHealth 200)
       else if String.eqb pathname "/sync" && String.eqb (req_method request) "POST"
       then handleSync request
       else if Js.startsWith pathname "/api/"
       then handleAPIEndpoints pathname (req_query request)
       else handleLegacyEndpoints pathname (req_query request))
      (λ _, mret (createErrorResponse "Internal server error" 500)).

End Router.

(** * Part II: one runtime *)

(** ** Compact JSON

    An implementation of the [Json] interface: [JSON.stringify] as the engine
    prints the two shapes (no white space, the escapes of ECMA-262 25.5.2.3
    on 8-bit code units, properties in the order of [src/types.ts]), and a
    reader for exactly such texts. The reader is a [JSON.parse] for compact
    texts only: it does not skip white space, and takes a property of the
    wrong type as a failure. *)

Module CompactJson.

Abbreviation dquote := ("034"%char) (only parsing).
Abbreviation backslash := ("092"%char) (only parsing).

Definition hexDigit (n : nat) : ascii :=
  if (n <? 10)%nat then ascii_of_nat (48 + n) else ascii_of_nat (87 + n).

Definition hexValue (c : ascii) : option nat :=
  let n := nat_of_ascii c in
  if (48 <=? n)%nat && (n <=? 57)%nat then Some (n - 48)
  else if (97 <=? n)%nat && (n <=? 102)%nat then Some (n - 87)
  else if (65 <=? n)%nat && (n <=? 70)%nat then Some (n - 55)
  else None.

(** One code unit of a string, escaped, in front of [k]. *)
Definition printChar (c : ascii) (k : string) : string :=
  let n := nat_of_ascii c in
  if (n =? 34)%nat then String backslash (String dquote k)
  else if (n =? 92)%nat then String backslash (String backslash k)
  else if (n =? 8)%nat then String backslash (String "b" k)
  else if (n =? 12)%nat then String backslash (String "f" k)
  else if (n =? 10)%nat then String backslash (String "n" k)
  else if (n =? 13)%nat then String backslash (String "r" k)
  else if (n =? 9)%nat then String backslash (String "t" k)
  else if (n <? 32)%nat then
    String backslash (String "u" (String "0" (String "0"
      (String (hexDigit (n / 16)) (String (hexDigit (n mod 16)) k)))))
  else String c k.

Fixpoint printChars (s : string) (k : string) : string :=
  match s with
  | "" => k
  | String c s' => printChar c (printChars s' k)
  end.

Definition printString (s : string) (k : string) : string :=
  String dquote (printChars s (String dquote k)).

Fixpoint printElems (l : list string) (k : string) : string :=
  match l with
  | [] => k
  | [x] => printString x k
  | x :: l' => printString x (String "," (printElems l' k))
  end.

Definition printArray (l : list string) (k : string) : string :=
  String "[" (printElems l (String "]" k)).

Inductive JValue :=
  | JString (s : string)
  | JArray (l : list string).

Definition printValue (v : JValue) (k : string) : string :=
  match v with
  | JString s => printString s k
  | JArray l => printArray l k
  end.

Definition printProp (p : string * JValue) (k : string) : string :=
  printString p.1 (String ":" (printValue p.2 k)).

Fixpoint printProps (ps : list (string * JValue)) (k : string) : string :=
  match ps with
  | [] => k
  | [p] => printProp p k
  | p :: ps' => printProp p (String "," (printProps ps' k))
  end.

Definition printObject (ps : list (string * JValue)) (k : string) : string :=
  String "{" (printProps ps (String "}" k)).

Definition prop {A} (key : string) (f : A → JValue) (o : option A) : list (string * JValue) :=
  match o with Some a => [(key, f a)] | None => [] end.

Definition metadataProps (m : PostMetadata) : list (string * JValue) :=
  prop "title" JString (title m) ++ prop "date" JString (date m) ++
  prop "author" JString (author m) ++ prop "status" JString (status m) ++
  prop "category" JString (category m) ++ prop "excerpt" JString (excerpt m) ++
  prop "tags" JArray (tags m) ++ prop "language" JString (language m).

Definition stringify_metadata (m : PostMetadata) : string :=
  printObject (metadataProps m) "".

Definition stringify_array (l : list string) : string := printArray l "".

(** The body of a string literal, after its opening quote: the text and what
    follows the closing quote. *)
Fixpoint readChars (s : string) : option (string * string) :=
  match s with
  | "" => None
  | String c s' =>
      if Ascii.eqb c dquote then Some ("", s')
      else if Ascii.eqb c backslash then
        match s' with
        | "" => None
        | String e s'' =>
            let emit (x : ascii) := (λ r : string * string, (String x r.1, r.2)) <$> readChars s'' in
            if Ascii.eqb e dquote then emit dquote
            else if Ascii.eqb e backslash then emit backslash
            else if Ascii.eqb e "/" then emit "/"%char
            else if Ascii.eqb e "b" then emit "008"%char
            else if Ascii.eqb e "f" then emit "012"%char
            else if Ascii.eqb e "n" then emit "010"%char
            else if Ascii.eqb e "r" then emit "013"%char
            else if Ascii.eqb e "t" then emit "009"%char
            else if Ascii.eqb e "u" then
              match s'' with
              | String h1 (String h2 (String h3 (String h4 rest))) =>
                  match hexValue h1, hexValue h2, hexValue h3, hexValue h4 with
                  | Some 0%nat, Some 0%nat, Some a, Some b =>
                      (λ r : string * string, (String (ascii_of_nat (16 * a + b)) r.1, r.2))
                        <$> readChars rest
                  | _, _, _, _ => None
                  end
              | _ => None
              end
            else None
        end
      else if (nat_of_ascii c <? 32)%nat then None
      else (λ r : string * string, (String c r.1, r.2)) <$> readChars s'
  end.

Definition readString (s : string) : option (string * string) :=
  match s with
  | String q s' => if Ascii.eqb q dquote then readChars s' else None
  | "" => None
  end.

(** One or more elements and the closing bracket. *)
Fixpoint readElems (fuel : nat) (s : string) : option (list string * string) :=
  match fuel with
  | O => None
  | S fuel' =>
      match readString s with
      | Some (x, String c s') =>
          if Ascii.eqb c "," then
            (λ r : list string * string, (x :: r.1, r.2)) <$> readElems fuel' s'
          else if Ascii.eqb c "]" then Some ([x], s')
          else None
      | _ => None
      end
  end.

Definition readArrayText (s : string) : option (list string * string) :=
  match s with
  | String b s' =>
      if Ascii.eqb b "[" then
        match s' with
        | String c s'' => if Ascii.eqb c "]" then Some ([], s'') else readElems (String.length s) s'
        | "" => None
        end
      else None
  | "" => None
  end.

Definition readValue (s : string) : option (JValue * string) :=
  match s with
  | String c _ =>
      if Ascii.eqb c dquote then (λ r : string * string, (JString r.1, r.2)) <$> readString s
      else (λ r : list string * string, (JArray r.1, r.2)) <$> readArrayText s
  | "" => None
  end.

Definition readProp (s : string) : option ((string * JValue) * string) :=
  match readString s with
  | Some (key, String c s') =>
      if Ascii.eqb c ":" then (λ r : JValue * string, ((key, r.1), r.2)) <$> readValue s'
      else None
  | _ => None
  end.

(** One or more properties and the closing brace. *)
Fixpoint readProps (fuel : nat) (s : string) : option (list (string * JValue) * string) :=
  match fuel with
  | O => None
  | S fuel' =>
      match readProp s with
      | Some (p, String c s') =>
          if Ascii.eqb c "," then
            (λ r : list (string * JValue) * string, (p :: r.1, r.2)) <$> readProps fuel' s'
          else if Ascii.eqb c "}" then Some ([p], s')
          else None
      | _ => None
      end
  end.

Definition readObjectText (s : string) : option (list (string * JValue) * string) :=
  match s with
  | String b s' =>
      if Ascii.eqb b "{" then
        match s' with
        | String c s'' => if Ascii.eqb c "}" then Some ([], s'') else readProps (String.length s) s'
        | "" => None
        end
      else None
  | "" => None
  end.

(** Assigning one parsed property; [None] on a property of the wrong type. *)
Definition assignProp (m : PostMetadata) (p : string * JValue) : option PostMetadata :=
  let '(mkMeta t d a s c e g l) := m in
  match p with
  | (key, JString v) =>
      if String.eqb key "title" then Some (mkMeta (Some v) d a s c e g l)
      else if String.eqb key "date" then Some (mkMeta t (Some v) a s c e g l)
      else if String.eqb key "author" then Some (mkMeta t d (Some v) s c e g l)
      else if String.eqb key "status" then Some (mkMeta t d a (Some v) c e g l)
      else if String.eqb key "category" then Some (mkMeta t d a s (Some v) e g l)
      else if String.eqb key "excerpt" then Some (mkMeta t d a s c (Some v) g l)
      else if String.eqb key "tags" then None
      else if String.eqb key "language" then Some (mkMeta t d a s c e g (Some v))
      else Some m
  | (key, JArray v) =>
      if String.eqb key "tags" then Some (mkMeta t d a s c e (Some v) l)
      else if existsb (String.eqb key)
                ["title"; "date"; "author"; "status"; "category"; "excerpt"; "language"]
      then None
      else Some m
  end.

Fixpoint assignProps (m : PostMetadata) (ps : list (string * JValue)) : option PostMetadata :=
  match ps with
  | [] => Some m
  | p :: ps' => match assignProp m p with
                | Some m' => assignProps m' ps'
                | None => None
                end
  end.

(** The four falsy JSON texts. *)
Definition falsyText (s : string) : bool :=
  String.eqb s "null" || String.eqb s "false" || String.eqb s "0" ||
  String.eqb s (String dquote (String dquote "")).

Definition parse_metadata (s : string) : option (option PostMetadata) :=
  if falsyText s then Some None
  else match readObjectText s with
       | Some (ps, "") => Some <$> assignProps emptyMetadata ps
       | _ => None
       end.

Definition parse_array (s : string) : option (list string) :=
  match readArrayText s with
  | Some (l, "") => Some l
  | _ => None
  end.

End CompactJson.

(** ** Dates

    An implementation of [DateParser] for the date-only form [YYYY-MM-DD] of
    ECMA-262 21.4.1.32 (read as UTC midnight); every other string is an
    invalid date. The engine accepts more forms; the interface leaves them
    open. *)

Module IsoDate.

Definition digit (c : ascii) : option Z :=
  let n := nat_of_ascii c in
  if (48 <=? n)%nat && (n <=? 57)%nat then Some (Z.of_nat n - 48)%Z else None.

Definition isLeap (y : Z) : bool :=
  ((y mod 4 =? 0) && negb (y mod 100 =? 0) || (y mod 400 =? 0))%Z.

Definition daysInMonth (y m : Z) : Z :=
  if (m =? 2)%Z then (if isLeap y then 29 else 28)%Z
  else if ((m =? 4) || (m =? 6) || (m =? 9) || (m =? 11))%Z then 30%Z
  else 31%Z.

(** Days from 1970-01-01 to the civil date [y-m-d]. *)
Definition daysFromCivil (y m d : Z) : Z :=
  let y' := (if m <=? 2 then y - 1 else y)%Z in
  let era := (y' / 400)%Z in
  let yoe := (y' - era * 400)%Z in
  let doy := ((153 * (if 2 <? m then m - 3 else m + 9) + 2) / 5 + d - 1)%Z in
  let doe := (yoe * 365 + yoe / 4 - yoe / 100 + doy)%Z in
  (era * 146097 + doe - 719468)%Z.

Definition getTime (s : string) : option Z :=
  match s with
  | String y1 (String y2 (String y3 (String y4 (String "-" (String m1 (String m2
      (String "-" (String d1 (String d2 ""))))))))) =>
      match digit y1, digit y2, digit y3, digit y4, digit m1, digit m2, digit d1, digit d2 with
      | Some a, Some b, Some c, Some d, Some e, Some f, Some g, Some h =>
          let y := (1000 * a + 100 * b + 10 * c + d)%Z in
          let m := (10 * e + f)%Z in
          let dd := (10 * g + h)%Z in
          if ((1 <=? m) && (m <=? 12) && (1 <=? dd) && (dd <=? daysInMonth y m))%Z
          then Some (daysFromCivil y m dd * 86400000)%Z
          else None
      | _, _, _, _, _, _, _, _ => None
      end
  | _ => None
  end.

End IsoDate.

(** * Part III: the vocabulary of the claims *)

Section Vocabulary.
Context {json : Json} {dates : DateParser}.

(** ** Keys *)

(** A category key [language/category] holds a slash, the name of the catalog
    does not: the catalog is never mistaken for a category index. *)
Fixpoint hasSlash (s : string) : bool :=
  match s with
  | "" => false
  | String c s' => Ascii.eqb c "/" || hasSlash s'
  end.

(** ** Reading: what a computation may look at *)

Definition agree (P : string → Prop) (s s' : gmap string string) : Prop :=
  ∀ k, P k → s !! k = s' !! k.

Definition isGetIn (P : string → Prop) (o : KVOp) : Prop :=
  ∃ k, o = KVGet k ∧ P k.

(** [readsOnly P m]: [m] leaves the store as it is, every logged operation is
    a [get] of a key of [P], and the run is the same on two stores that agree
    on [P]. *)
Record readsOnly {A} (P : string → Prop) (m : KV A) : Prop := {
  ro_store : ∀ s, kv (m s) = s;
  ro_log : ∀ s, Forall (isGetIn P) (log (m s));
  ro_frame : ∀ s s', agree P s s' → outcome (m s) = outcome (m s') ∧ log (m s) = log (m s')
}.

(** The keys a query at visibility [st] may read. *)
Definition queryKey (st : Status) (k : string) : Prop :=
  Js.startsWith k "index:" = true ∨ (∃ key, k = contentKey st key) ∨
  (∃ key, k = metadataKey st key).

Definition indexOnly (k : string) : Prop := Js.startsWith k "index:" = true.

Definition slotKey (st : Status) (key k : string) : Prop :=
  k = contentKey st key ∨ k = metadataKey st key.

(** ** Writing: the steps of [storeMarkdown] *)

(** The array a key holds, as [getCategorySlugs] and [getCategories] read it:
    absent and empty values are the empty array, [None] is a text
    [JSON.parse] throws on. *)
Definition readArray (s : gmap string string) (k : string) : option (list string) :=
  match s !! k with
  | Some r => if Js.truthy r then JSON_parse_array r else Some []
  | None => Some []
  end.

Definition arrayOutcome (o : option (list string)) : Error + list string :=
  match o with Some l => inr l | None => inl SyntaxError end.

(** The body shared by [updateCategoryIndex] and [updateCategoriesList]:
    read, test, append and write back. *)
Definition appendIfAbsent (k x : string) : KV unit :=
  raw ← kv_get k;
  l ← parseArrayOrEmpty raw;
  if arrayIncludes l x then mret tt
  else kv_put k (JSON_stringify_array (l ++ [x])).

(** The two writes every accepted payload starts with. *)
Definition slotWrites (payload : SyncPayload) (st : Status) (m : PostMetadata) : list KVOp :=
  [KVPut (contentKey st (payload_key payload)) (payload_content payload);
   KVPut (metadataKey st (payload_key payload)) (JSON_stringify_metadata m)].

Definition afterSlotWrites (payload : SyncPayload) (st : Status) (m : PostMetadata)
    (s : gmap string string) : gmap string string :=
  <[metadataKey st (payload_key payload) := JSON_stringify_metadata m]>
    (<[contentKey st (payload_key payload) := payload_content payload]> s).

(** Whether the write goes on to the indexes: the negation of the guard
    [pathParts.length < 3 || status !== 'published']. *)
Definition indexed (payload : SyncPayload) (st : Status) : bool :=
  negb ((length (Js.split "/" (payload_key payload)) <? 3)%nat ||
        negb (bool_decide (st = Published))).

Definition fullCategoryKey (payload : SyncPayload) : string :=
  let pathParts := Js.split "/" (payload_key payload) in
  part pathParts 0 +:+ "/" +:+ part pathParts 1.

Definition slugOf (payload : SyncPayload) : string :=
  part (Js.split "/" (payload_key payload)) 2.

(** ** Relations between the store before and after *)

(** [moves R m]: whatever [m] does, and whether it returns or throws, the
    store it leaves is [R]-related to the store it started from. *)
Definition moves {A} (R : relation (gmap string string)) (m : KV A) : Prop :=
  ∀ s, R s (kv (m s)).

(** Frame: keys outside [P] keep their value. *)
Definition sameOutside (P : string → Prop) (s s' : gmap string string) : Prop :=
  ∀ k, ¬ P k → s' !! k = s !! k.

(** Growth: an index that can be read stays readable, keeps what it held as
    a prefix, and stays free of duplicates. *)
Definition indexesGrow (s s' : gmap string string) : Prop :=
  ∀ k l, indexOnly k → readArray s k = Some l →
    ∃ l', readArray s' k = Some l' ∧ l `prefix_of` l' ∧ (NoDup l → NoDup l').

(** The keys a write may change. *)
Definition writeKey (payload : SyncPayload) (st : Status) (k : string) : Prop :=
  k = contentKey st (payload_key payload) ∨ k = metadataKey st (payload_key payload) ∨
  indexed payload st = true ∧
  (k = indexKey (fullCategoryKey payload) ∨ k = categoriesKey).

(** ** Point lookups *)

(** [raw ? JSON.parse(raw) : null], as an outcome. *)
Definition parseMetadataOrNull (raw : option string) : Error + option PostMetadata :=
  match raw with
  | Some r =>
      if Js.truthy r then
        match JSON_parse_metadata r with
        | Some m => inr m
        | None => inl SyntaxError
        end
      else inr None
  | None => inr None
  end.

(** The view [getPost] builds from the two values it read. *)
Definition postView (pathParts : list string) (c : option string)
    (m : option PostMetadata) : option Post :=
  match c, m with
  | Some c, Some m =>
      if Js.truthy c then Some (mkPost (part pathParts (length pathParts - 1)) m c) else None
  | _, _ => None
  end.

(** ** Logs and arrays *)

(** Does a log mention an [index:] key? *)
Definition touchesIndex (ops : list KVOp) : bool :=
  existsb (λ o, Js.startsWith (opKey o) "index:") ops.

Definition appended (l : list string) (x : string) : list string :=
  if arrayIncludes l x then l else l ++ [x].

(** ** The validation gate, in the words of the specification *)






(** ** States of the system *)

(** The states of the system: whatever a sequence of operations leaves,
    starting from the empty namespace. *)
Definition reachable (s : gmap string string) : Prop :=
  ∃ ops, s = executeAll ops ∅.

(** The data-model invariant of the indexes: every [index:] key reads as an
    array of strings without duplicates. *)
Definition indexesWellFormed (s : gmap string string) : Prop :=
  ∀ k, indexOnly k → ∃ l, readArray s k = Some l ∧ NoDup l.

(** How often [x] occurs in [l]. *)
Definition occurrences (x : string) (l : list string) : nat :=
  length (filter (λ y, y = x) l).

(** ** Recency *)

(** [a] is dated, [b] is dated, and [b] is not after [a]. *)
Definition notOlder (a b : Post) : Prop :=
  ∃ ta tb, postTime a = Some ta ∧ postTime b = Some tb ∧ (tb ≤ ta)%Z.

Definition dated (p : Post) : Prop := is_Some (postTime p).

(** ** Sample inputs *)

(** A markdown file as the tooling writes it, unquoted. *)
Definition lines (l : list string) : string := Js.join Js.nl l.

Definition document (t d st : string) : string :=
  lines ["---"; "title: " +:+ t; "date: " +:+ d; "author: Dibakar";
         "status: " +:+ st; "category: tech"; "---"; ""; "# " +:+ t].

Definition helloDoc : string := document "Hello" "2025-01-01" "published".

Definition helloMeta : PostMetadata :=
  mkMeta (Some "Hello") (Some "2025-01-01") (Some "Dibakar") (Some "published")
         (Some "tech") None None None.

Definition hello : SyncPayload := mkPayload "en/tech/a" helloDoc None.

(** The slugs of a query result; [None] when the query threw. *)
Definition slugsOf (o : Error + list Post) : option (list string) :=
  match o with inr l => Some (slug <$> l) | inl _ => None end.

Definition dated_post (name d : string) : SyncPayload :=
  mkPayload ("en/tech/" +:+ name) (document name d "published") None.

Definition quoted (s : string) : string := String "034" (s +:+ String "034" "").

Definition publishAll (payloads : list SyncPayload) : gmap string string :=
  executeAll ((λ p, StoreMarkdown p Published) <$> payloads) ∅.

Definition threeMonths : gmap string string :=
  publishAll [dated_post "jan" "2025-01-01"; dated_post "mar" "2025-03-01";
              dated_post "feb" "2025-02-01"].

End Vocabulary.

(** * Part III, continued: vocabulary of the further properties *)

(** Does the character occur in the string? *)
Fixpoint occursIn (c : ascii) (s : string) : bool :=
  match s with
  | "" => false
  | String x s' => Ascii.eqb x c || occursIn c s'
  end.

(** A string [trim] leaves as it is. *)
Definition trimmed (s : string) : Prop := Js.trim s = s.

(** The string does not start with white space. *)
Definition noLeadingSpace (s : string) : Prop :=
  match s with String c _ => Js.isSpace c = false | "" => True end.

(** Every text the extractor stored is trimmed. *)
Definition allTrimmed (m : PostMetadata) : Prop :=
  let ok (o : option string) := ∀ v, o = Some v → trimmed v in
  ok (title m) ∧ ok (date m) ∧ ok (author m) ∧ ok (status m) ∧ ok (category m) ∧
  ok (excerpt m) ∧ ok (language m) ∧ ∀ ts, tags m = Some ts → Forall trimmed ts.

(** The four required properties are present and not empty. *)
Definition hasRequired (m : PostMetadata) : Prop :=
  ∃ t d a c, title m = Some t ∧ date m = Some d ∧ author m = Some a ∧ category m = Some c ∧
             t ≠ "" ∧ d ≠ "" ∧ a ≠ "" ∧ c ≠ "".

(** A loop over a list in the error monad of outcomes: what [forOf] computes
    when its body only reads. *)
Fixpoint foldE {A B} (f : B → A → Error + B) (acc : B) (xs : list A) : Error + B :=
  match xs with
  | [] => inr acc
  | x :: xs' => match f acc x with
                | inl e => inl e
                | inr acc' => foldE f acc' xs'
                end
  end.

(** The post has a title. *)
Definition titled (p : Post) : bool :=
  match title (metadata p) with Some _ => true | None => false end.

(** The test of [searchPosts] on a post that has a title: the lower-cased
    query occurs in the lower-cased title, content or one of the tags. *)
Definition matchesB (query : string) (p : Post) : bool :=
  let q := Js.toLowerCase query in
  match title (metadata p) with
  | Some t => Js.includes (Js.toLowerCase t) q
  | None => false
  end ||
  Js.includes (Js.toLowerCase (content p)) q ||
  match tags (metadata p) with
  | Some ts => existsb (λ tag, Js.includes (Js.toLowerCase tag) q) ts
  | None => false
  end.

Section VocabularyOfQueries.
Context {json : Json} {dates : DateParser}.

(** Every metadata key that holds a value holds one [JSON.parse] accepts. *)
Definition metadataReadable (s : gmap string string) : Prop :=
  ∀ st key, ∃ m, parseMetadataOrNull (s !! metadataKey st key) = inr m.

(** A metadata key that could be read can still be read. *)
Definition metadataStaysReadable (s s' : gmap string string) : Prop :=
  ∀ st key,
    (∃ m, parseMetadataOrNull (s !! metadataKey st key) = inr m) →
    ∃ m, parseMetadataOrNull (s' !! metadataKey st key) = inr m.

(** The step of the inner loop of [getRecentPosts] and of the category
    listing, on outcomes. *)
Definition collectStep (s : gmap string string) (st : Status) (category : string)
    (posts : list Post) (slug : string) : Error + list Post :=
  match outcome (getPost (category +:+ "/" +:+ slug) st s) with
  | inl e => inl e
  | inr (Some p) => inr (posts ++ [p])
  | inr None => inr posts
  end.

(** The step of the inner loop of [searchPosts], on outcomes. *)
Definition searchStep (s : gmap string string) (query : string) (st : Status)
    (category : string) (results : list Post) (slug : string) : Error + list Post :=
  match outcome (getPost (category +:+ "/" +:+ slug) st s) with
  | inl e => inl e
  | inr (Some p) =>
      if titled p then inr (if matchesB query p then results ++ [p] else results)
      else inl TypeError
  | inr None => inr results
  end.

(** The outer loop of both, over the catalog. *)
Definition overCatalog (s : gmap string string) (language : string)
    (inner : string → list Post → string → Error + list Post)
    (acc : list Post) (category : string) : Error + list Post :=
  if Js.startsWith category (language +:+ "/") then
    match arrayOutcome (readArray s (indexKey category)) with
    | inl e => inl e
    | inr slugs => foldE (inner category) acc slugs
    end
  else inr acc.

(** The step of the loop of [GET /api/categories], on outcomes. *)
Definition infoStep (s : gmap string string) (language : string)
    (categoryInfos : list CategoryInfo) (category : string) : Error + list CategoryInfo :=
  if Js.startsWith category (language +:+ "/") then
    match arrayOutcome (readArray s (indexKey category)) with
    | inl e => inl e
    | inr slugs =>
        inr (if (length slugs =? 0)%nat then categoryInfos
             else categoryInfos ++
                  [mkInfo (Js.replace category (language +:+ "/") "") (length slugs) slugs])
    end
  else inr categoryInfos.

(** The data-model invariant: the indexes are well formed and the metadata
    slots can be read. *)
Definition wellFormed (s : gmap string string) : Prop :=
  indexesWellFormed s ∧ metadataReadable s.

(** The keys a request at visibility [st] may read: the indexes, and the two
    slots of the logical keys of at least three segments. *)
Definition requestKey (st : Status) (k : string) : Prop :=
  indexOnly k ∨ ∃ key, (3 ≤ length (Js.split "/" key))%nat ∧ slotKey st key k.


(** The payload [handleSync] hands to [storeMarkdown]: the body itself. *)
Definition payloadOf (body : SyncBody) : SyncPayload :=
  mkPayload (default "" (body_key body)) (default "" (body_content body)) (body_metadata body).

(** The body carries a key and a content, neither empty. *)
Definition complete (body : SyncBody) : bool :=
  Js.truthyOpt (body_key body) && Js.truthyOpt (body_content body).

(** The request [POST /sync] with that body. *)
Definition syncRequest (body : SyncBody) : Request := mkRequest "POST" "/sync" [] (Some body).

(** The request [GET path?lang=language&status=st]. *)
Definition getRequest (path language : string) (st : Status) : Request :=
  mkRequest "GET" path [("lang", language); ("status", statusString st)] None.

(** Every entry of the catalog is a [language/category] of two segments whose
    index holds a slug. *)
Definition catalogPopulated (s : gmap string string) : Prop :=
  ∀ categories category,
    readArray s categoriesKey = Some categories → category ∈ categories →
    length (Js.split "/" category) = 2%nat ∧
    ∃ slugs, readArray s (indexKey category) = Some slugs ∧ slugs ≠ [].

(** The request [GET /api/search?q=query&lang=language]. *)
Definition searchRequest (query language : string) : Request :=
  mkRequest "GET" "/api/search" [("q", query); ("lang", language)] None.

(** The response carries the three CORS headers. *)
Definition allowsCrossOrigin (response : Response) : Prop :=
  ∀ header, header ∈ corsHeaders → header ∈ res_headers response.

(** The request is the sync request. *)
Definition isSync (request : Request) : bool :=
  String.eqb (req_pathname request) "/sync" && String.eqb (req_method request) "POST".

End VocabularyOfQueries.

(** * Part IV: properties *)

(** ** Keys of different kinds never collide *)

Lemma string_app_inj (p a b : string) : p +:+ a = p +:+ b → a = b.
Proof. induction p as [|c p IH]; simpl; [done | intros [= E]; auto]. Qed.

Lemma contentKey_inj st k k' : contentKey st k = contentKey st k' → k = k'.
Proof. unfold contentKey. intros E. by apply string_app_inj, string_app_inj in E. Qed.

Lemma metadataKey_inj st k k' : metadataKey st k = metadataKey st k' → k = k'.
Proof.
  unfold metadataKey. intros E. by do 3 apply string_app_inj in E.
Qed.

Lemma indexKey_inj c c' : indexKey c = indexKey c' → c = c'.
Proof. unfold indexKey. apply string_app_inj. Qed.

Lemma contentKey_slot st st' k k' : contentKey st k = contentKey st' k' → st = st'.
Proof. destruct st, st'; cbv; done. Qed.

Lemma metadataKey_slot st st' k k' : metadataKey st k = metadataKey st' k' → st = st'.
Proof. destruct st, st'; cbv; done. Qed.

Lemma contentKey_not_metadataKey st st' k k' : contentKey st k ≠ metadataKey st' k'.
Proof. destruct st, st'; cbv; done. Qed.

Lemma contentKey_not_index st k : Js.startsWith (contentKey st k) "index:" = false.
Proof. destruct st; reflexivity. Qed.

Lemma metadataKey_not_index st k : Js.startsWith (metadataKey st k) "index:" = false.
Proof. destruct st; reflexivity. Qed.

Lemma indexKey_is_index c : Js.startsWith (indexKey c) "index:" = true.
Proof. reflexivity. Qed.

Lemma categoriesKey_is_index : Js.startsWith categoriesKey "index:" = true.
Proof. done. Qed.

Lemma contentKey_not_indexKey st k c : contentKey st k ≠ indexKey c.
Proof. destruct st; cbv; done. Qed.

Lemma metadataKey_not_indexKey st k c : metadataKey st k ≠ indexKey c.
Proof. destruct st; cbv; done. Qed.

Lemma hasSlash_app a b : hasSlash (a +:+ "/" +:+ b) = true.
Proof. induction a as [|c a IH]; simpl; [done | by rewrite IH, orb_true_r]. Qed.

Lemma fullCategoryKey_not_catalog a b : indexKey (a +:+ "/" +:+ b) ≠ categoriesKey.
Proof.
  intros E. apply (indexKey_inj _ "categories") in E.
  pose proof (hasSlash_app a b) as Hs. rewrite E in Hs. done.
Qed.

Section Theory.
Context {json : Json} {dates : DateParser}.

(** ** Running the monad *)

Lemma run_bind {A B} (m : KV A) (f : A → KV B) s :
  (m ≫= f) s =
  match outcome (m s) with
  | inl e => mkRun (kv (m s)) (log (m s)) (inl e)
  | inr a => mkRun (kv (f a (kv (m s)))) (log (m s) ++ log (f a (kv (m s))))
                   (outcome (f a (kv (m s))))
  end.
Proof. reflexivity. Qed.

(** ** Computations that only read *)

Lemma readsOnly_ret {A} P (a : A) : readsOnly P (mret a).
Proof. split; intros; simpl; auto. Qed.

Lemma readsOnly_throw {A} P e : readsOnly P (throw e : KV A).
Proof. split; intros; simpl; auto. Qed.

Lemma readsOnly_get (P : string → Prop) k : P k → readsOnly P (kv_get k).
Proof.
  intros Hk. split; intros; simpl; auto.
  - repeat constructor. by exists k.
  - split; [|done]. f_equal. auto.
Qed.

Lemma readsOnly_bind {A B} P (m : KV A) (f : A → KV B) :
  readsOnly P m → (∀ a, readsOnly P (f a)) → readsOnly P (m ≫= f).
Proof.
  intros Hm Hf. split.
  - intros s. rewrite run_bind. pose proof (ro_store _ _ Hm s) as Es.
    destruct (outcome (m s)) as [e|a]; simpl; [done|].
    by rewrite (ro_store _ _ (Hf a)).
  - intros s. rewrite run_bind. pose proof (ro_log _ _ Hm s) as Hl.
    destruct (outcome (m s)) as [e|a]; simpl; [done|].
    apply Forall_app. split; [done|]. apply (ro_log _ _ (Hf a)).
  - intros s s' Hag. rewrite !run_bind.
    destruct (ro_frame _ _ Hm s s' Hag) as [Eo El].
    rewrite <- Eo, <- El, !(ro_store _ _ Hm).
    destruct (outcome (m s)) as [e|a]; simpl; [done|].
    destruct (ro_frame _ _ (Hf a) s s' Hag) as [Eo' El'].
    by rewrite Eo', El'.
Qed.

Lemma readsOnly_forOf {A B} P (xs : list A) (body : B → A → KV B) :
  (∀ acc x, readsOnly P (body acc x)) → ∀ acc, readsOnly P (forOf xs acc body).
Proof.
  intros Hb. induction xs as [|x xs IH]; intros acc; simpl.
  - apply readsOnly_ret.
  - apply readsOnly_bind; auto.
Qed.

Lemma readsOnly_weaken {A} (P Q : string → Prop) (m : KV A) :
  (∀ k, P k → Q k) → readsOnly P m → readsOnly Q m.
Proof.
  intros HPQ Hm. split.
  - apply Hm.
  - intros s. eapply Forall_impl; [apply Hm|].
    intros o (k & -> & Hk). exists k. auto.
  - intros s s' Hag. apply Hm. intros k Hk. auto.
Qed.

Lemma readsOnly_parseArrayOrEmpty P raw : readsOnly P (parseArrayOrEmpty raw).
Proof.
  unfold parseArrayOrEmpty. destruct raw as [r|]; [|apply readsOnly_ret].
  destruct (Js.truthy r); [|apply readsOnly_ret].
  destruct (JSON_parse_array r); [apply readsOnly_ret | apply readsOnly_throw].
Qed.

Lemma readsOnly_getCategorySlugs c : readsOnly indexOnly (getCategorySlugs c).
Proof.
  apply readsOnly_bind; [by apply readsOnly_get | apply readsOnly_parseArrayOrEmpty].
Qed.

Lemma readsOnly_getCategories : readsOnly indexOnly getCategories.
Proof.
  apply readsOnly_bind; [by apply readsOnly_get | apply readsOnly_parseArrayOrEmpty].
Qed.

Lemma readsOnly_getCategoryInfo c : readsOnly indexOnly (getCategoryInfo c).
Proof.
  apply readsOnly_bind; [apply readsOnly_getCategorySlugs|].
  intros slugs. destruct (length slugs =? 0)%nat; apply readsOnly_ret.
Qed.

Lemma readsOnly_getMarkdown key st :
  readsOnly (λ k, k = contentKey st key) (getMarkdown key st).
Proof. by apply readsOnly_get. Qed.

Lemma readsOnly_getPostMetadata key st :
  readsOnly (λ k, k = metadataKey st key) (getPostMetadata key st).
Proof.
  apply readsOnly_bind; [by apply readsOnly_get|].
  intros [r|]; [|apply readsOnly_ret].
  destruct (Js.truthy r); [|apply readsOnly_ret].
  destruct (JSON_parse_metadata r); [apply readsOnly_ret | apply readsOnly_throw].
Qed.

Lemma readsOnly_getPost key st : readsOnly (slotKey st key) (getPost key st).
Proof.
  unfold getPost. destruct (_ <? 3)%nat; [apply readsOnly_ret|].
  apply readsOnly_bind.
  { eapply readsOnly_weaken; [|apply readsOnly_getMarkdown]. by left. }
  intros c. apply readsOnly_bind.
  { eapply readsOnly_weaken; [|apply readsOnly_getPostMetadata]. by right. }
  intros m. destruct c as [c|], m as [m|]; try apply readsOnly_ret.
  destruct (Js.truthy c); apply readsOnly_ret.
Qed.

Lemma slotKey_queryKey st key k : slotKey st key k → queryKey st k.
Proof. intros [->| ->]; [right; left | right; right]; eauto. Qed.

Lemma indexOnly_queryKey st k : indexOnly k → queryKey st k.
Proof. by left. Qed.

Lemma readsOnly_getPost_query key st : readsOnly (queryKey st) (getPost key st).
Proof. eapply readsOnly_weaken; [apply slotKey_queryKey | apply readsOnly_getPost]. Qed.

Lemma readsOnly_matchesQuery P p q : readsOnly P (matchesQuery p q).
Proof.
  unfold matchesQuery. destruct (title _); [apply readsOnly_ret | apply readsOnly_throw].
Qed.

Lemma readsOnly_searchPosts q st lang : readsOnly (queryKey st) (searchPosts q st lang).
Proof.
  apply readsOnly_bind.
  { eapply readsOnly_weaken; [apply indexOnly_queryKey | apply readsOnly_getCategories]. }
  intros cats. apply readsOnly_forOf. intros acc c.
  destruct (Js.startsWith c _); [|apply readsOnly_ret].
  apply readsOnly_bind.
  { eapply readsOnly_weaken; [apply indexOnly_queryKey | apply readsOnly_getCategorySlugs]. }
  intros slugs. apply readsOnly_forOf. intros acc' sl.
  apply readsOnly_bind; [apply readsOnly_getPost_query|].
  intros [p|]; [|apply readsOnly_ret].
  apply readsOnly_bind; [apply readsOnly_matchesQuery|].
  intros hit. apply readsOnly_ret.
Qed.

Lemma readsOnly_collectPosts st lang : readsOnly (queryKey st) (collectPosts st lang).
Proof.
  apply readsOnly_bind.
  { eapply readsOnly_weaken; [apply indexOnly_queryKey | apply readsOnly_getCategories]. }
  intros cats. apply readsOnly_forOf. intros acc c.
  destruct (Js.startsWith c _); [|apply readsOnly_ret].
  apply readsOnly_bind.
  { eapply readsOnly_weaken; [apply indexOnly_queryKey | apply readsOnly_getCategorySlugs]. }
  intros slugs. apply readsOnly_forOf. intros acc' sl.
  apply readsOnly_bind; [apply readsOnly_getPost_query|].
  intros [p|]; apply readsOnly_ret.
Qed.

Lemma readsOnly_getRecentPosts limit st lang :
  readsOnly (queryKey st) (getRecentPosts limit st lang).
Proof.
  apply readsOnly_bind; [apply readsOnly_collectPosts|]. intros. apply readsOnly_ret.
Qed.

Lemma readsOnly_listCategory lang c st : readsOnly (queryKey st) (listCategory lang c st).
Proof.
  apply readsOnly_bind.
  { eapply readsOnly_weaken; [apply indexOnly_queryKey | apply readsOnly_getCategorySlugs]. }
  intros slugs. apply readsOnly_forOf. intros acc sl.
  apply readsOnly_bind; [apply readsOnly_getPost_query|].
  intros [p|]; apply readsOnly_ret.
Qed.

Lemma readsOnly_listCategories lang : readsOnly indexOnly (listCategories lang).
Proof.
  apply readsOnly_bind; [apply readsOnly_getCategories|].
  intros cats. apply readsOnly_forOf. intros acc c.
  destruct (Js.startsWith c _); [|apply readsOnly_ret].
  apply readsOnly_bind; [apply readsOnly_getCategoryInfo|].
  intros [i|]; apply readsOnly_ret.
Qed.

(** ** The write path, step by step *)

Lemma parseArrayOrEmpty_run raw s :
  parseArrayOrEmpty raw s =
  mkRun s [] (arrayOutcome (match raw with
                            | Some r => if Js.truthy r then JSON_parse_array r else Some []
                            | None => Some []
                            end)).
Proof.
  unfold parseArrayOrEmpty. destruct raw as [r|]; [|done].
  destruct (Js.truthy r); [|done]. by destruct (JSON_parse_array r).
Qed.

Lemma getCategorySlugs_run c s :
  getCategorySlugs c s =
  mkRun s [KVGet (indexKey c)] (arrayOutcome (readArray s (indexKey c))).
Proof.
  unfold getCategorySlugs. rewrite run_bind. simpl.
  rewrite parseArrayOrEmpty_run. simpl. unfold readArray.
  by destruct (arrayOutcome _).
Qed.

Lemma getCategories_run s :
  getCategories s = mkRun s [KVGet categoriesKey] (arrayOutcome (readArray s categoriesKey)).
Proof. apply (getCategorySlugs_run "categories"). Qed.

Lemma readArray_insert_eq s k l :
  readArray (<[k := JSON_stringify_array l]> s) k = Some l.
Proof.
  unfold readArray. rewrite lookup_insert_eq.
  by rewrite JSON_stringify_array_truthy, JSON_parse_stringify_array.
Qed.

Lemma readArray_insert_ne s k k' v : k ≠ k' → readArray (<[k := v]> s) k' = readArray s k'.
Proof. intros. unfold readArray. by rewrite lookup_insert_ne. Qed.

Lemma updateCategoryIndex_eq c sl : updateCategoryIndex c sl = appendIfAbsent (indexKey c) sl.
Proof. reflexivity. Qed.

Lemma updateCategoriesList_eq c : updateCategoriesList c = appendIfAbsent categoriesKey c.
Proof. reflexivity. Qed.

Lemma appendIfAbsent_run k x s :
  appendIfAbsent k x s =
  match readArray s k with
  | None => mkRun s [KVGet k] (inl SyntaxError)
  | Some l =>
      if arrayIncludes l x then mkRun s [KVGet k] (inr tt)
      else mkRun (<[k := JSON_stringify_array (l ++ [x])]> s)
                 [KVGet k; KVPut k (JSON_stringify_array (l ++ [x]))] (inr tt)
  end.
Proof.
  unfold appendIfAbsent. rewrite run_bind. simpl. rewrite run_bind.
  rewrite parseArrayOrEmpty_run. simpl. fold (readArray s k).
  destruct (readArray s k) as [l|]; simpl; [|done].
  by destruct (arrayIncludes l x).
Qed.

Lemma storeMarkdown_run payload st s :
  storeMarkdown payload st s =
  match resolveMetadata payload with
  | None => mkRun s [] (inl InvalidMarkdown)
  | Some m =>
      let s1 := afterSlotWrites payload st m s in
      if indexed payload st then
        let r := (updateCategoryIndex (fullCategoryKey payload) (slugOf payload);;
                  updateCategoriesList (fullCategoryKey payload)) s1 in
        mkRun (kv r) (slotWrites payload st m ++ log r) (outcome r)
      else mkRun s1 (slotWrites payload st m) (inr tt)
  end.
Proof.
  unfold storeMarkdown, indexed. rewrite run_bind.
  destruct (resolveMetadata payload) as [m|]; simpl; [|done].
  rewrite run_bind. simpl. rewrite run_bind. simpl.
  destruct (_ || _); simpl; [done|].
  unfold fullCategoryKey, slugOf, afterSlotWrites, slotWrites.
  by destruct (outcome _).
Qed.

(** ** Relating the store before and after a computation *)

Section Moves.
Context (R : relation (gmap string string)) `{!Reflexive R} `{!Transitive R}.

Lemma moves_bind {A B} (m : KV A) (f : A → KV B) :
  moves R m → (∀ a, moves R (f a)) → moves R (m ≫= f).
Proof.
  intros Hm Hf s. rewrite run_bind.
  destruct (outcome (m s)) as [e|a]; simpl; [apply Hm|].
  etransitivity; [apply Hm | apply Hf].
Qed.

Lemma moves_appendIfAbsent k x :
  (∀ s l, readArray s k = Some l → arrayIncludes l x = false →
          R s (<[k := JSON_stringify_array (l ++ [x])]> s)) →
  moves R (appendIfAbsent k x).
Proof.
  intros Hput s. rewrite appendIfAbsent_run.
  destruct (readArray s k) as [l|] eqn:El; simpl; [|reflexivity].
  destruct (arrayIncludes l x) eqn:Ei; simpl; [reflexivity | by apply Hput].
Qed.

Lemma moves_storeMarkdown payload st :
  (∀ s m, R s (afterSlotWrites payload st m s)) →
  (∀ k x s l, readArray s k = Some l → arrayIncludes l x = false →
     k = indexKey (fullCategoryKey payload) ∧ x = slugOf payload ∨
     k = categoriesKey ∧ x = fullCategoryKey payload →
     indexed payload st = true →
     R s (<[k := JSON_stringify_array (l ++ [x])]> s)) →
  moves R (storeMarkdown payload st).
Proof.
  intros Hslots Hidx s. rewrite storeMarkdown_run.
  destruct (resolveMetadata payload) as [m|]; simpl; [|reflexivity].
  destruct (indexed payload st) eqn:Ei; simpl; [|apply Hslots].
  etransitivity; [apply (Hslots s m)|].
  apply moves_bind.
  - rewrite updateCategoryIndex_eq. apply moves_appendIfAbsent. intros; eapply Hidx; eauto.
  - intros _. rewrite updateCategoriesList_eq. apply moves_appendIfAbsent.
    intros; eapply Hidx; eauto.
Qed.

End Moves.

Global Instance sameOutside_refl P : Reflexive (sameOutside P).
Proof. by intros s k _. Qed.

Global Instance sameOutside_trans P : Transitive (sameOutside P).
Proof. intros s1 s2 s3 H12 H23 k Hk. by rewrite H23, H12. Qed.

Lemma sameOutside_insert (P : string → Prop) k v s : P k → sameOutside P s (<[k := v]> s).
Proof. intros Hk k' Hk'. rewrite lookup_insert_ne; [done|]. by intros ->. Qed.

Global Instance indexesGrow_refl : Reflexive indexesGrow.
Proof. intros s k l _ El. exists l. done. Qed.

Global Instance indexesGrow_trans : Transitive indexesGrow.
Proof.
  intros s1 s2 s3 H12 H23 k l Hk El.
  destruct (H12 k l Hk El) as (l2 & E2 & P2 & N2).
  destruct (H23 k l2 Hk E2) as (l3 & E3 & P3 & N3).
  exists l3. split_and!; [done | by etransitivity | auto].
Qed.

Lemma arrayIncludes_false (l : list string) x : arrayIncludes l x = false → x ∉ l.
Proof. unfold arrayIncludes. by intros ?%bool_decide_eq_false. Qed.

Lemma arrayIncludes_true (l : list string) x : arrayIncludes l x = true → x ∈ l.
Proof. unfold arrayIncludes. by intros ?%bool_decide_eq_true. Qed.

Lemma indexesGrow_append s k l x :
  readArray s k = Some l → arrayIncludes l x = false →
  indexesGrow s (<[k := JSON_stringify_array (l ++ [x])]> s).
Proof.
  intros El Hx k' l' Hk' El'. destruct (decide (k = k')) as [<-|Hne].
  - rewrite readArray_insert_eq. exists (l ++ [x]).
    assert (l' = l) as -> by congruence.
    split_and!; [done | by apply prefix_app_r |].
    intros Hnd. apply NoDup_app. split_and!; [done | | apply NoDup_singleton].
    intros y Hy ->%list_elem_of_singleton. by apply arrayIncludes_false in Hx.
  - rewrite readArray_insert_ne by done. exists l'. done.
Qed.

Lemma indexesGrow_insert_other s k v : ¬ indexOnly k → indexesGrow s (<[k := v]> s).
Proof.
  intros Hk k' l Hk' El. exists l. rewrite readArray_insert_ne; [done|]. by intros ->.
Qed.

Lemma not_indexOnly_contentKey st key : ¬ indexOnly (contentKey st key).
Proof. unfold indexOnly. by rewrite contentKey_not_index. Qed.

Lemma not_indexOnly_metadataKey st key : ¬ indexOnly (metadataKey st key).
Proof. unfold indexOnly. by rewrite metadataKey_not_index. Qed.

Lemma storeMarkdown_grows payload st : moves indexesGrow (storeMarkdown payload st).
Proof.
  apply moves_storeMarkdown; try apply _.
  - intros s m. unfold afterSlotWrites. etransitivity.
    + apply indexesGrow_insert_other, not_indexOnly_contentKey.
    + apply indexesGrow_insert_other, not_indexOnly_metadataKey.
  - intros k x s l El Hx _ _. by apply indexesGrow_append.
Qed.

Lemma storeMarkdown_frame payload st :
  moves (sameOutside (writeKey payload st)) (storeMarkdown payload st).
Proof.
  apply moves_storeMarkdown; try apply _.
  - intros s m. unfold afterSlotWrites. etransitivity.
    + apply sameOutside_insert. by left.
    + apply sameOutside_insert. right. by left.
  - intros k x s l _ _ Hk Hi. apply sameOutside_insert. right. right.
    split; [done|]. destruct Hk as [[-> _]|[-> _]]; auto.
Qed.

(** ** Point lookups *)

Lemma getMarkdown_run key st s :
  getMarkdown key st s = mkRun s [KVGet (contentKey st key)] (inr (s !! contentKey st key)).
Proof. reflexivity. Qed.

Lemma getPostMetadata_run key st s :
  getPostMetadata key st s =
  mkRun s [KVGet (metadataKey st key)] (parseMetadataOrNull (s !! metadataKey st key)).
Proof.
  unfold getPostMetadata. rewrite run_bind. simpl.
  destruct (s !! metadataKey st key) as [r|]; simpl; [|done].
  destruct (Js.truthy r); simpl; [|done].
  by destruct (JSON_parse_metadata r).
Qed.

Lemma getPost_outcome key st s :
  outcome (getPost key st s) =
  if (length (Js.split "/" key) <? 3)%nat then inr None
  else match parseMetadataOrNull (s !! metadataKey st key) with
       | inl e => inl e
       | inr m => inr (postView (Js.split "/" key) (s !! contentKey st key) m)
       end.
Proof.
  unfold getPost. destruct (_ <? 3)%nat; [done|].
  rewrite run_bind, getMarkdown_run. simpl.
  rewrite run_bind, getPostMetadata_run. simpl.
  destruct (parseMetadataOrNull _) as [e|m]; simpl; [done|].
  unfold postView. destruct (s !! contentKey st key) as [c|], m as [m|]; try done.
  by destruct (Js.truthy c).
Qed.

Lemma truthy_false s : Js.truthy s = false ↔ s = "".
Proof. by destruct s. Qed.

Lemma truthy_true s : Js.truthy s = true ↔ s ≠ "".
Proof. by destruct s. Qed.

Lemma split_nonempty sep s : Js.split sep s ≠ [].
Proof.
  destruct s as [|c s]; simpl; [done|].
  destruct (Ascii.eqb c sep); [done|]. by destruct (Js.split sep s).
Qed.

Lemma part_last (l : list string) : l ≠ [] → last l = Some (part l (length l - 1)).
Proof.
  intros Hl. unfold part. rewrite last_lookup.
  replace (pred (length l)) with (length l - 1)%nat by lia.
  destruct (l !! (length l - 1)%nat) eqn:E; [done|].
  apply lookup_ge_None in E. destruct l; simpl in *; [done | lia].
Qed.

Lemma postView_None pathParts c m :
  postView pathParts c m = None ↔ c = None ∨ c = Some "" ∨ m = None.
Proof.
  unfold postView. destruct c as [[|a c]|], m as [m|]; simpl; intuition congruence.
Qed.

(** Claim C7, as amended. [getPost] answers "not found" for a key of fewer
    than three segments whatever the store holds; for a longer key it throws
    when the stored metadata does not parse, answers "not found" exactly when
    the content is absent or empty or the metadata is absent, empty or a falsy
    JSON value, and otherwise returns the stored content and metadata with the
    last segment of the key as slug. *)
Theorem getPost_contract key st s :
  let pathParts := Js.split "/" key in
  ((length pathParts < 3)%nat → outcome (getPost key st s) = inr None) ∧
  ((3 ≤ length pathParts)%nat →
     match outcome (getPostMetadata key st s) with
     | inl e => outcome (getPost key st s) = inl e
     | inr m =>
         (outcome (getPost key st s) = inr None ↔
            s !! contentKey st key = None ∨ s !! contentKey st key = Some "" ∨ m = None) ∧
         (∀ c m', s !! contentKey st key = Some c → c ≠ "" → m = Some m' →
            ∃ post, outcome (getPost key st s) = inr (Some post) ∧
                    content post = c ∧ metadata post = m' ∧ last pathParts = Some (slug post))
     end) ∧
  (outcome (getPostMetadata key st s) = inr None ↔
     s !! metadataKey st key = None ∨ s !! metadataKey st key = Some "" ∨
     ∃ raw, s !! metadataKey st key = Some raw ∧ JSON_parse_metadata raw = Some None).
Proof.
  intros pathParts. rewrite getPost_outcome, getPostMetadata_run. fold pathParts. simpl.
  split_and!.
  - intros Hlt. by apply Nat.ltb_lt in Hlt as ->.
  - intros Hge. apply Nat.ltb_ge in Hge as ->.
    destruct (parseMetadataOrNull _) as [e|m]; [done|]. split.
    + rewrite <- postView_None. split; [by intros [= ->] | by intros ->].
    + intros c m' Ec Hc ->. rewrite Ec. unfold postView.
      apply truthy_true in Hc as ->. eexists. split; [reflexivity|]. simpl.
      split_and!; [done | done |]. apply part_last, split_nonempty.
  - unfold parseMetadataOrNull.
    destruct (s !! metadataKey st key) as [r|]; [|by split; auto].
    destruct (Js.truthy r) eqn:Et.
    + apply truthy_true in Et.
      destruct (JSON_parse_metadata r) as [[m|]|] eqn:Ep.
      * split; [done|]. intros [?|[[= ?]|(raw & [= <-] & ?)]]; congruence.
      * split; [|done]. intros _. right. right. by exists r.
      * split; [done|]. intros [?|[[= ?]|(raw & [= <-] & ?)]]; congruence.
    + apply truthy_false in Et as ->. split; auto.
Qed.

(** ** What a write leaves behind *)

Lemma indexed_spec payload st :
  indexed payload st = true ↔
  st = Published ∧ (3 ≤ length (Js.split "/" (payload_key payload)))%nat.
Proof.
  unfold indexed. rewrite negb_true_iff, orb_false_iff, negb_false_iff.
  rewrite Nat.ltb_ge, bool_decide_eq_true. tauto.
Qed.

Lemma indexed_false payload st :
  indexed payload st = false ↔
  st = Draft ∨ (length (Js.split "/" (payload_key payload)) < 3)%nat.
Proof.
  rewrite <- not_true_iff_false, indexed_spec. split.
  - intros Hn. destruct st; [by left|]. right. apply Nat.nle_gt. intros ?. by apply Hn.
  - intros [->|Hlt] [Hst Hge]; [done | lia].
Qed.

Lemma slotWrites_no_index payload st m : touchesIndex (slotWrites payload st m) = false.
Proof.
  unfold touchesIndex, slotWrites. cbn [existsb opKey].
  by rewrite contentKey_not_index, metadataKey_not_index.
Qed.

Lemma touchesIndex_app l1 l2 : touchesIndex (l1 ++ l2) = touchesIndex l1 || touchesIndex l2.
Proof. apply existsb_app. Qed.

Lemma appendIfAbsent_log k x s : ∃ ops, log (appendIfAbsent k x s) = KVGet k :: ops.
Proof.
  rewrite appendIfAbsent_run. destruct (readArray s k) as [l|]; [|by eexists].
  destruct (arrayIncludes l x); by eexists.
Qed.

Lemma indexUpdates_log c x s :
  ∃ ops, log ((updateCategoryIndex c x;; updateCategoriesList c) s) = KVGet (indexKey c) :: ops.
Proof.
  rewrite run_bind, updateCategoryIndex_eq.
  destruct (appendIfAbsent_log (indexKey c) x s) as [ops ->].
  destruct (outcome _); simpl; by eexists.
Qed.

Lemma indexUpdates_frame c x :
  moves (sameOutside indexOnly) (updateCategoryIndex c x;; updateCategoriesList c).
Proof.
  apply moves_bind; try apply _.
  - rewrite updateCategoryIndex_eq. apply moves_appendIfAbsent; try apply _.
    intros. by apply sameOutside_insert.
  - intros _. rewrite updateCategoriesList_eq. apply moves_appendIfAbsent; try apply _.
    intros. by apply sameOutside_insert.
Qed.

Lemma afterSlotWrites_content payload st m s :
  afterSlotWrites payload st m s !! contentKey st (payload_key payload) =
  Some (payload_content payload).
Proof.
  unfold afterSlotWrites.
  rewrite lookup_insert_ne by (intros E; symmetry in E; by apply contentKey_not_metadataKey in E).
  apply lookup_insert_eq.
Qed.

Lemma afterSlotWrites_metadata payload st m s :
  afterSlotWrites payload st m s !! metadataKey st (payload_key payload) =
  Some (JSON_stringify_metadata m).
Proof. unfold afterSlotWrites. apply lookup_insert_eq. Qed.

Lemma afterSlotWrites_index payload st m s k :
  indexOnly k → afterSlotWrites payload st m s !! k = s !! k.
Proof.
  intros Hk. unfold afterSlotWrites.
  rewrite !lookup_insert_ne; [done | |]; intros <-.
  - by apply not_indexOnly_contentKey in Hk.
  - by apply not_indexOnly_metadataKey in Hk.
Qed.

Lemma appendIfAbsent_ok k x s l :
  readArray s k = Some l →
  outcome (appendIfAbsent k x s) = inr tt ∧
  readArray (kv (appendIfAbsent k x s)) k = Some (appended l x) ∧
  ∀ k', k' ≠ k → kv (appendIfAbsent k x s) !! k' = s !! k'.
Proof.
  intros El. rewrite appendIfAbsent_run, El. unfold appended.
  destruct (arrayIncludes l x); cbn [kv outcome].
  - done.
  - rewrite readArray_insert_eq. split_and!; [done | done |].
    intros k' Hk'. by rewrite lookup_insert_ne.
Qed.

Lemma readArray_ext s s' k : s' !! k = s !! k → readArray s' k = readArray s k.
Proof. unfold readArray. by intros ->. Qed.

Lemma indexUpdates_ok c x s slugs categories :
  indexKey c ≠ categoriesKey →
  readArray s (indexKey c) = Some slugs →
  readArray s categoriesKey = Some categories →
  let r := (updateCategoryIndex c x;; updateCategoriesList c) s in
  outcome r = inr tt ∧
  readArray (kv r) (indexKey c) = Some (appended slugs x) ∧
  readArray (kv r) categoriesKey = Some (appended categories c).
Proof.
  intros Hne Es Ec r. subst r.
  rewrite run_bind, updateCategoryIndex_eq, updateCategoriesList_eq.
  destruct (appendIfAbsent_ok (indexKey c) x s slugs Es) as (-> & Es' & Hfr).
  set (s1 := kv (appendIfAbsent (indexKey c) x s)) in *.
  assert (Ec' : readArray s1 categoriesKey = Some categories).
  { rewrite <- Ec. apply readArray_ext, Hfr. done. }
  destruct (appendIfAbsent_ok categoriesKey c s1 categories Ec') as (Eo & Ec'' & Hfr').
  cbn [kv outcome]. split_and!; [done | | done].
  rewrite <- Es'. apply readArray_ext, Hfr'. done.
Qed.

(** After a write that resolved its metadata, both slots hold what was
    written, whatever happened to the indexes afterwards. *)
Lemma storeMarkdown_slots payload st s m :
  resolveMetadata payload = Some m →
  kv (storeMarkdown payload st s) !! contentKey st (payload_key payload) =
    Some (payload_content payload) ∧
  kv (storeMarkdown payload st s) !! metadataKey st (payload_key payload) =
    Some (JSON_stringify_metadata m).
Proof.
  intros Em. rewrite storeMarkdown_run, Em. cbv zeta.
  destruct (indexed payload st); simpl.
  - rewrite !(indexUpdates_frame _ _ (afterSlotWrites payload st m s)).
    + by rewrite afterSlotWrites_content, afterSlotWrites_metadata.
    + apply not_indexOnly_metadataKey.
    + apply not_indexOnly_contentKey.
  - by rewrite afterSlotWrites_content, afterSlotWrites_metadata.
Qed.

Lemma parseMetadataOrNull_stringify m :
  parseMetadataOrNull (Some (JSON_stringify_metadata m)) = inr (Some m).
Proof.
  unfold parseMetadataOrNull.
  by rewrite JSON_stringify_metadata_truthy, JSON_parse_stringify_metadata.
Qed.

(** Claim C1, as amended (the content is not empty). For a key of three
    segments (or more), either visibility and any store: once [storeMarkdown]
    has run on a payload whose metadata resolves and whose content is not the
    empty string, [getPost] at the same key and visibility returns a post with
    exactly that content and that metadata, and the key's last segment as
    slug. *)
Theorem round_trip payload st s m :
  (3 ≤ length (Js.split "/" (payload_key payload)))%nat →
  resolveMetadata payload = Some m →
  payload_content payload ≠ "" →
  ∃ post,
    outcome (getPost (payload_key payload) st (kv (storeMarkdown payload st s))) =
      inr (Some post) ∧
    content post = payload_content payload ∧
    metadata post = m ∧
    last (Js.split "/" (payload_key payload)) = Some (slug post).
Proof.
  intros Hlen Em Hc.
  destruct (storeMarkdown_slots payload st s m Em) as [Ec Emeta].
  rewrite getPost_outcome, Ec, Emeta, parseMetadataOrNull_stringify.
  apply Nat.ltb_ge in Hlen as ->. unfold postView.
  apply truthy_true in Hc as ->.
  eexists. split; [reflexivity|]. simpl.
  split_and!; [done | done |]. apply part_last, split_nonempty.
Qed.

(** Claim C3, as amended (at least three segments, not exactly three). With
    metadata resolved, [storeMarkdown] reads an [index:] key exactly when the
    visibility is published and the key has at least three segments. When it
    does not, its log is the two slot writes and every [index:] key keeps its
    value. When it does and both indexes can be read, it succeeds and leaves
    the category index of the first two segments and the catalog as
    append-if-absent of the third segment and of the category key. *)
Theorem index_update_condition payload st s m :
  resolveMetadata payload = Some m →
  let r := storeMarkdown payload st s in
  let pathParts := Js.split "/" (payload_key payload) in
  (touchesIndex (log r) = true ↔ st = Published ∧ (3 ≤ length pathParts)%nat) ∧
  (touchesIndex (log r) = false →
     log r = slotWrites payload st m ∧ outcome r = inr tt ∧
     ∀ k, indexOnly k → kv r !! k = s !! k) ∧
  (st = Published → (3 ≤ length pathParts)%nat →
     ∀ slugs categories,
       outcome (getCategorySlugs (fullCategoryKey payload) s) = inr slugs →
       outcome (getCategories s) = inr categories →
       outcome r = inr tt ∧
       outcome (getCategorySlugs (fullCategoryKey payload) (kv r)) =
         inr (if arrayIncludes slugs (slugOf payload) then slugs
              else slugs ++ [slugOf payload]) ∧
       outcome (getCategories (kv r)) =
         inr (if arrayIncludes categories (fullCategoryKey payload) then categories
              else categories ++ [fullCategoryKey payload])).
Proof.
  intros Em r pathParts.
  assert (Hlog : touchesIndex (log r) = indexed payload st).
  { subst r. rewrite storeMarkdown_run, Em. cbv zeta.
    destruct (indexed payload st); cbn [log].
    - destruct (indexUpdates_log (fullCategoryKey payload) (slugOf payload)
                  (afterSlotWrites payload st m s)) as [ops ->].
      by rewrite touchesIndex_app, slotWrites_no_index.
    - apply slotWrites_no_index. }
  split_and!.
  - rewrite Hlog. apply indexed_spec.
  - rewrite Hlog. intros Hi. subst r. rewrite storeMarkdown_run, Em. cbv zeta.
    rewrite Hi. simpl. split_and!; [done | done |].
    intros k Hk. by apply afterSlotWrites_index.
  - intros Hst Hlen slugs categories.
    rewrite !getCategorySlugs_run, !getCategories_run. cbn [outcome].
    assert (Hi : indexed payload st = true) by by apply indexed_spec.
    subst r. rewrite storeMarkdown_run, Em. cbv zeta. rewrite Hi.
    set (s1 := afterSlotWrites payload st m s).
    assert (E1 : ∀ k, indexOnly k → readArray s1 k = readArray s k).
    { intros k Hk. apply readArray_ext. by apply afterSlotWrites_index. }
    intros Es Ec. cbn [kv outcome].
    destruct (indexUpdates_ok (fullCategoryKey payload) (slugOf payload) s1 slugs categories)
      as (-> & -> & ->).
    + apply fullCategoryKey_not_catalog.
    + rewrite E1 by done. by destruct (readArray s (indexKey _)); simplify_eq/=.
    + rewrite E1 by done. by destruct (readArray s categoriesKey); simplify_eq/=.
    + done.
Qed.

(** Claim C10, as amended ([getPost] answers "not found"). A write at a key
    of fewer than three segments, at either visibility, succeeds, reads and
    writes no [index:] key, leaves every one of them as it was, and stores the
    content and the metadata. In every store that holds them at that key and
    visibility, the raw-content lookup returns the content and the
    metadata-only lookup the metadata, while [getPost] answers "not found". *)
Theorem short_key_lookup payload st s m :
  (length (Js.split "/" (payload_key payload)) < 3)%nat →
  resolveMetadata payload = Some m →
  let r := storeMarkdown payload st s in
  let key := payload_key payload in
  (outcome r = inr tt ∧ touchesIndex (log r) = false ∧
   (∀ k, indexOnly k → kv r !! k = s !! k)) ∧
  (kv r !! contentKey st key = Some (payload_content payload) ∧
   kv r !! metadataKey st key = Some (JSON_stringify_metadata m)) ∧
  (∀ s' : gmap string string,
     s' !! contentKey st key = Some (payload_content payload) →
     s' !! metadataKey st key = Some (JSON_stringify_metadata m) →
     outcome (getMarkdown key st s') = inr (Some (payload_content payload)) ∧
     outcome (getPostMetadata key st s') = inr (Some m) ∧
     outcome (getPost key st s') = inr None).
Proof.
  intros Hlen Em r key. subst key.
  assert (Hi : indexed payload st = false) by (apply indexed_false; auto).
  assert (Er : r = mkRun (afterSlotWrites payload st m s) (slotWrites payload st m) (inr tt)).
  { subst r. by rewrite storeMarkdown_run, Em, Hi. }
  split; [|split].
  - rewrite Er. cbn [kv log outcome]. split_and!; [done | apply slotWrites_no_index |].
    intros k Hk. by apply afterSlotWrites_index.
  - by apply storeMarkdown_slots.
  - intros s' Ec Emeta. split_and!.
    + by rewrite getMarkdown_run, Ec.
    + by rewrite getPostMetadata_run, Emeta, parseMetadataOrNull_stringify.
    + rewrite getPost_outcome. by apply Nat.ltb_lt in Hlen as ->.
Qed.
(** ** The validation gate *)







(** ** Draft isolation *)

Lemma agree_of_frame (P Q : string → Prop) s s' :
  sameOutside Q s s' → (∀ k, P k → ¬ Q k) → agree P s s'.
Proof. intros Hfr Hd k Hk. symmetry. apply Hfr. auto. Qed.

Lemma writeKey_other_slot payload st st' key k :
  st ≠ st' → slotKey st' key k → ¬ writeKey payload st k.
Proof.
  intros Hne [->| ->] [E|[E|[_ [E|E]]]].
  - by apply contentKey_slot in E.
  - by apply contentKey_not_metadataKey in E.
  - by apply contentKey_not_indexKey in E.
  - by apply (contentKey_not_indexKey _ _ "categories") in E.
  - symmetry in E. by apply contentKey_not_metadataKey in E.
  - by apply metadataKey_slot in E.
  - by apply metadataKey_not_indexKey in E.
  - by apply (metadataKey_not_indexKey _ _ "categories") in E.
Qed.

Lemma writeKey_unindexed payload st st' k :
  st ≠ st' → indexed payload st = false → queryKey st' k → ¬ writeKey payload st k.
Proof.
  intros Hne Hi [Hk|[[key ->]|[key ->]]].
  - intros [->|[->|[? _]]]; [| |congruence].
    + by apply not_indexOnly_contentKey in Hk.
    + by apply not_indexOnly_metadataKey in Hk.
  - apply (writeKey_other_slot _ _ st' key); [done | by left].
  - apply (writeKey_other_slot _ _ st' key); [done | by right].
Qed.



Lemma agree_weaken (P Q : string → Prop) s s' :
  (∀ k, P k → Q k) → agree Q s s' → agree P s s'.
Proof. intros HPQ Hag k Hk. auto. Qed.

Lemma indexed_draft payload : indexed payload Draft = false.
Proof. apply indexed_false. by left. Qed.

Lemma frame_outcome {A} P (m : KV A) s s' :
  readsOnly P m → agree P s' s → outcome (m s') = outcome (m s).
Proof. intros Hm Hag. by destruct (ro_frame _ _ Hm s' s Hag). Qed.


Lemma agree_sym P s s' : agree P s s' → agree P s' s.
Proof. intros Hag k Hk. symmetry. auto. Qed.


(** ** The operations of the system and the states it can reach *)

(** Every operation but the write leaves the store as it is. *)
Lemma execute_query op s :
  (∀ payload st, op ≠ StoreMarkdown payload st) → execute op s = s.
Proof.
  intros Hop.
  destruct op as [payload st|key st|key st|key st|c| |c|q st l|lim st l|l c st|l];
    cbn [execute].
  - by destruct (Hop payload st).
  - apply (ro_store _ _ (readsOnly_getMarkdown key st)).
  - apply (ro_store _ _ (readsOnly_getPostMetadata key st)).
  - apply (ro_store _ _ (readsOnly_getPost key st)).
  - apply (ro_store _ _ (readsOnly_getCategorySlugs c)).
  - apply (ro_store _ _ readsOnly_getCategories).
  - apply (ro_store _ _ (readsOnly_getCategoryInfo c)).
  - apply (ro_store _ _ (readsOnly_searchPosts q st l)).
  - apply (ro_store _ _ (readsOnly_getRecentPosts lim st l)).
  - apply (ro_store _ _ (readsOnly_listCategory l c st)).
  - apply (ro_store _ _ (readsOnly_listCategories l)).
Qed.

Lemma execute_grows op s : indexesGrow s (execute op s).
Proof.
  destruct op as [payload st| | | | | | | | | |];
    [apply storeMarkdown_grows | rewrite execute_query by done; reflexivity ..].
Qed.

Lemma executeAll_grows ops : ∀ s, indexesGrow s (executeAll ops s).
Proof.
  induction ops as [|op ops IH]; intros s; simpl; [reflexivity|].
  etransitivity; [apply execute_grows | apply IH].
Qed.

Lemma arrayOutcome_inr o l : arrayOutcome o = inr l ↔ o = Some l.
Proof. destruct o; simpl; split; congruence. Qed.

Lemma getCategorySlugs_outcome c s l :
  outcome (getCategorySlugs c s) = inr l ↔ readArray s (indexKey c) = Some l.
Proof. rewrite getCategorySlugs_run. apply arrayOutcome_inr. Qed.

Lemma getCategories_outcome s l :
  outcome (getCategories s) = inr l ↔ readArray s categoriesKey = Some l.
Proof. rewrite getCategories_run. apply arrayOutcome_inr. Qed.

(** Claim C6. Whatever sequence of operations runs (writes at either
    visibility, failing or not, and all the queries), every category index
    that could be read before can be read after and holds the sequence it
    held as a prefix, and so does the catalog: no slug and no category is
    ever removed or moved. *)
Theorem append_only ops s :
  (∀ category slugs,
     outcome (getCategorySlugs category s) = inr slugs →
     ∃ slugs', outcome (getCategorySlugs category (executeAll ops s)) = inr slugs' ∧
               slugs `prefix_of` slugs') ∧
  (∀ categories,
     outcome (getCategories s) = inr categories →
     ∃ categories', outcome (getCategories (executeAll ops s)) = inr categories' ∧
                    categories `prefix_of` categories').
Proof.
  pose proof (executeAll_grows ops s) as Hg. split.
  - intros category slugs Hs%getCategorySlugs_outcome.
    destruct (Hg _ _ (indexKey_is_index category) Hs) as (l' & E & Hp & _).
    exists l'. by rewrite getCategorySlugs_outcome.
  - intros categories Hs%getCategories_outcome.
    destruct (Hg _ _ categoriesKey_is_index Hs) as (l' & E & Hp & _).
    exists l'. by rewrite getCategories_outcome.
Qed.

(** ** Index idempotence *)

Lemma indexesWellFormed_empty : indexesWellFormed ∅.
Proof.
  intros k _. exists []. unfold readArray. rewrite lookup_empty. split; [done|constructor].
Qed.

Lemma indexesWellFormed_grow s s' :
  indexesGrow s s' → indexesWellFormed s → indexesWellFormed s'.
Proof.
  intros Hg Hwf k Hk. destruct (Hwf k Hk) as (l & El & Hnd).
  destruct (Hg k l Hk El) as (l' & El' & _ & Hnd'). exists l'. auto.
Qed.

Lemma reachable_wellFormed s : reachable s → indexesWellFormed s.
Proof.
  intros [ops ->]. eapply indexesWellFormed_grow; [apply executeAll_grows|].
  apply indexesWellFormed_empty.
Qed.

Lemma occurrences_not_in x l : x ∉ l → occurrences x l = 0%nat.
Proof.
  unfold occurrences. induction l as [|y l IH]; [done|].
  intros [Hne Hin]%not_elem_of_cons.
  rewrite filter_cons_False by congruence. auto.
Qed.

Lemma occurrences_NoDup x l : NoDup l → x ∈ l → occurrences x l = 1%nat.
Proof.
  unfold occurrences. induction 1 as [|y l Hy Hnd IH]; intros Hin.
  - by apply elem_of_nil in Hin.
  - destruct (decide (y = x)) as [->|Hne].
    + rewrite filter_cons_True by done. simpl. f_equal. by apply occurrences_not_in.
    + rewrite filter_cons_False by done. apply IH.
      apply elem_of_cons in Hin as [->|]; done.
Qed.

Lemma appended_includes l x : arrayIncludes (appended l x) x = true.
Proof.
  unfold appended. destruct (arrayIncludes l x) eqn:E; [done|].
  apply bool_decide_eq_true, elem_of_app. right. by apply list_elem_of_singleton.
Qed.

Lemma appended_NoDup l x : NoDup l → NoDup (appended l x).
Proof.
  intros Hnd. unfold appended. destruct (arrayIncludes l x) eqn:E; [done|].
  apply NoDup_app. split_and!; [done | | apply NoDup_singleton].
  intros y Hy ->%list_elem_of_singleton. by apply arrayIncludes_false in E.
Qed.

Lemma appendIfAbsent_present k x s l :
  readArray s k = Some l → arrayIncludes l x = true →
  appendIfAbsent k x s = mkRun s [KVGet k] (inr tt).
Proof. intros El Hx. by rewrite appendIfAbsent_run, El, Hx. Qed.

Lemma appendIfAbsent_broken k x s :
  readArray s k = None → appendIfAbsent k x s = mkRun s [KVGet k] (inl SyntaxError).
Proof. intros El. by rewrite appendIfAbsent_run, El. Qed.

(** Running the two index updates a second time changes nothing and ends
    the same way, whether the first run succeeded or threw. *)
Lemma indexUpdates_again c x s :
  indexKey c ≠ categoriesKey →
  let r := (updateCategoryIndex c x;; updateCategoriesList c) s in
  let r' := (updateCategoryIndex c x;; updateCategoriesList c) (kv r) in
  kv r' = kv r ∧ outcome r' = outcome r.
Proof.
  intros Hne r r'. subst r r'.
  rewrite !run_bind, !updateCategoryIndex_eq, !updateCategoriesList_eq.
  destruct (readArray s (indexKey c)) as [l|] eqn:El.
  - destruct (appendIfAbsent_ok (indexKey c) x s l El) as (Eo & El' & Hfr).
    rewrite Eo. cbn [kv outcome].
    set (sA := kv (appendIfAbsent (indexKey c) x s)) in *.
    destruct (readArray sA categoriesKey) as [cs|] eqn:Ecs.
    + destruct (appendIfAbsent_ok categoriesKey c sA cs Ecs) as (Eo' & Ecs' & Hfr').
      set (sB := kv (appendIfAbsent categoriesKey c sA)) in *.
      assert (El'' : readArray sB (indexKey c) = Some (appended l x)).
      { rewrite <- El'. apply readArray_ext, Hfr'. done. }
      rewrite (appendIfAbsent_present (indexKey c) x sB _ El'' (appended_includes l x)).
      cbn [kv outcome].
      rewrite (appendIfAbsent_present categoriesKey c sB _ Ecs' (appended_includes cs c)).
      by rewrite Eo'.
    + rewrite (appendIfAbsent_broken categoriesKey c sA Ecs). cbn [kv outcome].
      rewrite (appendIfAbsent_present (indexKey c) x sA _ El' (appended_includes l x)).
      cbn [kv outcome]. by rewrite (appendIfAbsent_broken categoriesKey c sA Ecs).
  - rewrite (appendIfAbsent_broken (indexKey c) x s El). cbn [kv outcome].
    by rewrite (appendIfAbsent_broken (indexKey c) x s El).
Qed.

Lemma afterSlotWrites_id payload st m s :
  s !! contentKey st (payload_key payload) = Some (payload_content payload) →
  s !! metadataKey st (payload_key payload) = Some (JSON_stringify_metadata m) →
  afterSlotWrites payload st m s = s.
Proof.
  intros Ec Em. unfold afterSlotWrites. rewrite (insert_id s _ _ Ec). by apply insert_id.
Qed.

(** A write repeated on the store it left: the same store, the same
    outcome. This holds from every store, for every payload and at either
    visibility. *)
Lemma storeMarkdown_idempotent payload st s :
  let once := storeMarkdown payload st s in
  let twice := storeMarkdown payload st (kv once) in
  kv twice = kv once ∧ outcome twice = outcome once.
Proof.
  intros once twice.
  destruct (resolveMetadata payload) as [m|] eqn:Em.
  - destruct (storeMarkdown_slots payload st s m Em) as [Ec Emeta]. fold once in Ec, Emeta.
    pose proof (afterSlotWrites_id payload st m (kv once) Ec Emeta) as Eid.
    subst twice. rewrite (storeMarkdown_run payload st (kv once)), Em. cbv zeta.
    rewrite Eid. subst once. rewrite (storeMarkdown_run payload st s), Em. cbv zeta.
    destruct (indexed payload st); cbn [kv outcome]; [|done].
    apply indexUpdates_again, fullCategoryKey_not_catalog.
  - subst twice once. by rewrite !storeMarkdown_run, Em.
Qed.

(** Claim C5. From every store, a published write repeated on the store it
    left changes nothing and ends the same way: the category index and the
    catalog, like every other key, are as the first write left them. And in
    every state of the system (every store reached from the empty namespace),
    if the payload's metadata resolves and its key has at least three
    segments, the write succeeds, and after one write or two the slug occurs
    exactly once in the category index of its language and category, and that
    category key exactly once in the catalog. *)
Theorem index_idempotence payload s :
  let once := storeMarkdown payload Published s in
  let twice := storeMarkdown payload Published (kv once) in
  (kv twice = kv once ∧ outcome twice = outcome once) ∧
  (∀ m, reachable s →
     resolveMetadata payload = Some m →
     (3 ≤ length (Js.split "/" (payload_key payload)))%nat →
     outcome once = inr tt ∧
     ∃ slugs categories,
       outcome (getCategorySlugs (fullCategoryKey payload) (kv twice)) = inr slugs ∧
       outcome (getCategories (kv twice)) = inr categories ∧
       occurrences (slugOf payload) slugs = 1%nat ∧
       occurrences (fullCategoryKey payload) categories = 1%nat).
Proof.
  intros once twice.
  destruct (storeMarkdown_idempotent payload Published s) as [Ekv Eout].
  fold once in Ekv, Eout. fold twice in Ekv, Eout.
  split; [done|]. intros m Hwf%reachable_wellFormed Em Hlen.
  set (c := fullCategoryKey payload). set (x := slugOf payload).
  assert (Hi : indexed payload Published = true) by by apply indexed_spec.
  destruct (Hwf (indexKey c) (indexKey_is_index c)) as (l & El & Hl).
  destruct (Hwf categoriesKey categoriesKey_is_index) as (cs & Ecs & Hcs).
  set (s1 := afterSlotWrites payload Published m s).
  assert (El1 : readArray s1 (indexKey c) = Some l).
  { rewrite <- El. apply readArray_ext. by apply afterSlotWrites_index. }
  assert (Ecs1 : readArray s1 categoriesKey = Some cs).
  { rewrite <- Ecs. apply readArray_ext. by apply afterSlotWrites_index. }
  destruct (indexUpdates_ok c x s1 l cs (fullCategoryKey_not_catalog _ _) El1 Ecs1)
    as (Eo1 & El2 & Ecs2).
  assert (Eonce : once = let r := (updateCategoryIndex c x;; updateCategoriesList c) s1 in
                         mkRun (kv r) (slotWrites payload Published m ++ log r) (outcome r)).
  { subst once. by rewrite storeMarkdown_run, Em, Hi. }
  split; [by rewrite Eonce|].
  exists (appended l x), (appended cs c).
  rewrite getCategorySlugs_outcome, getCategories_outcome, Ekv, Eonce. cbn [kv].
  split_and!; [done | done | |].
  - apply occurrences_NoDup; [by apply appended_NoDup|].
    apply arrayIncludes_true, appended_includes.
  - apply occurrences_NoDup; [by apply appended_NoDup|].
    apply arrayIncludes_true, appended_includes.
Qed.
(** ** Recent posts *)

Lemma sortInsert_perm {A} (cmp : A → A → option Z) x l : sortInsert cmp x l ≡ₚ x :: l.
Proof.
  induction l as [|y l IH]; simpl; [done|].
  destruct (0 <? sortCompare cmp x y)%Z; [|done].
  rewrite IH. apply Permutation_swap.
Qed.

Lemma sort_perm {A} (cmp : A → A → option Z) l : sort cmp l ≡ₚ l.
Proof.
  unfold sort. induction l as [|x l IH]; simpl; [done|].
  by rewrite sortInsert_perm, IH.
Qed.

Lemma slice0_prefix {A} (l : list A) limit : slice0 l limit `prefix_of` l.
Proof. unfold slice0. apply prefix_take. Qed.

Lemma slice0_length {A} (l : list A) limit :
  (0 ≤ limit)%Z → length (slice0 l limit) = Z.to_nat limit `min` length l.
Proof.
  intros Hl. unfold slice0. apply Z.ltb_ge in Hl as ->.
  rewrite length_take. lia.
Qed.

Lemma byDateDesc_dated a b ta tb :
  postTime a = Some ta → postTime b = Some tb →
  sortCompare byDateDesc a b = (tb - ta)%Z.
Proof. intros Ea Eb. unfold sortCompare, byDateDesc. by rewrite Ea, Eb. Qed.

Lemma notOlder_trans a b c : notOlder a b → notOlder b c → notOlder a c.
Proof.
  intros (ta & tb & Ea & Eb & Hab) (tb' & tc & Eb' & Ec & Hbc).
  exists ta, tc. split_and!; [done | done |]. simplify_eq. lia.
Qed.

Lemma sortInsert_sorted x l :
  dated x → Forall dated l → StronglySorted notOlder l →
  StronglySorted notOlder (sortInsert byDateDesc x l).
Proof.
  intros [tx Ex] Hd Hs. induction Hs as [|y l Hs IH Hy]; simpl.
  - repeat constructor.
  - apply Forall_cons in Hd as [[ty Ey] Hd].
    rewrite (byDateDesc_dated x y tx ty Ex Ey).
    destruct (0 <? ty - tx)%Z eqn:Hlt.
    + apply Z.ltb_lt in Hlt. constructor; [by apply IH|].
      rewrite sortInsert_perm. constructor; [|done].
      exists ty, tx. split_and!; [done | done | lia].
    + apply Z.ltb_ge in Hlt.
      assert (Hxy : notOlder x y) by (exists tx, ty; split_and!; [done | done | lia]).
      constructor; [by constructor|]. constructor; [done|].
      eapply Forall_impl; [apply Hy|]. intros z Hz. by eapply notOlder_trans.
Qed.

Lemma sort_sorted l : Forall dated l → StronglySorted notOlder (sort byDateDesc l).
Proof.
  unfold sort. induction 1 as [|x l Hx Hl IH]; simpl; [constructor|].
  apply sortInsert_sorted; [done | | done].
  fold (sort byDateDesc l). by rewrite sort_perm.
Qed.

Lemma getRecentPosts_outcome limit st language s :
  outcome (getRecentPosts limit st language s) =
  match outcome (collectPosts st language s) with
  | inl e => inl e
  | inr allPosts => inr (slice0 (sort byDateDesc allPosts) limit)
  end.
Proof.
  unfold getRecentPosts. rewrite run_bind. by destruct (outcome (collectPosts _ _ _)).
Qed.

(** Claim C9, as amended (a limit that is not negative; the order is promised
    only when every collected date parses). What [getRecentPosts] returns is
    a prefix of a rearrangement of the posts found behind the indexes; for a
    limit that is not negative it has [limit] posts, or all of them if there
    are fewer; and when the date of every post found parses, the rearrangement
    is in descending date order, so the result is too and holds the newest
    posts. *)
Theorem recent_ordering limit st language s recent :
  outcome (getRecentPosts limit st language s) = inr recent →
  ∃ allPosts sorted,
    outcome (collectPosts st language s) = inr allPosts ∧
    sorted ≡ₚ allPosts ∧
    recent `prefix_of` sorted ∧
    ((0 ≤ limit)%Z → length recent = Z.to_nat limit `min` length allPosts) ∧
    (Forall dated allPosts → StronglySorted notOlder sorted).
Proof.
  rewrite getRecentPosts_outcome.
  destruct (outcome (collectPosts st language s)) as [e|allPosts]; [done|].
  intros [= <-]. exists allPosts, (sort byDateDesc allPosts).
  split_and!; [done | apply sort_perm | apply slice0_prefix | | apply sort_sorted].
  intros Hl. rewrite slice0_length by done. f_equal. apply Permutation_length, sort_perm.
Qed.

(** ** Further properties: the extractor *)

Lemma split_app_sep c a b :
  occursIn c a = false → Js.split c (a +:+ String c b) = a :: Js.split c b.
Proof.
  induction a as [|x a IH]; simpl.
  - intros _. by rewrite Ascii.eqb_refl.
  - intros [Hx Ha]%orb_false_iff. rewrite Hx, IH by done. done.
Qed.

Lemma join_split c s : Js.join (String c "") (Js.split c s) = s.
Proof.
  induction s as [|x s IH]; simpl; [done|].
  destruct (Ascii.eqb_spec x c) as [->|Hne].
  - destruct (Js.split c s) as [|p ps] eqn:E; [by apply split_nonempty in E|].
    rewrite <- IH. reflexivity.
  - destruct (Js.split c s) as [|p ps] eqn:E; [by apply split_nonempty in E|].
    rewrite <- IH. destruct ps; reflexivity.
Qed.

(** X1. A line [key: value] whose key is not empty and holds no colon is
    read as that key, trimmed and lower-cased, with everything after the
    first colon as its value, trimmed; colons in the value are kept. *)
Theorem parseLine_key_value key value :
  key ≠ "" → occursIn ":" key = false →
  parseLine (key +:+ String ":" value) =
  Some (Js.toLowerCase (Js.trim key), Js.trim value).
Proof.
  intros Hk Hc. unfold parseLine. rewrite split_app_sep by done.
  apply truthy_true in Hk as ->.
  pose proof (split_nonempty ":" value) as Hs.
  assert ((0 <? length (Js.split ":" value))%nat = true) as ->.
  { apply Nat.ltb_lt. destruct (Js.split ":" value); [done | simpl; lia]. }
  by rewrite (join_split ":" value).
Qed.

Lemma startsWith_app a b p :
  (String.length p ≤ String.length a)%nat →
  Js.startsWith (a +:+ b) p = Js.startsWith a p.
Proof.
  revert a. induction p as [|x p IH]; intros a Hl; [done|].
  destruct a as [|y a]; simpl in *; [lia|].
  destruct (Ascii.eqb x y); [|done]. apply IH. lia.
Qed.

Lemma startsWith_self_app p b : Js.startsWith (p +:+ b) p = true.
Proof. induction p as [|x p IH]; simpl; [done|]. by rewrite Ascii.eqb_refl. Qed.

Lemma append_cons x (a b : string) : String x a +:+ b = String x (a +:+ b).
Proof. reflexivity. Qed.

Lemma string_app_assoc (a b c : string) : (a +:+ b) +:+ c = a +:+ (b +:+ c).
Proof. induction a as [|x a IH]; [done|]. by rewrite !append_cons, IH. Qed.

Lemma string_app_length (a b : string) :
  String.length (a +:+ b) = (String.length a + String.length b)%nat.
Proof. induction a as [|x a IH]; [done|]. rewrite append_cons. simpl. by rewrite IH. Qed.

Lemma lazyUntil_eq pat s :
  Js.lazyUntil pat s =
  if Js.startsWith s pat then Some ""
  else match s with
       | "" => None
       | String c s' => String c <$> Js.lazyUntil pat s'
       end.
Proof. by destruct s. Qed.

Lemma lazyUntil_app pat fm body :
  Js.lazyUntil pat (fm +:+ pat +:+ body) = Js.lazyUntil pat (fm +:+ pat).
Proof.
  induction fm as [|x fm IH].
  - change ("" +:+ pat +:+ body) with (pat +:+ body). change ("" +:+ pat) with pat.
    rewrite (lazyUntil_eq pat (pat +:+ body)), (lazyUntil_eq pat pat).
    rewrite startsWith_self_app.
    assert (Js.startsWith pat pat = true) as ->; [|done].
    clear. induction pat as [|y pat IH]; simpl; [done | by rewrite Ascii.eqb_refl].
  - rewrite (lazyUntil_eq pat (String x fm +:+ pat +:+ body)).
    rewrite (lazyUntil_eq pat (String x fm +:+ pat)).
    rewrite <- (string_app_assoc (String x fm) pat body).
    rewrite startsWith_app by (rewrite string_app_length; lia).
    destruct (Js.startsWith (String x fm +:+ pat) pat); [done|].
    rewrite string_app_assoc, !append_cons. by rewrite IH.
Qed.

(** X2. The metadata of a document depends on its front matter only: what
    follows the closing [---] changes neither whether the document is
    accepted nor what is extracted. *)
Theorem extractMetadata_ignores_body frontmatter body :
  extractMetadata ("---" +:+ Js.nl +:+ frontmatter +:+ Js.nl +:+ "---" +:+ body) =
  extractMetadata ("---" +:+ Js.nl +:+ frontmatter +:+ Js.nl +:+ "---").
Proof.
  unfold extractMetadata, frontmatterMatch.
  change ("---" +:+ Js.nl +:+ frontmatter +:+ Js.nl +:+ "---" +:+ body)
    with (String "-" (String "-" (String "-" (String "010"
            (frontmatter +:+ (Js.nl +:+ "---") +:+ body))))).
  change ("---" +:+ Js.nl +:+ frontmatter +:+ Js.nl +:+ "---")
    with (String "-" (String "-" (String "-" (String "010"
            (frontmatter +:+ (Js.nl +:+ "---")))))).
  cbn [Js.startsWith Js.drop Js.nl String.append Ascii.eqb Bool.eqb].
  change (String "010" "---") with (Js.nl +:+ "---").
  by rewrite lazyUntil_app.
Qed.

(** *** Trimming *)

Lemma trimStart_noLeadingSpace s : noLeadingSpace (Js.trimStart s).
Proof. induction s as [|c s IH]; simpl; [done|]. by destruct (Js.isSpace c) eqn:E. Qed.

Lemma trimStart_id s : noLeadingSpace s → Js.trimStart s = s.
Proof. destruct s as [|c s]; simpl; [done|]. by intros ->. Qed.

Lemma trimEnd_noLeadingSpace s : noLeadingSpace s → noLeadingSpace (Js.trimEnd s).
Proof.
  destruct s as [|c s]; simpl; [done|]. intros Hc.
  destruct (Js.trimEnd s); [by rewrite Hc | done].
Qed.

Lemma trimEnd_cons c s :
  Js.trimEnd (String c s) =
  match Js.trimEnd s with
  | "" => if Js.isSpace c then "" else String c ""
  | t => String c t
  end.
Proof. reflexivity. Qed.

Lemma trimEnd_idem s : Js.trimEnd (Js.trimEnd s) = Js.trimEnd s.
Proof.
  induction s as [|c s IH]; [done|]. rewrite trimEnd_cons.
  destruct (Js.trimEnd s) as [|d t] eqn:E.
  - destruct (Js.isSpace c) eqn:Ec; [done|]. rewrite trimEnd_cons. simpl. by rewrite Ec.
  - by rewrite trimEnd_cons, IH.
Qed.

Lemma trim_idem s : trimmed (Js.trim s).
Proof.
  unfold trimmed, Js.trim.
  rewrite (trimStart_id (Js.trimEnd _)).
  - apply trimEnd_idem.
  - apply trimEnd_noLeadingSpace, trimStart_noLeadingSpace.
Qed.

Lemma isSpace_lowerChar c : Js.isSpace (Js.lowerChar c) = Js.isSpace c.
Proof. destruct c as [[] [] [] [] [] [] [] []]; reflexivity. Qed.

Lemma trimStart_toLowerCase s :
  Js.trimStart (Js.toLowerCase s) = Js.toLowerCase (Js.trimStart s).
Proof.
  induction s as [|c s IH]; simpl; [done|].
  rewrite isSpace_lowerChar. by destruct (Js.isSpace c).
Qed.

Lemma trimEnd_toLowerCase s :
  Js.trimEnd (Js.toLowerCase s) = Js.toLowerCase (Js.trimEnd s).
Proof.
  induction s as [|c s IH]; simpl; [done|].
  rewrite IH, isSpace_lowerChar.
  destruct (Js.trimEnd s); simpl; [by destruct (Js.isSpace c) | done].
Qed.

Lemma trimmed_toLowerCase s : trimmed s → trimmed (Js.toLowerCase s).
Proof.
  unfold trimmed, Js.trim. intros Hs.
  by rewrite trimStart_toLowerCase, trimEnd_toLowerCase, Hs.
Qed.

Lemma allTrimmed_empty : allTrimmed emptyMetadata.
Proof. unfold allTrimmed. simpl. split_and!; intros ? [=]. Qed.

Lemma assignField_trimmed m key value :
  trimmed value → allTrimmed m → allTrimmed (assignField m key value).
Proof.
  intros Hv. destruct m as [t d a s c e g l]. unfold assignField, allTrimmed. simpl.
  intros (Ht & Hd & Ha & Hs & Hc & He & Hl & Hg).
  repeat match goal with
         | |- context [String.eqb key ?k] => destruct (String.eqb key k)
         end; simpl; split_and!; try done; intros ? [= <-]; try done.
  - by apply trimmed_toLowerCase.
  - apply Forall_fmap, Forall_true. intros x. apply trim_idem.
Qed.

Lemma applyLine_trimmed m line : allTrimmed m → allTrimmed (applyLine m line).
Proof.
  unfold applyLine, parseLine.
  destruct (Js.split ":" line) as [|key parts]; [done|].
  destruct (_ && _); [|done]. apply assignField_trimmed, trim_idem.
Qed.

Lemma fold_trimmed lines : ∀ m, allTrimmed m → allTrimmed (fold_left applyLine lines m).
Proof.
  induction lines as [|line lines IH]; intros m Hm; simpl; [done|].
  by apply IH, applyLine_trimmed.
Qed.

Lemma missingRequired_hasRequired m : missingRequired m = false → hasRequired m.
Proof.
  unfold missingRequired, hasRequired.
  rewrite !orb_false_iff, !negb_false_iff.
  destruct m as [[t|] [d|] [a|] s [c|] e g l]; simpl; try (intros (((? & ?) & ?) & ?); done).
  intros (((Ht & Hd) & Ha) & Hc). exists t, d, a, c.
  by rewrite <- !truthy_true.
Qed.

(** X3. Whatever the extractor accepts has a title, a date, an author and a
    category that are not empty, and every text in it (each scalar, the
    status and each tag) is free of surrounding white space. *)
Theorem extractMetadata_valid content m :
  extractMetadata content = Some m → hasRequired m ∧ allTrimmed m.
Proof.
  unfold extractMetadata.
  destruct (frontmatterMatch content) as [fm|]; [|done].
  destruct (missingRequired _) eqn:Hmiss; [done|]. intros [= <-]. split.
  - by apply missingRequired_hasRequired.
  - apply fold_trimmed, allTrimmed_empty.
Qed.
(** ** Further properties: keys and writes *)

(** X4. The key scheme is injective and its four kinds of keys never
    collide: a content key or a metadata key determines the visibility and the
    logical key, an index key its category, and no key of one kind is a key of
    another (the catalog key being the index key of no [language/category]). *)
Theorem key_scheme_injective st st' key key' c c' a b :
  (contentKey st key = contentKey st' key' → st = st' ∧ key = key') ∧
  (metadataKey st key = metadataKey st' key' → st = st' ∧ key = key') ∧
  (indexKey c = indexKey c' → c = c') ∧
  contentKey st key ≠ metadataKey st' key' ∧
  contentKey st key ≠ indexKey c ∧ contentKey st key ≠ categoriesKey ∧
  metadataKey st key ≠ indexKey c ∧ metadataKey st key ≠ categoriesKey ∧
  indexKey (a +:+ "/" +:+ b) ≠ categoriesKey.
Proof.
  split_and!.
  - intros E. pose proof (contentKey_slot _ _ _ _ E) as <-. split; [done|].
    by apply contentKey_inj in E.
  - intros E. pose proof (metadataKey_slot _ _ _ _ E) as <-. split; [done|].
    by apply metadataKey_inj in E.
  - apply indexKey_inj.
  - apply contentKey_not_metadataKey.
  - apply contentKey_not_indexKey.
  - apply (contentKey_not_indexKey _ _ "categories").
  - apply metadataKey_not_indexKey.
  - apply (metadataKey_not_indexKey _ _ "categories").
  - apply fullCategoryKey_not_catalog.
Qed.

(** X5. A write changes at most four keys: the content key and the metadata
    key of its logical key and visibility and, when it is published with a key
    of at least three segments, the index key of its category and the catalog
    key. Every other key of the store keeps its value, whether the write
    returns or throws. *)
Theorem storeMarkdown_changes_four_keys payload st s k :
  k ≠ contentKey st (payload_key payload) →
  k ≠ metadataKey st (payload_key payload) →
  (st = Published → (3 ≤ length (Js.split "/" (payload_key payload)))%nat →
   k ≠ indexKey (fullCategoryKey payload) ∧ k ≠ categoriesKey) →
  kv (storeMarkdown payload st s) !! k = s !! k.
Proof.
  intros Hc Hm Hi. apply storeMarkdown_frame.
  intros [->|[->|[Hidx [->| ->]]]]; try done;
    apply indexed_spec in Hidx as [Hst Hlen]; by destruct (Hi Hst Hlen).
Qed.



(** X7. A write leaves every other document alone: at any other logical key,
    or at the same key in the other visibility, the point lookup, the raw
    content and the metadata are what they were. *)
Theorem storeMarkdown_other_documents payload st s key' st' :
  key' ≠ payload_key payload ∨ st' ≠ st →
  let after := kv (storeMarkdown payload st s) in
  outcome (getPost key' st' after) = outcome (getPost key' st' s) ∧
  outcome (getMarkdown key' st' after) = outcome (getMarkdown key' st' s) ∧
  outcome (getPostMetadata key' st' after) = outcome (getPostMetadata key' st' s).
Proof.
  intros Hne after.
  assert (Hag : agree (slotKey st' key') after s).
  { apply agree_sym. eapply agree_of_frame; [apply storeMarkdown_frame|].
    intros k [->| ->] [E|[E|[_ [E|E]]]].
    - pose proof (contentKey_slot _ _ _ _ E) as ->. apply contentKey_inj in E. by destruct Hne.
    - by apply contentKey_not_metadataKey in E.
    - by apply contentKey_not_indexKey in E.
    - by apply (contentKey_not_indexKey _ _ "categories") in E.
    - symmetry in E. by apply contentKey_not_metadataKey in E.
    - pose proof (metadataKey_slot _ _ _ _ E) as ->. apply metadataKey_inj in E.
      by destruct Hne.
    - by apply metadataKey_not_indexKey in E.
    - by apply (metadataKey_not_indexKey _ _ "categories") in E. }
  split_and!.
  - by apply (frame_outcome _ _ _ _ (readsOnly_getPost key' st')).
  - apply (frame_outcome _ _ _ _ (readsOnly_getMarkdown key' st')).
    eapply agree_weaken; [|done]. intros k ->. by left.
  - apply (frame_outcome _ _ _ _ (readsOnly_getPostMetadata key' st')).
    eapply agree_weaken; [|done]. intros k ->. by right.
Qed.
(** ** Further properties: queries *)

Lemma forOf_outcome {A B} P (xs : list A) (body : B → A → KV B) s :
  (∀ acc x, readsOnly P (body acc x)) →
  ∀ acc, outcome (forOf xs acc body s) = foldE (λ acc x, outcome (body acc x s)) acc xs.
Proof.
  intros Hb. induction xs as [|x xs IH]; intros acc; [done|].
  cbn [forOf foldE]. rewrite run_bind, (ro_store _ _ (Hb acc x)).
  destruct (outcome (body acc x s)) as [e|acc']; cbn [outcome]; [done | apply IH].
Qed.

Lemma foldE_ext {A B} (f g : B → A → Error + B) xs :
  (∀ acc x, x ∈ xs → f acc x = g acc x) → ∀ acc, foldE f acc xs = foldE g acc xs.
Proof.
  induction xs as [|x xs IH]; intros Hfg acc; [done|]. cbn [foldE].
  rewrite <- Hfg by apply list_elem_of_here.
  destruct (f acc x); [done|]. apply IH. intros ???. apply Hfg. by apply list_elem_of_further.
Qed.

Lemma matchesQuery_outcome p q s :
  outcome (matchesQuery p q s) = if titled p then inr (matchesB q p) else inl TypeError.
Proof.
  unfold matchesQuery, titled, matchesB. by destruct (title (metadata p)).
Qed.

Lemma collectPosts_outcome st language s :
  outcome (collectPosts st language s) =
  match arrayOutcome (readArray s categoriesKey) with
  | inl e => inl e
  | inr categories => foldE (overCatalog s language (collectStep s st)) [] categories
  end.
Proof.
  unfold collectPosts. rewrite run_bind, getCategories_run. cbn [kv outcome].
  destruct (arrayOutcome _) as [e|categories]; [done|]. cbn [outcome].
  rewrite (forOf_outcome (queryKey st)).
  - apply foldE_ext. intros acc c _. unfold overCatalog.
    destruct (Js.startsWith c _); [|done].
    rewrite run_bind, getCategorySlugs_run. cbn [kv outcome].
    destruct (arrayOutcome _) as [e|slugs]; [done|]. cbn [outcome].
    rewrite (forOf_outcome (queryKey st)).
    + apply foldE_ext. intros acc' sl _. unfold collectStep.
      rewrite run_bind, (ro_store _ _ (readsOnly_getPost _ st)).
      by destruct (outcome (getPost _ st s)) as [e|[p|]].
    + intros acc' sl. apply readsOnly_bind; [apply readsOnly_getPost_query|].
      intros [p|]; apply readsOnly_ret.
  - intros acc c. destruct (Js.startsWith c _); [|apply readsOnly_ret].
    apply readsOnly_bind.
    { eapply readsOnly_weaken; [apply indexOnly_queryKey | apply readsOnly_getCategorySlugs]. }
    intros slugs. apply readsOnly_forOf. intros acc' sl.
    apply readsOnly_bind; [apply readsOnly_getPost_query|].
    intros [p|]; apply readsOnly_ret.
Qed.

Lemma searchPosts_outcome query st language s :
  outcome (searchPosts query st language s) =
  match arrayOutcome (readArray s categoriesKey) with
  | inl e => inl e
  | inr categories => foldE (overCatalog s language (searchStep s query st)) [] categories
  end.
Proof.
  unfold searchPosts. rewrite run_bind, getCategories_run. cbn [kv outcome].
  destruct (arrayOutcome _) as [e|categories]; [done|]. cbn [outcome].
  rewrite (forOf_outcome (queryKey st)).
  - apply foldE_ext. intros acc c _. unfold overCatalog.
    destruct (Js.startsWith c _); [|done].
    rewrite run_bind, getCategorySlugs_run. cbn [kv outcome].
    destruct (arrayOutcome _) as [e|slugs]; [done|]. cbn [outcome].
    rewrite (forOf_outcome (queryKey st)).
    + apply foldE_ext. intros acc' sl _. unfold searchStep.
      rewrite run_bind, (ro_store _ _ (readsOnly_getPost _ st)).
      destruct (outcome (getPost _ st s)) as [e|[p|]]; [done | | done].
      cbn [outcome]. rewrite run_bind, matchesQuery_outcome.
      by destruct (titled p).
    + intros acc' sl. apply readsOnly_bind; [apply readsOnly_getPost_query|].
      intros [p|]; [|apply readsOnly_ret].
      apply readsOnly_bind; [apply readsOnly_matchesQuery|]. intros. apply readsOnly_ret.
  - intros acc c. destruct (Js.startsWith c _); [|apply readsOnly_ret].
    apply readsOnly_bind.
    { eapply readsOnly_weaken; [apply indexOnly_queryKey | apply readsOnly_getCategorySlugs]. }
    intros slugs. apply readsOnly_forOf. intros acc' sl.
    apply readsOnly_bind; [apply readsOnly_getPost_query|].
    intros [p|]; [|apply readsOnly_ret].
    apply readsOnly_bind; [apply readsOnly_matchesQuery|]. intros. apply readsOnly_ret.
Qed.

Lemma foldE_search {A} query (f g : list Post → A → Error + list Post) :
  (∀ all results x all', f all x = inr all' →
     ∃ new, all' = all ++ new ∧
            g results x = if forallb titled new
                          then inr (results ++ List.filter (matchesB query) new)
                          else inl TypeError) →
  ∀ xs all results all', foldE f all xs = inr all' →
     ∃ new, all' = all ++ new ∧
            foldE g results xs = if forallb titled new
                                 then inr (results ++ List.filter (matchesB query) new)
                                 else inl TypeError.
Proof.
  intros Hstep. induction xs as [|x xs IH]; intros all results all' Hf; cbn [foldE] in *.
  - exists []. split; [by simplify_eq; rewrite app_nil_r|]. cbn. by rewrite app_nil_r.
  - destruct (f all x) as [e|all1] eqn:Hx; [done|].
    destruct (Hstep _ results _ _ Hx) as (new1 & -> & ->).
    destruct (forallb titled new1) eqn:Ht.
    + destruct (IH _ (results ++ List.filter (matchesB query) new1) _ Hf) as (new2 & -> & ->).
      exists (new1 ++ new2). rewrite forallb_app, Ht, List.filter_app, !app_assoc. done.
    + destruct (IH _ results _ Hf) as (new2 & -> & _).
      exists (new1 ++ new2). by rewrite forallb_app, Ht, app_assoc.
Qed.

Lemma overCatalog_search query st language s categories all :
  foldE (overCatalog s language (collectStep s st)) [] categories = inr all →
  foldE (overCatalog s language (searchStep s query st)) [] categories =
  if forallb titled all then inr (List.filter (matchesB query) all) else inl TypeError.
Proof.
  intros Hall.
  eapply (foldE_search query) with (results := []) in Hall as (new & -> & ->); [done|].
  clear. intros all results c all' Hc. unfold overCatalog in *.
  destruct (Js.startsWith c _).
  - destruct (arrayOutcome _) as [e|slugs]; [done|].
    eapply (foldE_search query) with (results := results) in Hc; [exact Hc|].
    clear. intros all results sl all' Hs. unfold collectStep, searchStep in *.
    destruct (outcome (getPost _ st s)) as [e|[p|]]; [done | |].
    + exists [p]. split; [by simplify_eq|]. cbn [forallb List.filter].
      destruct (titled p); [|done]. cbn. by destruct (matchesB query p); rewrite ?app_nil_r.
    + exists []. split; [by simplify_eq; rewrite app_nil_r|]. cbn. by rewrite app_nil_r.
  - exists []. split; [by simplify_eq; rewrite app_nil_r|]. cbn. by rewrite app_nil_r.
Qed.

(** X8. Searching is filtering what the recent-posts loop collects: when the
    loop of [getRecentPosts] returns the posts [all] for a status and a
    language, [searchPosts] for the same status and language returns the posts
    of [all] that match the query, in the same order, if every post of [all]
    has a title; and it throws a [TypeError] if one of them has none (metadata
    given with the payload is stored unvalidated, and [title.toLowerCase()] is
    called on every post found). *)
Theorem searchPosts_filters_collected query st language s all
    (Hall : outcome (collectPosts st language s) = inr all) :
  outcome (searchPosts query st language s) =
  if forallb titled all then inr (List.filter (matchesB query) all) else inl TypeError.
Proof.
  rewrite collectPosts_outcome in Hall. rewrite searchPosts_outcome.
  destruct (arrayOutcome (readArray s categoriesKey)) as [e|categories]; [done|].
  by apply overCatalog_search.
Qed.
(** ** Further properties: the states the system reaches *)

Global Instance metadataStaysReadable_refl : Reflexive metadataStaysReadable.
Proof. by intros s st key Hr. Qed.

Global Instance metadataStaysReadable_trans : Transitive metadataStaysReadable.
Proof. intros s1 s2 s3 H12 H23 st key Hr. by apply H23, H12. Qed.

Lemma metadataStaysReadable_insert k v s :
  (∀ st key, k = metadataKey st key → ∃ m, parseMetadataOrNull (Some v) = inr m) →
  metadataStaysReadable s (<[k := v]> s).
Proof.
  intros Hk st key Hr. destruct (decide (k = metadataKey st key)) as [E|Hne].
  - rewrite E, lookup_insert_eq. by eapply Hk.
  - by rewrite lookup_insert_ne.
Qed.

Lemma storeMarkdown_keeps_readable payload st :
  moves metadataStaysReadable (storeMarkdown payload st).
Proof.
  apply moves_storeMarkdown; try apply _.
  - intros s m. unfold afterSlotWrites. etransitivity.
    + apply metadataStaysReadable_insert. intros st' key E.
      by apply contentKey_not_metadataKey in E.
    + apply metadataStaysReadable_insert. intros _ _ _.
      rewrite parseMetadataOrNull_stringify. by eexists.
  - intros k x s l _ _ Hk _. apply metadataStaysReadable_insert. intros st' key E.
    destruct Hk as [[-> _]|[-> _]]; symmetry in E.
    + by apply metadataKey_not_indexKey in E.
    + by apply (metadataKey_not_indexKey _ _ "categories") in E.
Qed.

Lemma execute_keeps_readable op s : metadataStaysReadable s (execute op s).
Proof.
  destruct op as [payload st| | | | | | | | | |];
    [apply storeMarkdown_keeps_readable | rewrite execute_query by done; reflexivity ..].
Qed.

Lemma executeAll_keeps_readable ops : ∀ s, metadataStaysReadable s (executeAll ops s).
Proof.
  induction ops as [|op ops IH]; intros s; simpl; [reflexivity|].
  etransitivity; [apply execute_keeps_readable | apply IH].
Qed.

Lemma reachable_readable s : reachable s → metadataReadable s.
Proof.
  intros [ops ->] st key. apply executeAll_keeps_readable.
  rewrite lookup_empty. by eexists.
Qed.

Lemma reachable_is_wellFormed s : reachable s → wellFormed s.
Proof. intros Hs. split; [by apply reachable_wellFormed | by apply reachable_readable]. Qed.

Lemma reachable_execute op s : reachable s → reachable (execute op s).
Proof.
  intros [ops ->]. exists (ops ++ [op]). unfold executeAll. by rewrite foldl_app.
Qed.

(** *** Loops that return *)

Lemma foldE_invariant {A B} (f : B → A → Error + B) (Q : B → Prop) xs :
  (∀ acc x acc', x ∈ xs → Q acc → f acc x = inr acc' → Q acc') →
  ∀ acc b, Q acc → foldE f acc xs = inr b → Q b.
Proof.
  induction xs as [|x xs IH]; intros Hstep acc b Hacc Hf; cbn [foldE] in Hf.
  - by simplify_eq.
  - destruct (f acc x) as [e|acc1] eqn:Hx; [done|].
    eapply IH; [|eapply Hstep; [apply list_elem_of_here | exact Hacc | exact Hx] | exact Hf].
    intros ??? Hin. apply Hstep. by apply list_elem_of_further.
Qed.

Lemma foldE_reaches {A B} (f : B → A → Error + B) (Q : B → Prop) x xs :
  x ∈ xs →
  (∀ acc acc', f acc x = inr acc' → Q acc') →
  (∀ acc y acc', Q acc → f acc y = inr acc' → Q acc') →
  ∀ acc b, foldE f acc xs = inr b → Q b.
Proof.
  intros Hin Hat Hkeep. induction xs as [|y xs IH]; intros acc b Hf; cbn [foldE] in Hf.
  - by apply elem_of_nil in Hin.
  - destruct (f acc y) as [e|acc1] eqn:Hy; [done|].
    apply elem_of_cons in Hin as [->|Hin]; [|by eapply IH].
    eapply (foldE_invariant f Q xs); [|by eapply Hat | exact Hf].
    intros ??? _. apply Hkeep.
Qed.

Lemma foldE_returns {A B} (f : B → A → Error + B) xs :
  (∀ acc x, x ∈ xs → ∃ b, f acc x = inr b) → ∀ acc, ∃ b, foldE f acc xs = inr b.
Proof.
  induction xs as [|x xs IH]; intros Hf acc; cbn [foldE]; [by eexists|].
  destruct (Hf acc x) as [b ->]; [apply list_elem_of_here|].
  apply IH. intros ?? Hin. apply Hf. by apply list_elem_of_further.
Qed.



Lemma getCategoryInfo_outcome category s :
  outcome (getCategoryInfo category s) =
  match arrayOutcome (readArray s (indexKey category)) with
  | inl e => inl e
  | inr slugs => inr (if (length slugs =? 0)%nat then None
                      else Some (mkInfo category (length slugs) slugs))
  end.
Proof.
  unfold getCategoryInfo. rewrite run_bind, getCategorySlugs_run. cbn [kv outcome].
  destruct (arrayOutcome _) as [e|slugs]; [done|]. cbn [outcome].
  by destruct (length slugs =? 0)%nat.
Qed.

Lemma listCategories_outcome language s :
  outcome (listCategories language s) =
  match arrayOutcome (readArray s categoriesKey) with
  | inl e => inl e
  | inr categories => foldE (infoStep s language) [] categories
  end.
Proof.
  unfold listCategories. rewrite run_bind, getCategories_run. cbn [kv outcome].
  destruct (arrayOutcome _) as [e|categories]; [done|]. cbn [outcome].
  rewrite (forOf_outcome indexOnly).
  - apply foldE_ext. intros acc c _. unfold infoStep.
    destruct (Js.startsWith c _); [|done].
    rewrite run_bind, (ro_store _ _ (readsOnly_getCategoryInfo c)), getCategoryInfo_outcome.
    destruct (arrayOutcome _) as [e|slugs]; [done|]. cbn [outcome].
    by destruct (length slugs =? 0)%nat.
  - intros acc c. destruct (Js.startsWith c _); [|apply readsOnly_ret].
    apply readsOnly_bind; [apply readsOnly_getCategoryInfo|].
    intros [i|]; apply readsOnly_ret.
Qed.

Lemma getRecentPosts_run_outcome limit st language s :
  outcome (getRecentPosts limit st language s) =
  match outcome (collectPosts st language s) with
  | inl e => inl e
  | inr all => inr (slice0 (sort byDateDesc all) limit)
  end.
Proof.
  unfold getRecentPosts. rewrite run_bind. by destruct (outcome (collectPosts st language s)).
Qed.

Lemma wellFormed_getPost key st s :
  metadataReadable s → ∃ post, outcome (getPost key st s) = inr post.
Proof.
  intros Hr. rewrite getPost_outcome. destruct (_ <? 3)%nat; [by eexists|].
  destruct (Hr st key) as [m ->]. by eexists.
Qed.

Lemma wellFormed_index k s :
  indexesWellFormed s → indexOnly k → ∃ l, arrayOutcome (readArray s k) = inr l.
Proof. intros Hwf Hk. destruct (Hwf k Hk) as (l & -> & _). by eexists. Qed.

Lemma wellFormed_collectStep s st category acc slug :
  metadataReadable s → ∃ b, collectStep s st category acc slug = inr b.
Proof.
  intros Hr. unfold collectStep.
  destruct (wellFormed_getPost (category +:+ "/" +:+ slug) st s Hr) as [[p|] ->]; by eexists.
Qed.


Lemma wellFormed_collectPosts s st language :
  wellFormed s → ∃ posts, outcome (collectPosts st language s) = inr posts.
Proof.
  intros [Hwf Hr]. rewrite collectPosts_outcome.
  destruct (wellFormed_index categoriesKey s Hwf categoriesKey_is_index) as [cs ->].
  apply foldE_returns. intros acc c _. unfold overCatalog.
  destruct (Js.startsWith c _); [|by eexists].
  destruct (wellFormed_index (indexKey c) s Hwf (indexKey_is_index c)) as [slugs ->].
  apply foldE_returns. intros acc' sl _. by apply wellFormed_collectStep.
Qed.





(** ** Further properties: what the listings show *)

Lemma drop_app p r : Js.drop (String.length p) (p +:+ r) = r.
Proof. induction p as [|x p IH]; [by destruct r|]. rewrite append_cons. apply IH. Qed.

Lemma replace_prefix p r : Js.replace (p +:+ r) p "" = r.
Proof.
  assert (E : ∀ s, Js.replace s p "" =
                   if Js.startsWith s p then "" +:+ Js.drop (String.length p) s
                   else match s with
                        | "" => ""
                        | String c s' => String c (Js.replace s' p "")
                        end) by (by intros [|c s]).
  rewrite E, startsWith_self_app, drop_app. done.
Qed.

Lemma storeMarkdown_indexed_ok payload s m slugs categories :
  resolveMetadata payload = Some m →
  indexed payload Published = true →
  readArray s (indexKey (fullCategoryKey payload)) = Some slugs →
  readArray s categoriesKey = Some categories →
  outcome (storeMarkdown payload Published s) = inr tt ∧
  readArray (kv (storeMarkdown payload Published s)) (indexKey (fullCategoryKey payload)) =
    Some (appended slugs (slugOf payload)) ∧
  readArray (kv (storeMarkdown payload Published s)) categoriesKey =
    Some (appended categories (fullCategoryKey payload)).
Proof.
  intros Em Hi Es Ec. rewrite storeMarkdown_run, Em. cbv zeta. rewrite Hi.
  set (s1 := afterSlotWrites payload Published m s).
  assert (E1 : ∀ k, indexOnly k → readArray s1 k = readArray s k).
  { intros k Hk. apply readArray_ext. by apply afterSlotWrites_index. }
  cbn [kv outcome].
  apply indexUpdates_ok; [apply fullCategoryKey_not_catalog | |].
  - rewrite E1; [done | apply indexKey_is_index].
  - rewrite E1; [done | apply categoriesKey_is_index].
Qed.

Lemma appended_elem l x : x ∈ appended l x.
Proof. pose proof (appended_includes l x) as H. by apply bool_decide_eq_true in H. Qed.

Lemma collectStep_keeps s st category post acc slug acc' :
  post ∈ acc → collectStep s st category acc slug = inr acc' → post ∈ acc'.
Proof.
  unfold collectStep. intros Hin.
  destruct (outcome (getPost _ st s)) as [e|[p|]]; intros; simplify_eq; [|done].
  apply elem_of_app. by left.
Qed.


Lemma published_collected payload s language category slug m :
  reachable s →
  Js.split "/" (payload_key payload) = [language; category; slug] →
  resolveMetadata payload = Some m →
  payload_content payload ≠ "" →
  let after := kv (storeMarkdown payload Published s) in
  let post := mkPost slug m (payload_content payload) in
  outcome (storeMarkdown payload Published s) = inr tt ∧
  (∃ slugs, readArray after (indexKey (language +:+ "/" +:+ category)) = Some slugs ∧
            slug ∈ slugs) ∧
  (∃ categories, readArray after categoriesKey = Some categories ∧
                 language +:+ "/" +:+ category ∈ categories) ∧
  outcome (getPost ((language +:+ "/" +:+ category) +:+ "/" +:+ slug) Published after) =
    inr (Some post) ∧
  (∀ acc slugs b, slug ∈ slugs →
     foldE (collectStep after Published (language +:+ "/" +:+ category)) acc slugs = inr b →
     post ∈ b) ∧
  ∃ all, outcome (collectPosts Published language after) = inr all ∧ post ∈ all.
Proof.
  intros Hs Hkey Hm Hc after post.
  assert (Hfull : fullCategoryKey payload = language +:+ "/" +:+ category).
  { unfold fullCategoryKey. by rewrite Hkey. }
  assert (Hslug : slugOf payload = slug) by (unfold slugOf; by rewrite Hkey).
  assert (Hk : (language +:+ "/" +:+ category) +:+ "/" +:+ slug = payload_key payload).
  { rewrite <- (join_split "/" (payload_key payload)), Hkey. cbn [Js.join].
    by rewrite !string_app_assoc. }
  assert (Hi : indexed payload Published = true).
  { apply indexed_spec. rewrite Hkey. split; [done | cbn; lia]. }
  destruct (reachable_is_wellFormed s Hs) as [Hwf _].
  destruct (Hwf _ (indexKey_is_index (fullCategoryKey payload))) as (slugs & Es & _).
  destruct (Hwf _ categoriesKey_is_index) as (categories & Ec & _).
  destruct (storeMarkdown_indexed_ok payload s m slugs categories Hm Hi Es Ec)
    as (Hok & Es' & Ec').
  fold after in Es', Ec'. rewrite Hfull, Hslug in Es'. rewrite Hfull in Ec'.
  assert (Hs' : reachable after)
    by apply (reachable_execute (StoreMarkdown payload Published) s Hs).
  pose proof (reachable_is_wellFormed _ Hs') as Hw'. pose proof Hw' as [Hwf' Hr'].
  assert (Hpost : outcome (getPost ((language +:+ "/" +:+ category) +:+ "/" +:+ slug)
                     Published after) = inr (Some post)).
  { unfold after. rewrite Hk, getPost_outcome, Hkey. cbn [length Nat.ltb Nat.leb].
    destruct (storeMarkdown_slots payload Published s m Hm) as [-> ->].
    rewrite parseMetadataOrNull_stringify. unfold postView.
    by apply truthy_true in Hc as ->. }
  assert (Hinner : ∀ acc slugs b, slug ∈ slugs →
            foldE (collectStep after Published (language +:+ "/" +:+ category)) acc slugs =
              inr b → post ∈ b).
  { intros acc slugs' b Hin. revert acc b.
    apply (foldE_reaches _ (λ acc, post ∈ acc) slug); [done | |].
    - intros acc acc'. unfold collectStep. rewrite Hpost. intros; simplify_eq.
      apply elem_of_app. right. by apply list_elem_of_singleton.
    - intros acc y acc'. apply collectStep_keeps. }
  split_and!; [done | | | done | done |].
  - exists (appended slugs slug). split; [done | apply appended_elem].
  - exists (appended categories (language +:+ "/" +:+ category)).
    split; [done | apply appended_elem].
  - destruct (wellFormed_collectPosts after Published language Hw') as [all Eall].
    exists all. split; [done|]. rewrite collectPosts_outcome, Ec' in Eall.
    cbn [arrayOutcome] in Eall. revert Eall.
    apply (foldE_reaches _ (λ acc, post ∈ acc) (language +:+ "/" +:+ category));
      [apply appended_elem | |].
    + intros acc acc'. unfold overCatalog.
      rewrite <- string_app_assoc, startsWith_self_app, string_app_assoc, Es'.
      cbn [arrayOutcome]. apply Hinner, appended_elem.
    + intros acc c acc' Hin. unfold overCatalog. destruct (Js.startsWith c _).
      * destruct (arrayOutcome _) as [e|l]; [done|].
        apply (foldE_invariant _ (λ acc, post ∈ acc)); [|done].
        intros ??? _. apply collectStep_keeps.
      * by intros; simplify_eq.
Qed.

(** ** Further properties: the catalog *)

Lemma startsWith_decompose s p :
  Js.startsWith s p = true → s = p +:+ Js.drop (String.length p) s.
Proof.
  revert s. induction p as [|x p IH]; intros s; [by destruct s|].
  destruct s as [|y s]; [done|]. cbn [Js.startsWith String.length Js.drop].
  destruct (Ascii.eqb_spec x y) as [->|]; [|done].
  intros Hs. rewrite append_cons. f_equal. by apply IH.
Qed.

(** X11. What the category list of a language shows, in any store: every
    entry stands for a category of the catalog that starts with [language/];
    its name is that category without the prefix, its slugs are the category's
    index, its count is their number, and it is not empty (categories with an
    empty index are left out). *)
Theorem listCategories_entries language s infos info
    (Hlist : outcome (listCategories language s) = inr infos)
    (Hin : info ∈ infos) :
  ∃ categories,
    outcome (getCategories s) = inr categories ∧
    (language +:+ "/") +:+ name info ∈ categories ∧
    outcome (getCategorySlugs ((language +:+ "/") +:+ name info) s) = inr (posts info) ∧
    postCount info = length (posts info) ∧ (0 < postCount info)%nat.
Proof.
  rewrite listCategories_outcome in Hlist. rewrite getCategories_run. cbn [outcome].
  destruct (arrayOutcome (readArray s categoriesKey)) as [e|categories]; [done|].
  exists categories. split; [done|]. revert info Hin.
  eapply (foldE_invariant (infoStep s language)
            (λ acc, ∀ info, info ∈ acc →
               (language +:+ "/") +:+ name info ∈ categories ∧
               outcome (getCategorySlugs ((language +:+ "/") +:+ name info) s) =
                 inr (posts info) ∧
               postCount info = length (posts info) ∧ (0 < postCount info)%nat));
    [|by intros ? ?%elem_of_nil | exact Hlist].
  intros acc c acc' Hc Hacc. unfold infoStep.
  destruct (Js.startsWith c (language +:+ "/")) eqn:Hp; [|intros [= <-]; exact Hacc].
  apply startsWith_decompose in Hp.
  remember (Js.drop (String.length (language +:+ "/")) c) as d eqn:Ed. clear Ed. subst c.
  destruct (arrayOutcome (readArray s (indexKey _))) as [e|slugs] eqn:Es; [done|].
  destruct slugs as [|sl slugs]; cbn [length Nat.eqb]; intros [= <-]; [exact Hacc|].
  intros info [Hin| ->%list_elem_of_singleton]%elem_of_app; [by apply Hacc|].
  cbn [name posts postCount]. rewrite replace_prefix.
  rewrite getCategorySlugs_run. cbn [outcome length].
  split_and!; [done | done | done | lia].
Qed.

Lemma split_parts_free c s p : p ∈ Js.split c s → occursIn c p = false.
Proof.
  revert p. induction s as [|x s IH]; intros p; cbn [Js.split].
  - by intros ->%list_elem_of_singleton.
  - destruct (Ascii.eqb x c) eqn:Ex.
    + intros [->|Hp]%elem_of_cons; [done | by apply IH].
    + destruct (Js.split c s) as [|q qs]; [by intros ->%list_elem_of_singleton; cbn; rewrite Ex|].
      intros [->|Hp]%elem_of_cons.
      * cbn [occursIn]. rewrite Ex. apply IH, list_elem_of_here.
      * apply IH. by apply list_elem_of_further.
Qed.

Lemma split_no_sep_one c s : occursIn c s = false → Js.split c s = [s].
Proof.
  induction s as [|x s IH]; [done|]. cbn [occursIn Js.split].
  intros [Hx Hs]%orb_false_iff. by rewrite Hx, (IH Hs).
Qed.

Lemma fullCategoryKey_two_segments payload :
  (3 ≤ length (Js.split "/" (payload_key payload)))%nat →
  length (Js.split "/" (fullCategoryKey payload)) = 2%nat.
Proof.
  intros Hlen. unfold fullCategoryKey.
  pose proof (split_parts_free "/" (payload_key payload)) as Hfree.
  destruct (Js.split "/" (payload_key payload)) as [|p0 [|p1 rest]]; cbn [length] in Hlen;
    [lia | lia |].
  unfold part. cbn [lookup list_lookup default from_option id].
  change ("/" +:+ p1) with (String "/" p1).
  rewrite split_app_sep by (apply Hfree; set_solver).
  rewrite split_no_sep_one by (apply Hfree; set_solver). done.
Qed.

Lemma appended_inv l x y : y ∈ appended l x → y = x ∨ y ∈ l.
Proof.
  unfold appended. destruct (arrayIncludes l x); [by right|].
  intros [Hy| ->%list_elem_of_singleton]%elem_of_app; [by right | by left].
Qed.

Lemma appended_nonempty l x : appended l x ≠ [].
Proof. pose proof (appended_elem l x) as Hin. intros E. rewrite E in Hin. by apply elem_of_nil in Hin. Qed.

Lemma catalogPopulated_frame s s' :
  (∀ k, indexOnly k → readArray s' k = readArray s k) →
  catalogPopulated s → catalogPopulated s'.
Proof.
  intros Hfr Hs categories c Ec Hc.
  rewrite Hfr in Ec by apply categoriesKey_is_index.
  destruct (Hs categories c Ec Hc) as (Hlen & slugs & Es & Hne).
  split; [done|]. exists slugs. by rewrite Hfr by apply indexKey_is_index.
Qed.

Lemma storeMarkdown_catalogPopulated payload st s :
  indexesWellFormed s → catalogPopulated s →
  catalogPopulated (kv (storeMarkdown payload st s)).
Proof.
  intros Hwf Hs.
  destruct (resolveMetadata payload) as [m|] eqn:Em;
    [|by rewrite storeMarkdown_run, Em].
  destruct (indexed payload st) eqn:Hi.
  - pose proof Hi as [-> Hlen]%indexed_spec.
    destruct (Hwf _ (indexKey_is_index (fullCategoryKey payload))) as (slugs & Es & _).
    destruct (Hwf _ categoriesKey_is_index) as (categories & Ec & _).
    destruct (storeMarkdown_indexed_ok payload s m slugs categories Em Hi Es Ec)
      as (_ & Es' & Ec').
    intros categories' c Ec'' Hc. rewrite Ec' in Ec''. injection Ec'' as <-.
    destruct (decide (c = fullCategoryKey payload)) as [->|Hne].
    { split; [by apply fullCategoryKey_two_segments|].
      eexists. split; [exact Es' | apply appended_nonempty]. }
    apply appended_inv in Hc as [?|Hc]; [done|].
    destruct (Hs categories c Ec Hc) as (Hlen2 & l & El & Hl).
    split; [done|]. exists l. split; [|done]. rewrite <- El.
    apply readArray_ext, storeMarkdown_frame.
    intros [E|[E|[_ [E|E]]]].
    + symmetry in E. by apply contentKey_not_indexKey in E.
    + symmetry in E. by apply metadataKey_not_indexKey in E.
    + by apply indexKey_inj in E.
    + apply (indexKey_inj _ "categories") in E. by subst c.
  - eapply catalogPopulated_frame; [|exact Hs].
    intros k Hk. apply readArray_ext, storeMarkdown_frame.
    intros [->|[->|[? _]]]; [| |congruence].
    + by apply not_indexOnly_contentKey in Hk.
    + by apply not_indexOnly_metadataKey in Hk.
Qed.

Lemma executeAll_catalogPopulated ops :
  ∀ s, indexesWellFormed s → catalogPopulated s → catalogPopulated (executeAll ops s).
Proof.
  induction ops as [|op ops IH]; intros s Hwf Hs; [done|]. cbn [executeAll foldl].
  apply IH.
  - eapply indexesWellFormed_grow; [apply execute_grows | done].
  - destruct op as [payload st| | | | | | | | | |];
      [by apply storeMarkdown_catalogPopulated | by rewrite execute_query ..].
Qed.

Lemma reachable_catalogPopulated s : reachable s → catalogPopulated s.
Proof.
  intros [ops ->]. apply executeAll_catalogPopulated; [apply indexesWellFormed_empty|].
  intros categories c Ec Hc. unfold readArray in Ec. rewrite lookup_empty in Ec.
  injection Ec as <-. by apply elem_of_nil in Hc.
Qed.

(** X12. The catalog holds only populated categories. In every state the
    system reaches, each entry of the catalog is a [language/category] of
    exactly two segments, and [getCategoryInfo] finds it: it returns the entry
    itself as name, the slugs of its index, of which there is at least one,
    and their number as count. *)
Theorem catalog_is_populated s categories category
    (Hs : reachable s)
    (Hcat : outcome (getCategories s) = inr categories)
    (Hin : category ∈ categories) :
  length (Js.split "/" category) = 2%nat ∧
  ∃ slugs,
    slugs ≠ [] ∧
    outcome (getCategorySlugs category s) = inr slugs ∧
    outcome (getCategoryInfo category s) = inr (Some (mkInfo category (length slugs) slugs)).
Proof.
  apply getCategories_outcome in Hcat.
  destruct (reachable_catalogPopulated s Hs categories category Hcat Hin)
    as (Hlen & slugs & Es & Hne).
  split; [done|]. exists slugs. split; [done|].
  rewrite getCategoryInfo_outcome, getCategorySlugs_run, Es. cbn [outcome arrayOutcome].
  split; [done|]. by destruct slugs.
Qed.
(** ** Further properties: the router *)

Lemma readsOnly_tryCatch {A} P (body : KV A) (handler : Error → KV A) :
  readsOnly P body → (∀ e, readsOnly P (handler e)) → readsOnly P (tryCatch body handler).
Proof.
  intros Hb Hh. split.
  - intros s. unfold tryCatch. destruct (outcome (body s)) as [e|a]; cbn [kv].
    + by rewrite (ro_store _ _ (Hh e)), (ro_store _ _ Hb).
    + apply (ro_store _ _ Hb).
  - intros s. unfold tryCatch. destruct (outcome (body s)) as [e|a]; cbn [log].
    + apply Forall_app. split; [apply (ro_log _ _ Hb) | apply (ro_log _ _ (Hh e))].
    + apply (ro_log _ _ Hb).
  - intros s s' Hag. unfold tryCatch.
    destruct (ro_frame _ _ Hb s s' Hag) as [Ho Hl]. rewrite Ho.
    destruct (outcome (body s')) as [e|a] eqn:E; cbn [outcome log]; [|by rewrite E].
    rewrite !(ro_store _ _ Hb), Hl.
    by destruct (ro_frame _ _ (Hh e) s s' Hag) as [-> ->].
Qed.

Lemma split_length_sep c a b :
  (1 + length (Js.split c b) ≤ length (Js.split c (a +:+ String c b)))%nat.
Proof.
  induction a as [|x a IH].
  - change ("" +:+ String c b) with (String c b). cbn [Js.split].
    rewrite Ascii.eqb_refl. cbn [length]. lia.
  - rewrite append_cons. cbn [Js.split]. destruct (Ascii.eqb x c).
    + cbn [length]. lia.
    + destruct (Js.split c (a +:+ String c b)) as [|p ps]; cbn [length] in *; lia.
Qed.

Lemma split_length_pos c s : (1 ≤ length (Js.split c s))%nat.
Proof.
  pose proof (split_nonempty c s). destruct (Js.split c s); [done | cbn [length]; lia].
Qed.

Lemma routeKey_long language category slug :
  (3 ≤ length (Js.split "/" (language +:+ "/" +:+ category +:+ "/" +:+ slug)))%nat.
Proof.
  pose proof (split_length_sep "/" language (category +:+ "/" +:+ slug)) as H1.
  pose proof (split_length_sep "/" category slug) as H2.
  pose proof (split_length_pos "/" slug) as H3.
  change ("/" +:+ category +:+ "/" +:+ slug) with (String "/" (category +:+ "/" +:+ slug)).
  change ("/" +:+ slug) with (String "/" slug) in *. lia.
Qed.

Lemma readsOnly_getPost_request key st : readsOnly (requestKey st) (getPost key st).
Proof.
  destruct (length (Js.split "/" key) <? 3)%nat eqn:E.
  - unfold getPost. rewrite E. apply readsOnly_ret.
  - eapply readsOnly_weaken; [|apply readsOnly_getPost].
    intros k Hk. right. exists key. split; [by apply Nat.ltb_ge | done].
Qed.

Lemma readsOnly_index_request {A} st (m : KV A) :
  readsOnly indexOnly m → readsOnly (requestKey st) m.
Proof. apply readsOnly_weaken. by left. Qed.

Lemma readsOnly_searchPosts_request q st lang :
  readsOnly (requestKey st) (searchPosts q st lang).
Proof.
  apply readsOnly_bind; [apply readsOnly_index_request, readsOnly_getCategories|].
  intros cats. apply readsOnly_forOf. intros acc c.
  destruct (Js.startsWith c _); [|apply readsOnly_ret].
  apply readsOnly_bind; [apply readsOnly_index_request, readsOnly_getCategorySlugs|].
  intros slugs. apply readsOnly_forOf. intros acc' sl.
  apply readsOnly_bind; [apply readsOnly_getPost_request|].
  intros [p|]; [|apply readsOnly_ret].
  apply readsOnly_bind; [apply readsOnly_matchesQuery|].
  intros hit. apply readsOnly_ret.
Qed.

Lemma readsOnly_getRecentPosts_request limit st lang :
  readsOnly (requestKey st) (getRecentPosts limit st lang).
Proof.
  apply readsOnly_bind; [|intros; apply readsOnly_ret].
  apply readsOnly_bind; [apply readsOnly_index_request, readsOnly_getCategories|].
  intros cats. apply readsOnly_forOf. intros acc c.
  destruct (Js.startsWith c _); [|apply readsOnly_ret].
  apply readsOnly_bind; [apply readsOnly_index_request, readsOnly_getCategorySlugs|].
  intros slugs. apply readsOnly_forOf. intros acc' sl.
  apply readsOnly_bind; [apply readsOnly_getPost_request|].
  intros [p|]; apply readsOnly_ret.
Qed.

Lemma readsOnly_listCategory_request lang c st :
  readsOnly (requestKey st) (listCategory lang c st).
Proof.
  apply readsOnly_bind; [apply readsOnly_index_request, readsOnly_getCategorySlugs|].
  intros slugs. apply readsOnly_forOf. intros acc sl.
  apply readsOnly_bind; [apply readsOnly_getPost_request|].
  intros [p|]; apply readsOnly_ret.
Qed.

Lemma readsOnly_handleAPIEndpoints pathname query :
  readsOnly (requestKey (readStatus query)) (handleAPIEndpoints pathname query).
Proof.
  unfold handleAPIEndpoints.
  destruct (matchTwo "/api/posts/" pathname) as [[category slug]|].
  { apply readsOnly_bind; [apply readsOnly_getPost_request|].
    intros [p|]; apply readsOnly_ret. }
  destruct (matchOne "/api/posts/" pathname) as [category|].
  { apply readsOnly_bind; [apply readsOnly_listCategory_request|].
    intros; apply readsOnly_ret. }
  destruct (String.eqb pathname "/api/categories").
  { apply readsOnly_bind; [apply readsOnly_index_request, readsOnly_listCategories|].
    intros; apply readsOnly_ret. }
  destruct (matchOne "/api/categories/" pathname) as [category|].
  { apply readsOnly_bind; [apply readsOnly_index_request, readsOnly_getCategoryInfo|].
    intros [i|]; apply readsOnly_ret. }
  destruct (String.eqb pathname "/api/search").
  { destruct (searchParam query "q") as [q|]; [|apply readsOnly_ret].
    destruct (Js.truthy q); [|apply readsOnly_ret].
    apply readsOnly_bind; [apply readsOnly_searchPosts_request|].
    intros; apply readsOnly_ret. }
  destruct (String.eqb pathname "/api/recent").
  { apply readsOnly_bind; [apply readsOnly_getRecentPosts_request|].
    intros; apply readsOnly_ret. }
  destruct (matchTwo "/api/metadata/" pathname) as [[category slug]|]; [|apply readsOnly_ret].
  apply readsOnly_bind.
  - eapply readsOnly_weaken; [|apply readsOnly_getPostMetadata].
    intros k ->. right. eexists. split; [apply routeKey_long | by right].
  - intros [m|]; apply readsOnly_ret.
Qed.

Lemma readsOnly_handleLegacyEndpoints pathname query :
  readsOnly (requestKey (readStatus query)) (handleLegacyEndpoints pathname query).
Proof.
  unfold handleLegacyEndpoints.
  destruct (matchTwo "/posts/" pathname) as [[category slug]|].
  { apply readsOnly_bind.
    - eapply readsOnly_weaken; [|apply readsOnly_getMarkdown].
      intros k ->. right. eexists. split; [apply routeKey_long | by left].
    - intros [c|]; [|apply readsOnly_ret]. destruct (Js.truthy c); apply readsOnly_ret. }
  destruct (matchOne "/posts/" pathname) as [category|].
  { apply readsOnly_bind; [apply readsOnly_index_request, readsOnly_getCategorySlugs|].
    intros; apply readsOnly_ret. }
  destruct (String.eqb pathname "/categories"); [|apply readsOnly_ret].
  apply readsOnly_bind; [apply readsOnly_index_request, readsOnly_getCategories|].
  intros; apply readsOnly_ret.
Qed.

Lemma readsOnly_fetch request :
  isSync request = false →
  readsOnly (requestKey (readStatus (req_query request))) (fetch request).
Proof.
  intros Hsync. unfold fetch, isSync in *.
  destruct (String.eqb (req_method request) "OPTIONS"); [apply readsOnly_ret|].
  apply readsOnly_tryCatch; [|intros; apply readsOnly_ret].
  destruct (String.eqb (req_pathname request) "/health"); [apply readsOnly_ret|].
  rewrite Hsync.
  destruct (Js.startsWith _ "/api/");
    [apply readsOnly_handleAPIEndpoints | apply readsOnly_handleLegacyEndpoints].
Qed.

Lemma tryCatch_outcome {A} (body : KV A) (handler : Error → KV A) s :
  outcome (tryCatch body handler s) =
  match outcome (body s) with
  | inl e => outcome (handler e (kv (body s)))
  | inr a => inr a
  end.
Proof. unfold tryCatch. by destruct (outcome (body s)) eqn:E. Qed.

Lemma tryCatch_returns {A} (body : KV A) (handler : Error → KV A) s :
  (∀ e s', ∃ a, outcome (handler e s') = inr a) →
  ∃ a, outcome (tryCatch body handler s) = inr a.
Proof.
  intros Hh. rewrite tryCatch_outcome. destruct (outcome (body s)) as [e|a]; [apply Hh|].
  by eexists.
Qed.

Lemma requestKey_queryKey st k : requestKey st k → queryKey st k.
Proof. intros [Hk|(key & _ & Hk)]; [by left | by eapply slotKey_queryKey]. Qed.

(** X13. Only the sync request writes. Whatever its method and its path,
    a request that is not [POST /sync] leaves the store as it is, performs only
    [get]s, each of an [index:] key or of a content or metadata key of the
    visibility the request asks for at a logical key of at least three
    segments, and is answered (nothing it throws escapes). *)
Theorem fetch_reads_only request s (Hsync : isSync request = false) :
  kv (fetch request s) = s ∧
  Forall (isGetIn (requestKey (readStatus (req_query request)))) (log (fetch request s)) ∧
  ∃ response, outcome (fetch request s) = inr response.
Proof.
  pose proof (readsOnly_fetch request Hsync) as Hro.
  split; [apply (ro_store _ _ Hro)|]. split; [apply (ro_log _ _ Hro)|].
  unfold fetch. destruct (String.eqb (req_method request) "OPTIONS"); [by eexists|].
  apply tryCatch_returns. intros; by eexists.
Qed.

Lemma draft_write_unseen payload s request
    (Hsync : isSync request = false)
    (Hst : readStatus (req_query request) = Published) :
  outcome (fetch request (kv (storeMarkdown payload Draft s))) = outcome (fetch request s) ∧
  log (fetch request (kv (storeMarkdown payload Draft s))) = log (fetch request s).
Proof.
  pose proof (readsOnly_fetch request Hsync) as Hro. rewrite Hst in Hro.
  apply (ro_frame _ _ Hro). apply agree_sym.
  eapply agree_of_frame; [apply storeMarkdown_frame|].
  intros k Hk. apply (writeKey_unindexed _ Draft Published); [done | apply indexed_draft|].
  by apply requestKey_queryKey.
Qed.

Lemma short_write_unseen payload st s request
    (Hlen : (length (Js.split "/" (payload_key payload)) < 3)%nat)
    (Hsync : isSync request = false) :
  outcome (fetch request (kv (storeMarkdown payload st s))) = outcome (fetch request s).
Proof.
  apply (frame_outcome _ _ _ _ (readsOnly_fetch request Hsync)). apply agree_sym.
  eapply agree_of_frame; [apply storeMarkdown_frame|].
  assert (Hi : indexed payload st = false) by (apply indexed_false; auto).
  intros k Hk [->|[->|[Hidx _]]]; [| |congruence].
  - destruct Hk as [Hk|(key & Hlong & [E|E])].
    + by apply not_indexOnly_contentKey in Hk.
    + pose proof (contentKey_slot _ _ _ _ E) as ->. apply contentKey_inj in E. subst key. lia.
    + by apply contentKey_not_metadataKey in E.
  - destruct Hk as [Hk|(key & Hlong & [E|E])].
    + by apply not_indexOnly_metadataKey in Hk.
    + symmetry in E. by apply contentKey_not_metadataKey in E.
    + pose proof (metadataKey_slot _ _ _ _ E) as ->. apply metadataKey_inj in E. subst key. lia.
Qed.
(** ** Further properties: status codes *)








(** ** Further properties: syncing, then reading *)


Lemma handleSync_complete request body s :
  req_json request = Some body → complete body = true →
  kv (handleSync request s) = kv (storeMarkdown (payloadOf body) (syncStatus body) s) ∧
  log (handleSync request s) = log (storeMarkdown (payloadOf body) (syncStatus body) s) ∧
  outcome (handleSync request s) =
    inr (match outcome (storeMarkdown (payloadOf body) (syncStatus body) s) with
         | inr _ => createResponse (DMessage "Content synced successfully") 200
         | inl _ => createErrorResponse "Invalid JSON payload" 400
         end).
Proof.
  intros Eb Hc. unfold handleSync, complete, payloadOf in *. rewrite Eb, Hc.
  unfold tryCatch. rewrite run_bind.
  destruct (outcome (storeMarkdown _ _ s)) as [e|[]]; cbn [kv log outcome];
    by rewrite ?app_nil_r.
Qed.

Lemma handleSync_incomplete request s :
  match req_json request with Some body => complete body = false | None => True end →
  kv (handleSync request s) = s ∧ log (handleSync request s) = [] ∧
  ∃ message, outcome (handleSync request s) = inr (createErrorResponse message 400).
Proof.
  unfold handleSync, complete. destruct (req_json request) as [body|].
  - intros ->. split_and!; [done | done | by eexists].
  - intros _. split_and!; [done | done | by eexists].
Qed.







Lemma tryCatch_kv {A} (body : KV A) (handler : Error → KV A) s :
  (∀ e s', kv (handler e s') = s') → kv (tryCatch body handler s) = kv (body s).
Proof. intros Hh. unfold tryCatch. destruct (outcome (body s)); [apply Hh | done]. Qed.


Lemma fetch_api request s :
  String.eqb (req_method request) "OPTIONS" = false →
  String.eqb (req_pathname request) "/health" = false →
  isSync request = false →
  Js.startsWith (req_pathname request) "/api/" = true →
  outcome (fetch request s) =
    match outcome (handleAPIEndpoints (req_pathname request) (req_query request) s) with
    | inl _ => inr (createErrorResponse "Internal server error" 500)
    | inr response => inr response
    end.
Proof. unfold isSync, fetch. intros -> -> -> ->. by rewrite tryCatch_outcome. Qed.



(** *** What a request leaves in the store *)

Lemma fetch_kv request s :
  kv (fetch request s) = s ∨
  ∃ body, req_json request = Some body ∧ complete body = true ∧
          kv (fetch request s) = kv (storeMarkdown (payloadOf body) (syncStatus body) s).
Proof.
  destruct (isSync request) eqn:Hsync;
    [|left; apply (ro_store _ _ (readsOnly_fetch request Hsync))].
  unfold fetch. destruct (String.eqb (req_method request) "OPTIONS"); [by left|].
  rewrite tryCatch_kv by done.
  destruct (String.eqb (req_pathname request) "/health"); [by left|].
  unfold isSync in Hsync. rewrite Hsync.
  destruct (req_json request) as [body|] eqn:Eb.
  - destruct (complete body) eqn:Hc.
    + right. exists body. by destruct (handleSync_complete request body s Eb Hc) as [-> _].
    + left. by destruct (handleSync_incomplete request s) as [-> _]; [rewrite Eb|].
  - left. by destruct (handleSync_incomplete request s) as [-> _]; [rewrite Eb|].
Qed.

(** X17. Drafts are invisible by default. Whatever a request did whose body
    does not say [status: published] (a sync without a status, or with any
    other one, stores a draft), the answer to a later request that is not the
    sync request and does not ask for [status=draft] is what it would have
    been without it, and so are the reads it performs. *)
Theorem drafts_invisible_by_default first request s
    (Hfirst : ∀ body, req_json first = Some body → body_status body ≠ Some "published")
    (Hsync : isSync request = false)
    (Hst : readStatus (req_query request) = Published) :
  outcome (fetch request (kv (fetch first s))) = outcome (fetch request s) ∧
  log (fetch request (kv (fetch first s))) = log (fetch request s).
Proof.
  destruct (fetch_kv first s) as [->|(body & Eb & _ & ->)]; [done|].
  assert (syncStatus body = Draft) as ->; [|by apply draft_write_unseen].
  specialize (Hfirst body Eb). unfold syncStatus.
  destruct (body_status body) as [v|]; [|done].
  destruct (String.eqb_spec v "published") as [->|]; done.
Qed.

(** X18. A document at a short key cannot be seen over HTTP. Whatever a
    request did whose body carries a key of fewer than three segments, at
    either visibility, the answer to every later request that is not the sync
    request is what it would have been without it: no route reads what was
    stored. *)
Theorem short_key_invisible_over_http first request s
    (Hfirst : ∀ body key, req_json first = Some body → body_key body = Some key →
                (length (Js.split "/" key) < 3)%nat)
    (Hsync : isSync request = false) :
  outcome (fetch request (kv (fetch first s))) = outcome (fetch request s).
Proof.
  destruct (fetch_kv first s) as [->|(body & Eb & Hc & ->)]; [done|].
  apply short_write_unseen; [|done].
  unfold complete in Hc. destruct (body_key body) as [key|] eqn:Ek; [|done].
  unfold payloadOf. rewrite Ek. cbn [payload_key default from_option id]. by eapply Hfirst.
Qed.
(** ** Further properties: the two category lists *)

Lemma infoStep_populated s language categories :
  (∀ c, c ∈ categories → ∃ slugs, readArray s (indexKey c) = Some slugs ∧ slugs ≠ []) →
  ∀ acc, ∃ infos,
    foldE (infoStep s language) acc categories = inr (acc ++ infos) ∧
    name <$> infos =
      (λ cat, Js.replace cat (language +:+ "/") "") <$>
        filter (λ cat, Js.startsWith cat (language +:+ "/") = true) categories.
Proof.
  induction categories as [|c cs IH]; intros Hpop acc.
  - exists []. by rewrite app_nil_r.
  - cbn [foldE]. unfold infoStep at 1.
    destruct (Js.startsWith c (language +:+ "/")) eqn:Hp.
    + destruct (Hpop c) as (slugs & -> & Hne); [apply list_elem_of_here|].
      cbn [arrayOutcome]. destruct slugs as [|sl slugs]; [done|]. cbn [length Nat.eqb].
      destruct (IH (λ c' Hc', Hpop c' (list_elem_of_further _ _ _ Hc'))
                  (acc ++ [mkInfo (Js.replace c (language +:+ "/") "")
                             (S (length slugs)) (sl :: slugs)])) as (infos & -> & Hn).
      eexists (_ :: infos). rewrite <- app_assoc. split; [done|].
      rewrite filter_cons_True by done. cbn [fmap list_fmap name]. by f_equal.
    + destruct (IH (λ c' Hc', Hpop c' (list_elem_of_further _ _ _ Hc')) acc)
        as (infos & -> & Hn).
      exists infos. split; [done|]. rewrite filter_cons_False; [done|]. by rewrite Hp.
Qed.

(** X19. The two category lists agree. In every state the system reaches
    and for every query string, [GET /api/categories] answers 200 with the
    category entries of the language, and the legacy [GET /categories]
    answers 200 with exactly the names of those entries, in the same order:
    the newer route, which drops categories without slugs, drops none. *)
Theorem category_lists_agree query s (Hs : reachable s) :
  ∃ infos,
    outcome (handleAPIEndpoints "/api/categories" query s) =
      inr (createResponse (DCategoryInfos infos) 200) ∧
    outcome (handleLegacyEndpoints "/categories" query s) =
      inr (mkResponse 200 [("Content-Type", "application/json")] (BArray (name <$> infos))).
Proof.
  pose proof (reachable_catalogPopulated s Hs) as Hpop.
  destruct (reachable_wellFormed s Hs _ categoriesKey_is_index) as (categories & Ec & _).
  destruct (infoStep_populated s (language_of query) categories) with (acc := @nil CategoryInfo)
    as (infos & Hfold & Hnames).
  { intros c Hc. by destruct (Hpop categories c Ec Hc) as (_ & slugs & ? & ?); exists slugs. }
  exists infos. split.
  - change (handleAPIEndpoints "/api/categories" query)
      with (categoryInfos ← listCategories (language_of query);
            mret (createResponse (DCategoryInfos categoryInfos) 200)).
    rewrite run_bind, listCategories_outcome, Ec. cbn [arrayOutcome]. by rewrite Hfold.
  - change (handleLegacyEndpoints "/categories" query)
      with (categories ← getCategories;
            mret (mkResponse 200 [("Content-Type", "application/json")]
                    (BArray ((λ cat, Js.replace cat (language_of query +:+ "/") "") <$>
                             filter (λ cat, Js.startsWith cat (language_of query +:+ "/") = true)
                               categories)))).
    rewrite run_bind, getCategories_run, Ec. cbn [outcome arrayOutcome]. by rewrite Hnames.
Qed.
(** ** Further properties: a post without a title *)

(** X20. One post without a title breaks the search of its language. In a
    state the system reaches, publish a payload that brings its own metadata,
    without a title (metadata given with the payload is not validated), at a
    key [language/category/slug] with a content that is not empty: the write
    succeeds, and from then on [searchPosts] over published posts of that
    language throws a [TypeError] for every query, so that
    [GET /api/search?q=query&lang=language] answers 500 whatever is searched. *)
Theorem untitled_post_breaks_search payload s language category slug m query
    (Hs : reachable s)
    (Hkey : Js.split "/" (payload_key payload) = [language; category; slug])
    (Hm : payload_metadata payload = Some m)
    (Htitle : title m = None)
    (Hc : payload_content payload ≠ "") :
  let after := kv (storeMarkdown payload Published s) in
  outcome (storeMarkdown payload Published s) = inr tt ∧
  outcome (searchPosts query Published language after) = inl TypeError ∧
  (query ≠ "" → language ≠ "" →
   outcome (fetch (searchRequest query language) after) =
     inr (createErrorResponse "Internal server error" 500)).
Proof.
  intros after.
  assert (Hr : resolveMetadata payload = Some m) by (unfold resolveMetadata; by rewrite Hm).
  destruct (published_collected payload s language category slug m Hs Hkey Hr Hc)
    as (Hok & _ & _ & _ & _ & all & Eall & Hin).
  fold after in Eall.
  assert (Hsearch : outcome (searchPosts query Published language after) = inl TypeError).
  { rewrite collectPosts_outcome in Eall. rewrite searchPosts_outcome.
    destruct (arrayOutcome (readArray after categoriesKey)) as [e|categories]; [done|].
    rewrite (overCatalog_search _ _ _ _ _ _ Eall).
    assert (forallb titled all = false) as ->; [|done].
    apply not_true_iff_false. intros Hall. rewrite forallb_forall in Hall.
    apply list_elem_of_In, Hall in Hin. unfold titled in Hin. cbn in Hin.
    by rewrite Htitle in Hin. }
  split_and!; [done | done |].
  intros Hq Hl. rewrite fetch_api by reflexivity.
  cbn [req_pathname req_query searchRequest].
  change (handleAPIEndpoints "/api/search" [("q", query); ("lang", language)])
    with (if Js.truthy query
          then results ← searchPosts query Published
                          (language_of [("q", query); ("lang", language)]);
               mret (createResponse (DPosts results) 200)
          else mret (createErrorResponse queryRequired 400)).
  apply truthy_true in Hq as ->.
  assert (language_of [("q", query); ("lang", language)] = language) as ->.
  { unfold language_of. cbn. by apply truthy_true in Hl as ->. }
  by rewrite run_bind, Hsearch.
Qed.
(** ** Further properties: headers and limits *)

Lemma bind_inr {A B} (m : KV A) (f : A → KV B) s b :
  outcome ((m ≫= f) s) = inr b → ∃ a s', outcome (f a s') = inr b.
Proof.
  rewrite run_bind. destruct (outcome (m s)) as [e|a]; cbn [outcome]; [done|]. eauto.
Qed.

Lemma allowsCrossOrigin_createResponse data code : allowsCrossOrigin (createResponse data code).
Proof. intros h Hh. cbn. by do 2 apply list_elem_of_further. Qed.

Lemma allowsCrossOrigin_createErrorResponse message code :
  allowsCrossOrigin (createErrorResponse message code).
Proof. intros h Hh. cbn. by apply list_elem_of_further. Qed.

Lemma handleSync_allowsCrossOrigin request s response :
  outcome (handleSync request s) = inr response → allowsCrossOrigin response.
Proof.
  unfold handleSync. rewrite tryCatch_outcome.
  destruct (req_json request) as [body|];
    [|intros [= <-]; apply allowsCrossOrigin_createErrorResponse].
  destruct (_ && _).
  - rewrite run_bind. destruct (outcome (storeMarkdown _ _ s)) as [e|[]]; intros [= <-];
      [apply allowsCrossOrigin_createErrorResponse | apply allowsCrossOrigin_createResponse].
  - intros [= <-]. apply allowsCrossOrigin_createErrorResponse.
Qed.

Lemma handleAPIEndpoints_allowsCrossOrigin pathname query s response :
  outcome (handleAPIEndpoints pathname query s) = inr response → allowsCrossOrigin response.
Proof.
  unfold handleAPIEndpoints.
  destruct (matchTwo "/api/posts/" pathname) as [[category slug]|].
  { intros ([p|] & s' & [= <-])%bind_inr;
      [apply allowsCrossOrigin_createResponse | apply allowsCrossOrigin_createErrorResponse]. }
  destruct (matchOne "/api/posts/" pathname) as [category|].
  { intros (posts & s' & [= <-])%bind_inr. apply allowsCrossOrigin_createResponse. }
  destruct (String.eqb pathname "/api/categories").
  { intros (infos & s' & [= <-])%bind_inr. apply allowsCrossOrigin_createResponse. }
  destruct (matchOne "/api/categories/" pathname) as [category|].
  { intros ([i|] & s' & [= <-])%bind_inr;
      [apply allowsCrossOrigin_createResponse | apply allowsCrossOrigin_createErrorResponse]. }
  destruct (String.eqb pathname "/api/search").
  { destruct (searchParam query "q") as [q|];
      [|intros [= <-]; apply allowsCrossOrigin_createErrorResponse].
    destruct (Js.truthy q); [|intros [= <-]; apply allowsCrossOrigin_createErrorResponse].
    intros (posts & s' & [= <-])%bind_inr. apply allowsCrossOrigin_createResponse. }
  destruct (String.eqb pathname "/api/recent").
  { intros (posts & s' & [= <-])%bind_inr. apply allowsCrossOrigin_createResponse. }
  destruct (matchTwo "/api/metadata/" pathname) as [[category slug]|].
  - intros ([m|] & s' & [= <-])%bind_inr;
      [apply allowsCrossOrigin_createResponse | apply allowsCrossOrigin_createErrorResponse].
  - intros [= <-]. apply allowsCrossOrigin_createErrorResponse.
Qed.

(** X21. Cross-origin access. The answer to a preflight ([OPTIONS], any
    path), to the health check, to a sync and to every request under [/api/]
    carries the three CORS headers, whatever the store holds and whether the
    request succeeds, is refused, finds nothing or ends in the catch-all 500. *)
Theorem api_allows_cross_origin request s response
    (Hroute : req_method request = "OPTIONS" ∨ req_pathname request = "/health" ∨
              isSync request = true ∨ Js.startsWith (req_pathname request) "/api/" = true)
    (Hout : outcome (fetch request s) = inr response) :
  allowsCrossOrigin response.
Proof.
  unfold fetch in Hout.
  destruct (String.eqb_spec (req_method request) "OPTIONS") as [Ho|Ho].
  { injection Hout as <-. by intros h Hh. }
  rewrite tryCatch_outcome in Hout.
  destruct (String.eqb_spec (req_pathname request) "/health") as [Hh|Hh].
  { injection Hout as <-. apply allowsCrossOrigin_createResponse. }
  unfold isSync in Hroute.
  destruct (String.eqb (req_pathname request) "/sync" && String.eqb (req_method request) "POST").
  { destruct (outcome (handleSync request s)) as [e|r] eqn:E; injection Hout as <-;
      [apply allowsCrossOrigin_createErrorResponse | by eapply handleSync_allowsCrossOrigin]. }
  destruct Hroute as [?|[?|[?|Hapi]]]; [done | done | done |]. rewrite Hapi in Hout.
  destruct (outcome (handleAPIEndpoints _ _ s)) as [e|r] eqn:E; injection Hout as <-;
    [apply allowsCrossOrigin_createErrorResponse | by eapply handleAPIEndpoints_allowsCrossOrigin].
Qed.

(** X22. The limit of the recent posts. [GET /api/recent], when it is
    answered by the route, answers 200 with posts; without a [limit]
    parameter there are at most ten of them, and with a [limit] that
    [parseInt] does not read as a number there are none. *)
Theorem recent_route_limit query s response
    (Hout : outcome (handleAPIEndpoints "/api/recent" query s) = inr response) :
  ∃ posts,
    response = createResponse (DPosts posts) 200 ∧
    (searchParam query "limit" = None → (length posts ≤ 10)%nat) ∧
    (JsNumber.parseInt (orElse (searchParam query "limit") "10") = None → posts = []).
Proof.
  change (handleAPIEndpoints "/api/recent" query)
    with (posts ← getRecentPosts
                    (default 0%Z (JsNumber.parseInt (orElse (searchParam query "limit") "10")))
                    (readStatus query) (language_of query);
          mret (createResponse (DPosts posts) 200)) in Hout.
  rewrite run_bind, getRecentPosts_run_outcome in Hout.
  destruct (outcome (collectPosts _ _ s)) as [e|all]; [done|]. cbn [outcome] in Hout.
  injection Hout as <-. eexists. split; [done|]. split.
  - intros ->. change (JsNumber.parseInt (orElse None "10")) with (Some 10%Z).
    cbn [default from_option id]. rewrite slice0_length by lia. lia.
  - intros ->. cbn [default from_option id]. unfold slice0.
    change (0 <? 0)%Z with false. cbv iota. by rewrite Z.min_l by lia.
Qed.
End Theory.

(** * Part V: the runtime satisfies its interface *)

(** ** The compact reader inverts the printer *)

Module CompactJsonFacts.
Import CompactJson.

Lemma readChars_printChar c t :
  readChars (printChar c t) = (λ r : string * string, (String c r.1, r.2)) <$> readChars t.
Proof.
  destruct c as [[] [] [] [] [] [] [] []]; unfold printChar; simpl; reflexivity.
Qed.

Lemma readChars_printChars s k : readChars (printChars s (String dquote k)) = Some (s, k).
Proof.
  induction s as [|c s IH]; [done|].
  change (printChars (String c s) (String dquote k))
    with (printChar c (printChars s (String dquote k))).
  by rewrite readChars_printChar, IH.
Qed.

Lemma readString_printString s k : readString (printString s k) = Some (s, k).
Proof. unfold printString. cbn. apply readChars_printChars. Qed.

Lemma length_printChar c k : (String.length k < String.length (printChar c k))%nat.
Proof. unfold printChar. repeat case_match; simpl; clear; lia. Qed.

Lemma length_printChars s k : (String.length k ≤ String.length (printChars s k))%nat.
Proof.
  induction s as [|c s IH]; simpl; [lia|].
  pose proof (length_printChar c (printChars s k)). lia.
Qed.

Lemma length_printString s k : (String.length k + 2 ≤ String.length (printString s k))%nat.
Proof.
  unfold printString. simpl.
  pose proof (length_printChars s (String dquote k)). simpl in *. lia.
Qed.

Local Arguments printString : simpl never.
Local Arguments printProp : simpl never.

Lemma length_printElems l k : (length l + String.length k ≤ String.length (printElems l k))%nat.
Proof.
  induction l as [|x l IH]; [simpl; lia|].
  destruct l as [|y l].
  - change (printElems [x] k) with (printString x k).
    pose proof (length_printString x k). simpl length. lia.
  - change (printElems (x :: y :: l) k)
      with (printString x (String "," (printElems (y :: l) k))).
    pose proof (length_printString x (String "," (printElems (y :: l) k))).
    simpl in *. lia.
Qed.

Lemma readElems_printElems l : ∀ x fuel k,
  (length l < fuel)%nat →
  readElems fuel (printElems (x :: l) (String "]" k)) = Some (x :: l, k).
Proof.
  induction l as [|y l IH]; intros x fuel k Hf; (destruct fuel as [|fuel]; [simpl in Hf; lia|]).
  - change (printElems [x] (String "]" k)) with (printString x (String "]" k)).
    cbn [readElems]. by rewrite readString_printString.
  - change (printElems (x :: y :: l) (String "]" k))
      with (printString x (String "," (printElems (y :: l) (String "]" k)))).
    cbn [readElems]. rewrite readString_printString.
    change (Ascii.eqb "," ",") with true. cbv iota.
    rewrite IH by (simpl in Hf; lia). done.
Qed.

Lemma readArrayText_printArray l k : readArrayText (printArray l k) = Some (l, k).
Proof.
  destruct l as [|x l]; [done|].
  unfold printArray, readArrayText.
  change (Ascii.eqb "[" "[") with true. cbv iota.
  assert (∃ t, printElems (x :: l) (String "]" k) = String dquote t) as [t Et].
  { destruct l; simpl; unfold printString; eauto. }
  rewrite Et. change (Ascii.eqb dquote "]") with false. cbv iota.
  rewrite <- Et. apply readElems_printElems.
  pose proof (length_printElems (x :: l) (String "]" k)). simpl in *. lia.
Qed.

Lemma parse_stringify_array l : parse_array (stringify_array l) = Some l.
Proof. unfold parse_array, stringify_array. by rewrite readArrayText_printArray. Qed.

Lemma readValue_printValue v k : readValue (printValue v k) = Some (v, k).
Proof.
  destruct v as [s|l]; cbn [printValue].
  - change (printString s k) with (String dquote (printChars s (String dquote k))).
    unfold readValue. change (Ascii.eqb dquote dquote) with true. cbv iota.
    change (String dquote (printChars s (String dquote k))) with (printString s k).
    by rewrite readString_printString.
  - change (printArray l k) with (String "[" (printElems l (String "]" k))).
    unfold readValue. change (Ascii.eqb "[" dquote) with false. cbv iota.
    change (String "[" (printElems l (String "]" k))) with (printArray l k).
    by rewrite readArrayText_printArray.
Qed.

Lemma readProp_printProp p k : readProp (printProp p k) = Some (p, k).
Proof.
  destruct p as [key v]. unfold readProp, printProp. cbn [fst snd].
  rewrite readString_printString.
  change (Ascii.eqb ":" ":") with true. cbv iota.
  by rewrite readValue_printValue.
Qed.

Lemma length_printValue v k : (String.length k < String.length (printValue v k))%nat.
Proof.
  destruct v as [s|l]; cbn [printValue].
  - pose proof (length_printString s k). lia.
  - pose proof (length_printElems l (String "]" k)) as Hl.
    change (printArray l k) with (String "[" (printElems l (String "]" k))).
    cbn [String.length] in *. lia.
Qed.

Lemma length_printProp p k : (String.length k + 3 ≤ String.length (printProp p k))%nat.
Proof.
  unfold printProp.
  pose proof (length_printString p.1 (String ":" (printValue p.2 k))) as H1.
  pose proof (length_printValue p.2 k) as H2. cbn [String.length] in H1. lia.
Qed.

Lemma length_printProps ps k : (length ps + String.length k ≤ String.length (printProps ps k))%nat.
Proof.
  induction ps as [|p ps IH]; [simpl; lia|].
  destruct ps as [|q ps].
  - change (printProps [p] k) with (printProp p k).
    pose proof (length_printProp p k). simpl length. lia.
  - change (printProps (p :: q :: ps) k)
      with (printProp p (String "," (printProps (q :: ps) k))).
    pose proof (length_printProp p (String "," (printProps (q :: ps) k))).
    simpl in *. lia.
Qed.

Lemma readProps_printProps ps : ∀ p fuel k,
  (length ps < fuel)%nat →
  readProps fuel (printProps (p :: ps) (String "}" k)) = Some (p :: ps, k).
Proof.
  induction ps as [|q ps IH]; intros p fuel k Hf; (destruct fuel as [|fuel]; [simpl in Hf; lia|]).
  - change (printProps [p] (String "}" k)) with (printProp p (String "}" k)).
    cbn [readProps]. by rewrite readProp_printProp.
  - change (printProps (p :: q :: ps) (String "}" k))
      with (printProp p (String "," (printProps (q :: ps) (String "}" k)))).
    cbn [readProps]. rewrite readProp_printProp.
    change (Ascii.eqb "," ",") with true. cbv iota.
    rewrite IH by (simpl in Hf; lia). done.
Qed.

Lemma readObjectText_printObject ps k : readObjectText (printObject ps k) = Some (ps, k).
Proof.
  destruct ps as [|p ps]; [done|].
  unfold printObject, readObjectText.
  change (Ascii.eqb "{" "{") with true. cbv iota.
  assert (∃ t, printProps (p :: ps) (String "}" k) = String dquote t) as [t Et].
  { destruct ps; simpl; unfold printProp, printString; eauto. }
  rewrite Et. change (Ascii.eqb dquote "}") with false. cbv iota.
  rewrite <- Et. apply readProps_printProps.
  pose proof (length_printProps (p :: ps) (String "}" k)). simpl in *. lia.
Qed.

Lemma assignProps_metadataProps m : assignProps emptyMetadata (metadataProps m) = Some m.
Proof.
  destruct m as [[t|] [d|] [a|] [s|] [c|] [e|] [g|] [l|]]; reflexivity.
Qed.

Lemma falsyText_printObject ps : falsyText (printObject ps "") = false.
Proof. reflexivity. Qed.

Lemma parse_stringify_metadata m : parse_metadata (stringify_metadata m) = Some (Some m).
Proof.
  unfold parse_metadata, stringify_metadata.
  rewrite falsyText_printObject, readObjectText_printObject.
  by rewrite assignProps_metadataProps.
Qed.

End CompactJsonFacts.

Global Instance compactJson : Json := {|
  JSON_stringify_metadata := CompactJson.stringify_metadata;
  JSON_parse_metadata := CompactJson.parse_metadata;
  JSON_stringify_array := CompactJson.stringify_array;
  JSON_parse_array := CompactJson.parse_array;
  JSON_parse_stringify_metadata := CompactJsonFacts.parse_stringify_metadata;
  JSON_parse_stringify_array := CompactJsonFacts.parse_stringify_array;
  JSON_stringify_metadata_truthy := λ _, eq_refl;
  JSON_stringify_array_truthy := λ _, eq_refl
|}.

Global Instance isoDate : DateParser := IsoDate.getTime.

(** * Part VI: the claims on concrete inputs *)

(** Claim C1 at a published write into the empty namespace. *)
Lemma round_trip_witness :
  ∃ post,
    outcome (getPost "en/tech/a" Published (kv (storeMarkdown hello Published ∅))) =
      inr (Some post) ∧
    content post = helloDoc ∧ metadata post = helloMeta ∧
    last (Js.split "/" "en/tech/a") = Some (slug post).
Proof.
  apply (round_trip hello Published ∅ helloMeta); [vm_compute; lia | reflexivity | done].
Defined.

(** Claim C1 as stated fails at an empty content with explicit, valid
    metadata: the key has three segments, the write succeeds and stores the
    content and the metadata, and [getPost] answers "not found". *)
Lemma round_trip_empty_content :
  let payload := mkPayload "en/tech/a" "" (Some helloMeta) in
  let written := storeMarkdown payload Draft ∅ in
  length (Js.split "/" (payload_key payload)) = 3%nat ∧
  resolveMetadata payload = Some helloMeta ∧ missingRequired helloMeta = false ∧
  outcome written = inr tt ∧
  kv written !! contentKey Draft "en/tech/a" = Some (payload_content payload) ∧
  kv written !! metadataKey Draft "en/tech/a" = Some (JSON_stringify_metadata helloMeta) ∧
  outcome (getPost "en/tech/a" Draft (kv written)) = inr None.
Proof. by vm_compute. Qed.


(** Claim C3 at the published write of [en/tech/a] into the empty
    namespace: the indexes are read and end as [a] and [en/tech]. *)
Lemma index_update_condition_witness :
  let r := storeMarkdown hello Published ∅ in
  touchesIndex (log r) = true ∧ outcome r = inr tt ∧
  outcome (getCategorySlugs "en/tech" (kv r)) = inr ["a"] ∧
  outcome (getCategories (kv r)) = inr ["en/tech"].
Proof.
  destruct (index_update_condition hello Published ∅ helloMeta eq_refl) as (Hlog & _ & Hidx).
  split; [apply Hlog; split; [done | vm_compute; lia]|].
  apply (Hidx eq_refl ltac:(vm_compute; lia) [] [] eq_refl eq_refl).
Defined.

(** Claim C3 as stated fails at a published key of four segments: the
    write reads and writes both indexes, entering the third segment. *)
Lemma index_update_four_segments :
  let payload := mkPayload "en/tech/a/b" helloDoc None in
  let r := storeMarkdown payload Published ∅ in
  length (Js.split "/" (payload_key payload)) = 4%nat ∧
  resolveMetadata payload = Some helloMeta ∧
  touchesIndex (log r) = true ∧
  outcome (getCategorySlugs "en/tech" (kv r)) = inr ["a"] ∧
  outcome (getCategories (kv r)) = inr ["en/tech"].
Proof. by vm_compute. Qed.


(** Claim C5 at a store that already holds another post of the category. *)
Lemma index_idempotence_witness :
  let store := executeAll [StoreMarkdown (mkPayload "en/tech/b" helloDoc None) Published] ∅ in
  let once := storeMarkdown hello Published store in
  let twice := storeMarkdown hello Published (kv once) in
  (kv twice = kv once ∧ outcome twice = outcome once) ∧
  outcome once = inr tt ∧
  ∃ slugs categories,
    outcome (getCategorySlugs "en/tech" (kv twice)) = inr slugs ∧
    outcome (getCategories (kv twice)) = inr categories ∧
    occurrences "a" slugs = 1%nat ∧ occurrences "en/tech" categories = 1%nat.
Proof.
  destruct (index_idempotence hello
              (executeAll [StoreMarkdown (mkPayload "en/tech/b" helloDoc None) Published] ∅))
    as [Hsame Hsys].
  split; [exact Hsame|].
  apply (Hsys helloMeta); [by eexists | reflexivity | vm_compute; lia].
Defined.

(** Claim C7 as stated fails at a key of two segments: content and metadata
    are both in the store, and [getPost] answers "not found". *)
Lemma getPost_short_key_not_found :
  let store := kv (storeMarkdown (mkPayload "tech/a" helloDoc None) Published ∅) in
  store !! contentKey Published "tech/a" = Some helloDoc ∧
  store !! metadataKey Published "tech/a" = Some (JSON_stringify_metadata helloMeta) ∧
  outcome (getPost "tech/a" Published store) = inr None.
Proof. by vm_compute. Qed.

(** Claim C10 at a draft write of a two-segment key. *)
Lemma short_key_lookup_witness :
  let payload := mkPayload "tech/a" helloDoc None in
  let r := storeMarkdown payload Draft ∅ in
  outcome r = inr tt ∧ touchesIndex (log r) = false ∧
  outcome (getMarkdown "tech/a" Draft (kv r)) = inr (Some helloDoc) ∧
  outcome (getPostMetadata "tech/a" Draft (kv r)) = inr (Some helloMeta) ∧
  outcome (getPost "tech/a" Draft (kv r)) = inr None.
Proof.
  destruct (short_key_lookup (mkPayload "tech/a" helloDoc None) Draft ∅ helloMeta)
    as ((Hout & Hlog & _) & (Hc & Hm) & Hlookup); [vm_compute; lia | reflexivity |].
  split; [exact Hout|]. split; [exact Hlog|]. exact (Hlookup _ Hc Hm).
Defined.

(** Claim C10 as stated fails for the point lookup: a two-segment document
    is stored, its content and its metadata are returned by the two plain
    lookups, and [getPost] at the same key and visibility answers "not
    found". *)
Lemma short_key_getPost_not_found :
  let payload := mkPayload "tech/a" helloDoc None in
  let store := kv (storeMarkdown payload Published ∅) in
  length (Js.split "/" (payload_key payload)) = 2%nat ∧
  outcome (getMarkdown "tech/a" Published store) = inr (Some helloDoc) ∧
  outcome (getPostMetadata "tech/a" Published store) = inr (Some helloMeta) ∧
  outcome (getPost "tech/a" Published store) = inr None.
Proof. by vm_compute. Qed.

(** ** Recent posts: the scenario of the specification *)

(** Claim C9 at the scenario: posts dated January, March and February, and
    [recent(2, published, en)]; the result is March then February. *)
Lemma recent_ordering_witness :
  ∃ recent,
    outcome (getRecentPosts 2 Published "en" threeMonths) = inr recent ∧
    slug <$> recent = ["mar"; "feb"] ∧
    ∃ allPosts sorted,
      outcome (collectPosts Published "en" threeMonths) = inr allPosts ∧
      sorted ≡ₚ allPosts ∧ recent `prefix_of` sorted ∧
      ((0 ≤ 2)%Z → length recent = Z.to_nat 2 `min` length allPosts) ∧
      (Forall dated allPosts → StronglySorted notOlder sorted).
Proof.
  destruct (outcome (getRecentPosts 2 Published "en" threeMonths)) as [e|recent] eqn:E;
    [by vm_compute in E|].
  exists recent. split; [done|]. split.
  - vm_compute in E. by injection E as <-.
  - by apply (recent_ordering 2 Published "en" threeMonths recent).
Defined.

(** Claim C9 as stated fails twice. A post whose date does not parse
    compares equal to every other post and stays where the indexes put it:
    before a dated post, and between two dated posts that are then left in
    ascending order. And a negative limit cuts from the end: with three
    posts, a limit of -1 returns two. *)
Lemma recent_unparseable_date_not_last :
  let undated := dated_post "x" "soon" in
  let jan := dated_post "jan" "2025-01-01" in
  let mar := dated_post "mar" "2025-03-01" in
  (Date_getTime "soon" = None ∧ is_Some (Date_getTime "2025-01-01") ∧
   is_Some (Date_getTime "2025-03-01")) ∧
  slugsOf (outcome (getRecentPosts 10 Published "en" (publishAll [undated; jan]))) =
    Some ["x"; "jan"] ∧
  slugsOf (outcome (getRecentPosts 10 Published "en" (publishAll [jan; undated; mar]))) =
    Some ["jan"; "x"; "mar"] ∧
  slugsOf (outcome (getRecentPosts (-1) Published "en" threeMonths)) = Some ["mar"; "feb"].
Proof. vm_compute. split_and!; by eauto. Qed.

(** ** The status label *)

(** Claim C8 fails on the code. The extractor stores the lower-cased text of
    the status line as it stands: [Archived] becomes [archived], not [draft];
    and the quoted [draft] that the repository's own template and [make
    new-post] write is stored with its quotes, which is neither [draft] nor
    [published]. *)
Lemma extractMetadata_status_unchecked :
  status <$> extractMetadata (document "T" "2025-01-01" "Archived") =
    Some (Some "archived") ∧
  status <$> extractMetadata (document "T" "2025-01-01" (quoted "draft")) =
    Some (Some (quoted "draft")) ∧
  quoted "draft" ≠ "draft" ∧ quoted "draft" ≠ "published".
Proof. by vm_compute. Qed.
(** * Part VII: the further properties on concrete inputs *)

(** A title line whose value holds a colon. *)
Lemma parseLine_key_value_witness :
  parseLine "Title: Rocq: a primer " = Some ("title", "Rocq: a primer").
Proof. apply (parseLine_key_value "Title" " Rocq: a primer "); [done | reflexivity]. Defined.

(** The sample document is accepted, and what is extracted is complete and
    trimmed. *)
Lemma extractMetadata_valid_witness : hasRequired helloMeta ∧ allTrimmed helloMeta.
Proof. apply (extractMetadata_valid helloDoc helloMeta). reflexivity. Defined.

(** Publishing [en/tech/a] leaves the draft slot of another post alone. *)
Lemma storeMarkdown_changes_four_keys_witness :
  let store := kv (storeMarkdown (mkPayload "en/tech/b" helloDoc None) Draft ∅) in
  kv (storeMarkdown hello Published store) !! contentKey Draft "en/tech/b" =
  store !! contentKey Draft "en/tech/b".
Proof.
  apply (storeMarkdown_changes_four_keys hello Published); [done | done |].
  intros _ _. split; done.
Defined.


(** Publishing [en/tech/a] does not change what is read at [en/tech/b]. *)
Lemma storeMarkdown_other_documents_witness :
  let store := kv (storeMarkdown (mkPayload "en/tech/b" helloDoc None) Published ∅) in
  let after := kv (storeMarkdown hello Published store) in
  outcome (getPost "en/tech/b" Published after) = outcome (getPost "en/tech/b" Published store) ∧
  outcome (getMarkdown "en/tech/b" Published after) =
    outcome (getMarkdown "en/tech/b" Published store) ∧
  outcome (getPostMetadata "en/tech/b" Published after) =
    outcome (getPostMetadata "en/tech/b" Published store).
Proof.
  apply (storeMarkdown_other_documents hello Published _ "en/tech/b" Published).
  left. done.
Defined.

(** Searching the three sample posts for [MAR] finds the March post. *)
Lemma searchPosts_filters_collected_witness :
  ∃ all,
    outcome (collectPosts Published "en" threeMonths) = inr all ∧
    slug <$> all = ["jan"; "mar"; "feb"] ∧
    outcome (searchPosts "MAR" Published "en" threeMonths) =
      inr (List.filter (matchesB "MAR") all) ∧
    slug <$> List.filter (matchesB "MAR") all = ["mar"].
Proof.
  destruct (outcome (collectPosts Published "en" threeMonths)) as [e|all] eqn:E;
    [by vm_compute in E|].
  exists all. pose proof (searchPosts_filters_collected "MAR" Published "en" _ _ E) as Hs.
  vm_compute in E. injection E as <-.
  split; [reflexivity|]. split; [reflexivity|]. split; [exact Hs | reflexivity].
Defined.



(** A request with another method and a query is still a read. *)
Lemma fetch_reads_only_witness :
  let request := mkRequest "DELETE" "/api/posts/tech/mar" [("status", "draft")] None in
  kv (fetch request threeMonths) = threeMonths ∧
  Forall (isGetIn (requestKey Draft)) (log (fetch request threeMonths)) ∧
  ∃ response, outcome (fetch request threeMonths) = inr response.
Proof.
  apply (fetch_reads_only (mkRequest "DELETE" "/api/posts/tech/mar" [("status", "draft")] None)).
  reflexivity.
Defined.

(** A sync without a status, then the category listing. *)
Lemma drafts_invisible_by_default_witness :
  let first := syncRequest (mkBody (Some "en/tech/a") (Some helloDoc) None None) in
  let request := getRequest "/api/posts/tech" "en" Published in
  outcome (fetch request (kv (fetch first threeMonths))) = outcome (fetch request threeMonths) ∧
  log (fetch request (kv (fetch first threeMonths))) = log (fetch request threeMonths).
Proof.
  apply (drafts_invisible_by_default
           (syncRequest (mkBody (Some "en/tech/a") (Some helloDoc) None None))
           (getRequest "/api/posts/tech" "en" Published)).
  - intros body [= <-]. done.
  - reflexivity.
  - reflexivity.
Defined.

(** A published sync at [tech/a], then the recent posts. *)
Lemma short_key_invisible_over_http_witness :
  let first := syncRequest (mkBody (Some "tech/a") (Some helloDoc) None (Some "published")) in
  let request := getRequest "/api/recent" "en" Published in
  outcome (fetch request (kv (fetch first threeMonths))) = outcome (fetch request threeMonths).
Proof.
  apply (short_key_invisible_over_http
           (syncRequest (mkBody (Some "tech/a") (Some helloDoc) None (Some "published")))
           (getRequest "/api/recent" "en" Published)).
  - intros body key [= <-] [= <-]. vm_compute. lia.
  - reflexivity.
Defined.




(** The category list of the three sample posts has one entry. *)
Lemma listCategories_entries_witness :
  let info := mkInfo "tech" 3 ["jan"; "mar"; "feb"] in
  ∃ categories,
    outcome (getCategories threeMonths) = inr categories ∧
    ("en" +:+ "/") +:+ name info ∈ categories ∧
    outcome (getCategorySlugs (("en" +:+ "/") +:+ name info) threeMonths) = inr (posts info) ∧
    postCount info = length (posts info) ∧ (0 < postCount info)%nat.
Proof.
  apply (listCategories_entries "en" threeMonths [mkInfo "tech" 3 ["jan"; "mar"; "feb"]]).
  - by vm_compute.
  - apply list_elem_of_here.
Defined.

(** The catalog of the three sample posts. *)
Lemma catalog_is_populated_witness :
  length (Js.split "/" "en/tech") = 2%nat ∧
  ∃ slugs,
    slugs ≠ [] ∧
    outcome (getCategorySlugs "en/tech" threeMonths) = inr slugs ∧
    outcome (getCategoryInfo "en/tech" threeMonths) =
      inr (Some (mkInfo "en/tech" (length slugs) slugs)).
Proof.
  apply (catalog_is_populated threeMonths ["en/tech"] "en/tech").
  - by eexists.
  - by vm_compute.
  - apply list_elem_of_here.
Defined.

(** The two category lists of the three sample posts. *)
Lemma category_lists_agree_witness :
  ∃ infos,
    outcome (handleAPIEndpoints "/api/categories" [] threeMonths) =
      inr (createResponse (DCategoryInfos infos) 200) ∧
    outcome (handleLegacyEndpoints "/categories" [] threeMonths) =
      inr (mkResponse 200 [("Content-Type", "application/json")] (BArray (name <$> infos))).
Proof. apply (category_lists_agree [] threeMonths). by eexists. Defined.

(** A post synced with metadata that has no title, then a search. *)
Lemma untitled_post_breaks_search_witness :
  let m := mkMeta None (Some "2025-04-01") (Some "Dibakar") None (Some "tech") None None None in
  let payload := mkPayload "en/tech/apr" "April" (Some m) in
  let after := kv (storeMarkdown payload Published threeMonths) in
  outcome (storeMarkdown payload Published threeMonths) = inr tt ∧
  outcome (searchPosts "jan" Published "en" after) = inl TypeError ∧
  outcome (fetch (searchRequest "jan" "en") after) =
    inr (createErrorResponse "Internal server error" 500).
Proof.
  destruct (untitled_post_breaks_search
              (mkPayload "en/tech/apr" "April"
                 (Some (mkMeta None (Some "2025-04-01") (Some "Dibakar") None (Some "tech")
                          None None None)))
              threeMonths "en" "tech" "apr"
              (mkMeta None (Some "2025-04-01") (Some "Dibakar") None (Some "tech")
                 None None None) "jan")
    as (Hok & Hsearch & Hfetch); [by eexists | reflexivity | reflexivity | reflexivity | done |].
  split; [exact Hok|]. split; [exact Hsearch|]. by apply Hfetch.
Defined.

(** An unknown API route on the empty namespace. *)
Lemma api_allows_cross_origin_witness :
  let request := mkRequest "GET" "/api/unknown" [] None in
  let response := createErrorResponse "API endpoint not found" 404 in
  outcome (fetch request ∅) = inr response ∧ allowsCrossOrigin response.
Proof.
  split; [reflexivity|].
  apply (api_allows_cross_origin (mkRequest "GET" "/api/unknown" [] None) ∅);
    [by repeat right | reflexivity].
Defined.

(** The recent posts of the three sample posts with a limit that is no
    number. *)
Lemma recent_route_limit_witness :
  ∃ posts,
    createResponse (DPosts []) 200 = createResponse (DPosts posts) 200 ∧
    (searchParam [("limit", "many")] "limit" = None → (length posts ≤ 10)%nat) ∧
    (JsNumber.parseInt (orElse (searchParam [("limit", "many")] "limit") "10") = None →
     posts = []).
Proof.
  apply (recent_route_limit [("limit", "many")] threeMonths). reflexivity.
Defined.
